(** * superfast-copy-util: the scan and copy engines

    A shallow embedding of [scanner/scanner.go] and [copier/copier.go].

    The two packages are concurrent Go programs: goroutines that share a
    struct, a handful of buffered channels and the file system.  Each engine
    is embedded as a labelled transition system whose steps are the atomic
    actions of its goroutines (a channel operation, a system call, a locked
    update of the progress struct); a run is any interleaving of them.  The
    transition function is executable, so that concrete runs can be
    evaluated. *)

From stdpp Require Import gmap strings list pretty sorting.
From Stdlib Require Import ZArith QArith Qround Strings.Byte.

Local Open Scope Z_scope.

(** ** Machine integers *)

(** Go's [int64]: the counters of both progress structs. *)
Definition wrap64 (z : Z) : Z := (z + 2 ^ 63) mod 2 ^ 64 - 2 ^ 63.
Definition add64 (x y : Z) : Z := wrap64 (x + y).
Definition in_int64 (z : Z) : Prop := - 2 ^ 63 <= z < 2 ^ 63.

(** ** Buffered channels *)

(** A channel [make(chan A, cap)]: the values buffered and not yet received,
    oldest first, plus whether [close] was called.  A send needs room in the
    buffer; the hand-over to a waiting receiver that a channel of capacity
    zero relies on is not modelled (the channels that carry values in the
    two engines have a positive capacity unless the environment says
    otherwise). *)
Module Chan.
Record chan (A : Type) := Mk { buf : list A; cap : nat; closed : bool }.
Arguments Mk {A} _ _ _.
Arguments buf {A} _.
Arguments cap {A} _.
Arguments closed {A} _.

Definition make {A} (n : nat) : chan A := Mk [] n false.

Definition has_room {A} (c : chan A) : bool := bool_decide (length (buf c) < cap c)%nat.

Definition push {A} (x : A) (c : chan A) : chan A := Mk (buf c ++ [x]) (cap c) (closed c).

(** [select { case c <- x: default: }]: the value is dropped when the
    buffer is full. *)
Definition try_send {A} (x : A) (c : chan A) : chan A :=
  if has_room c then push x c else c.

Definition close {A} (c : chan A) : chan A := Mk (buf c) (cap c) true.

(** A receive by the consumer: the oldest buffered value, if any. *)
Definition recv {A} (c : chan A) : option (A * chan A) :=
  match buf c with
  | [] => None
  | x :: rest => Some (x, Mk rest (cap c) (closed c))
  end.
End Chan.

(** ** The file system *)

(** Paths are absolute and cleaned; a path is its list of components, the
    first one being the volume name (the empty string on Unix, a drive such
    as [C:] on Windows), so that [[vol]] is the root directory of a volume. *)
Abbreviation path := (list string).

Inductive node : Type :=
| File (content : list byte)
| Folder (listable : bool).

Abbreviation fsys := (gmap (list string) node).

Record FileInfo := { fi_isdir : bool; fi_size : Z }.

Definition Stat (fs : fsys) (p : path) : option FileInfo :=
  match fs !! p with
  | Some (File c) => Some {| fi_isdir := false; fi_size := Z.of_nat (length c) |}
  | Some (Folder _) => Some {| fi_isdir := true; fi_size := 0 |}
  | None => None
  end.

(** [os.MkdirAll] below an existing directory [pre]: walks down [rest],
    creating what is missing; an existing non-directory on the way is
    [ENOTDIR] and nothing is created. *)
Fixpoint mkdir_from (fs : fsys) (pre : path) (rest : list string) : option fsys :=
  match rest with
  | [] => Some fs
  | c :: rest' =>
      let p := pre ++ [c] in
      match fs !! p with
      | Some (Folder _) => mkdir_from fs p rest'
      | Some (File _) => None
      | None => mkdir_from (<[p := Folder true]> fs) p rest'
      end
  end.

Definition MkdirAll (fs : fsys) (p : path) : option fsys :=
  match p with
  | [] => None
  | vol :: rest =>
      match fs !! [vol] with
      | Some (Folder _) => mkdir_from fs [vol] rest
      | _ => None
      end
  end.

(** What [MkdirAll] changes: it adds directories, at paths in [P], where
    there was nothing. *)
Definition adds_dirs (P : path → Prop) (fs fs' : fsys) : Prop :=
  ∀ p, fs' !! p = fs !! p ∨ (fs !! p = None ∧ fs' !! p = Some (Folder true) ∧ P p).

(** How a run changes the file system: at a path in [P] a directory appears
    where there was nothing, or a file is written where there was no
    directory; every other path keeps what it held. *)
Definition grows (P : path → Prop) (fs fs' : fsys) : Prop :=
  ∀ p, fs' !! p = fs !! p
       ∨ P p ∧ (fs !! p = None ∧ fs' !! p = Some (Folder true)
                ∨ (∃ content, fs' !! p = Some (File content))
                  ∧ ∀ b, fs !! p ≠ Some (Folder b)).

(** [os.Create]: the parent must be a directory and the path must not be
    one; an existing file is truncated. *)
Definition parent (p : path) : path :=
  match p with
  | [] => []
  | [vol] => [vol]
  | _ => removelast p
  end.

Definition Create (fs : fsys) (p : path) : option fsys :=
  match fs !! parent p, fs !! p with
  | Some (Folder _), Some (Folder _) => None
  | Some (Folder _), _ => Some (<[p := File []]> fs)
  | _, _ => None
  end.

(** A write of [data] at offset [off] through an open handle; a hole left by
    a truncation reads as zero bytes. *)
Definition write_at (c : list byte) (off : nat) (data : list byte) : list byte :=
  take off c ++ replicate (off - length c) x00 ++ data ++ drop (off + length data) c.

(** [filepath.Rel] on cleaned absolute paths: the number of [..] steps and
    the components that follow them.  It fails when the volumes differ. *)
Definition relpath : Type := nat * list string.

Fixpoint rel_go (base targ : list string) : relpath :=
  match base, targ with
  | b :: bs, t :: ts => if decide (b = t) then rel_go bs ts else (length base, targ)
  | _, _ => (length base, targ)
  end.

Definition Rel (base targ : path) : option relpath :=
  match base, targ with
  | bv :: bs, tv :: ts => if decide (bv = tv) then Some (rel_go bs ts) else None
  | _, _ => None
  end.

(** [filepath.Join dir rel], cleaned: each [..] removes one component, never
    the volume. *)
Definition Join (dir : path) (r : relpath) : path :=
  match dir with
  | [] => snd r
  | vol :: comps => vol :: take (length comps - fst r) comps ++ snd r
  end.

(** [os.ReadDir]: the names in a directory, each with its [IsDir] bit.  (Go
    sorts a listing by name; the order plays no role below and is left as the
    map gives it.) *)
Definition is_child (d : path) (p : path) : option string :=
  match list.last p with
  | Some name => if decide (p = d ++ [name]) then Some name else None
  | None => None
  end.

Definition DirEntry : Type := string * bool.

Definition entries_of (fs : fsys) (d : path) : list DirEntry :=
  omap (λ '(p, n), match is_child d p with
                   | Some name => Some (name, match n with Folder _ => true | File _ => false end)
                   | None => None
                   end) (map_to_list fs).

Definition ReadDir (fs : fsys) (d : path) : option (list DirEntry) :=
  match fs !! d with
  | Some (Folder true) => Some (entries_of fs d)
  | _ => None
  end.

(** [filepath.WalkDir root fn] for a callback that never returns an error or
    [SkipDir]: [fn] is called on a directory before the directory is listed,
    the listing is taken when the walk reaches the directory, and a failed
    listing calls [fn] once more with the error, which the callbacks here
    ignore.  [depth] bounds the recursion; on a real system the bound is the
    longest path the system accepts. *)
Fixpoint WalkDir (depth : nat) (fn : fsys → path → bool → fsys)
    (fs : fsys) (p : path) (isdir : bool) : fsys :=
  match depth with
  | O => fs
  | S k =>
      let fs1 := fn fs p isdir in
      if isdir then
        match ReadDir fs1 p with
        | Some es => foldl (λ acc e, WalkDir k fn acc (p ++ [e.1]) e.2) fs1 es
        | None => fs1
        end
      else fs1
  end.

Definition walk_depth (fs : fsys) : nat := S (size fs).

(** What a walk from [root] gets to: [root ++ r] is a directory and every
    directory above it, from [root] on, can be listed. *)
Definition walk_reaches (fs : fsys) (root : path) (r : list string) : Prop :=
  (∃ b, fs !! (root ++ r) = Some (Folder b))
  ∧ ∀ i, (i < length r)%nat → fs !! (root ++ take i r) = Some (Folder true).

(** ** The copy engine: [copier/copier.go] *)

Module Copier.

Record CopyProgress := {
  CompletedFiles : Z;
  CompletedSize : Z;
  CurrentFile : string;
  TotalFiles : Z;
  TotalSize : Z;
  FailedFiles : Z;
  SkippedFiles : Z;
  Speed : Q;
  ElapsedTime : Z;
  RemainingTime : Z
}.

Definition zeroProgress : CopyProgress :=
  {| CompletedFiles := 0; CompletedSize := 0; CurrentFile := "";
     TotalFiles := 0; TotalSize := 0; FailedFiles := 0; SkippedFiles := 0;
     Speed := 0%Q; ElapsedTime := 0; RemainingTime := 0 |}.

(** The causes wrapped by the [fmt.Errorf] calls of the package. *)
Inductive copy_error :=
| ErrRel        (* 상대 경로 계산 실패 *)
| ErrMkdir      (* 디렉토리 생성 실패 *)
| ErrStat       (* 파일 정보 읽기 실패 *)
| ErrOpen       (* 소스 파일 열기 실패 *)
| ErrCreate     (* 대상 파일 생성 실패 *)
| ErrCanceled   (* 사용자 취소 *)
| ErrWrite      (* 쓰기 실패 *)
| ErrRead.      (* 읽기 실패 *)

Record CopyResult := {
  FilePath : path;
  Success : bool;
  Error : option copy_error;
  Size : Z
}.

Record Copier := {
  sourceDir : path;
  targetDir : path;
  useAPFSClone : bool;
  workerCount : nat;
  tickInterval : Z;      (* nanoseconds *)
  bufferSize : Z         (* bytes *)
}.

Definition millisecond : Z := 1000000.
Definition second : Z := 1000000000.

Definition NewCopier (numCPU : nat) (src tgt : path) (clone : bool) : Copier :=
  let workerCount := if decide (8 < numCPU)%nat then 8%nat else numCPU in
  let tickMs := 500 in
  let tickMs := if decide (tickMs < 100) then 100 else tickMs in
  {| sourceDir := src; targetDir := tgt; useAPFSClone := clone;
     workerCount := workerCount;
     tickInterval := tickMs * millisecond;
     bufferSize := 1 * 1024 * 1024 |}.

Definition SetWorkerCount (n : Z) (c : Copier) : Copier :=
  if decide (n < 1) then c
  else {| sourceDir := sourceDir c; targetDir := targetDir c;
          useAPFSClone := useAPFSClone c; workerCount := Z.to_nat n;
          tickInterval := tickInterval c; bufferSize := bufferSize c |}.


(** The goroutines of one run. *)
Inductive worker :=
| WIdle                                           (* at [range fileChan] *)
| WCopy (src dst : path) (size : Z) (off : nat)   (* in the loop of [copyFileContent] *)
| WSend (r : CopyResult)                          (* at [c.resultCh <- result] *)
| WCount (r : CopyResult)                         (* before the locked counter update *)
| WExit.

Inductive main_pc :=
| MInit
| MSend (rest : list path)
| MWait
| MFinal
| MClosing
| MDone.

Inductive monitor :=
| MonOff
| MonIdle                       (* in the [select] *)
| MonReady (p : CopyProgress)   (* snapshot taken, before the send *)
| MonDone.

Record state := {
  fs : fsys;
  progress : CopyProgress;
  fileChan : Chan.chan path;
  resultCh : Chan.chan CopyResult;
  progressCh : Chan.chan CopyProgress;
  errCh : Chan.chan copy_error;
  results_out : list CopyResult;      (* received by the consumer *)
  progress_out : list CopyProgress;   (* received by the consumer *)
  canceled : bool;
  done_closed : bool;
  now : Z;                            (* time.Since(startTime), nanoseconds *)
  next_tick : Z;
  main : main_pc;
  workers : list worker;
  mon : monitor;
  panicked : bool;
  attempts : list path                (* history: the files given to copySingleFile *)
}.

Definition init (fs0 : fsys) : state :=
  {| fs := fs0; progress := zeroProgress;
     fileChan := Chan.make 0;
     resultCh := Chan.make 1000;
     progressCh := Chan.make 100;
     errCh := Chan.make 100;
     results_out := []; progress_out := [];
     canceled := false; done_closed := false;
     now := 0; next_tick := 0;
     main := MInit; workers := []; mon := MonOff; panicked := false;
     attempts := [] |}.

Section Engine.
Variable c : Copier.
Variable files : list path.

(** The callback of [ensureAllDirectories]. *)
Definition ensure_fn (fs : fsys) (p : path) (isdir : bool) : fsys :=
  if isdir then
    match Rel (sourceDir c) p with
    | None => fs
    | Some rel =>
        let dst := Join (targetDir c) rel in
        let dst := if decide (rel = (O, [])) then targetDir c else dst in
        default fs (MkdirAll fs dst)
    end
  else fs.

Definition ensureAllDirectories (fs : fsys) : fsys :=
  match Stat fs (sourceDir c) with
  | Some srcInfo =>
      if fi_isdir srcInfo
      then WalkDir (walk_depth fs) ensure_fn fs (sourceDir c) true
      else fs
  | None => fs
  end.

Definition totalSizeOf (fs : fsys) : Z :=
  foldl (λ acc file, match Stat fs file with
                     | Some info => add64 acc (fi_size info)
                     | None => acc
                     end) 0 files.

Definition bufSize : Z :=
  if decide (bufferSize c <= 0) then 1 * 1024 * 1024 else bufferSize c.

Definition failure (src : path) (e : copy_error) (size : Z) : CopyResult :=
  {| FilePath := src; Success := false; Error := Some e; Size := size |}.

Definition success (src : path) (size : Z) : CopyResult :=
  {| FilePath := src; Success := true; Error := None; Size := size |}.

(** [copySingleFile] up to the loop of [copyFileContent]: the new file
    system and either the result of an early return or the state of the
    loop. *)
Definition copy_begin (fs : fsys) (srcPath : path) : fsys * worker :=
  match Rel (sourceDir c) srcPath with
  | None => (fs, WSend (failure srcPath ErrRel 0))
  | Some relPath =>
      let dstPath := Join (targetDir c) relPath in
      let dstDir := parent dstPath in
      match MkdirAll fs dstDir with
      | None => (fs, WSend (failure srcPath ErrMkdir 0))
      | Some fs1 =>
          match Stat fs1 srcPath with
          | None => (fs1, WSend (failure srcPath ErrStat 0))
          | Some info =>
              match fs1 !! srcPath with
              | None => (fs1, WSend (failure srcPath ErrOpen (fi_size info)))
              | Some _ =>
                  match Create fs1 dstPath with
                  | None => (fs1, WSend (failure srcPath ErrCreate (fi_size info)))
                  | Some fs2 => (fs2, WCopy srcPath dstPath (fi_size info) 0)
                  end
              end
          end
      end
  end.

(** One iteration of the loop of [copyFileContent]; [n] is the number of
    bytes the read delivers when that many are left (a read may deliver
    less than the buffer holds). *)
Definition copy_chunk (fs : fsys) (cancel : bool)
    (src dst : path) (size : Z) (off : nat) (n : nat) : fsys * worker :=
  if cancel then (fs, WSend (failure src ErrCanceled size))
  else
    match fs !! src with
    | Some (File content) =>
        let data := take (Z.to_nat (Z.min (Z.of_nat n) bufSize)) (drop off content) in
        match data with
        | [] => (fs, WSend (success src size))
        | _ =>
            match fs !! dst with
            | Some (File old) =>
                (<[dst := File (write_at old off data)]> fs,
                 WCopy src dst size (off + length data))
            | _ => (fs, WSend (failure src ErrWrite size))
            end
        end
    | _ => (fs, WSend (failure src ErrRead size))
    end.

Definition count_result (r : CopyResult) (p : CopyProgress) : CopyProgress :=
  if Success r then
    {| CompletedFiles := add64 (CompletedFiles p) 1;
       CompletedSize := add64 (CompletedSize p) (Size r);
       CurrentFile := CurrentFile p; TotalFiles := TotalFiles p;
       TotalSize := TotalSize p; FailedFiles := FailedFiles p;
       SkippedFiles := SkippedFiles p; Speed := Speed p;
       ElapsedTime := ElapsedTime p; RemainingTime := RemainingTime p |}
  else
    {| CompletedFiles := CompletedFiles p;
       CompletedSize := CompletedSize p;
       CurrentFile := CurrentFile p; TotalFiles := TotalFiles p;
       TotalSize := TotalSize p; FailedFiles := add64 (FailedFiles p) 1;
       SkippedFiles := SkippedFiles p; Speed := Speed p;
       ElapsedTime := ElapsedTime p; RemainingTime := RemainingTime p |}.

Definition set_totals (tf ts : Z) (p : CopyProgress) : CopyProgress :=
  {| CompletedFiles := CompletedFiles p; CompletedSize := CompletedSize p;
     CurrentFile := CurrentFile p; TotalFiles := tf; TotalSize := ts;
     FailedFiles := FailedFiles p; SkippedFiles := SkippedFiles p;
     Speed := Speed p; ElapsedTime := ElapsedTime p;
     RemainingTime := RemainingTime p |}.

(** The exact quotient that the [float64] division approximates. *)
Definition speed_of (n elapsed : Z) : Q :=
  (inject_Z n / (inject_Z elapsed / inject_Z second))%Q.

Definition with_time (elapsed : Z) (sp : Q) (rem : Z) (p : CopyProgress) : CopyProgress :=
  {| CompletedFiles := CompletedFiles p; CompletedSize := CompletedSize p;
     CurrentFile := CurrentFile p; TotalFiles := TotalFiles p;
     TotalSize := TotalSize p; FailedFiles := FailedFiles p;
     SkippedFiles := SkippedFiles p; Speed := sp;
     ElapsedTime := elapsed; RemainingTime := rem |}.

(** The snapshot of a periodic tick of [monitorProgress]. *)
Definition tick_snapshot (p : CopyProgress) (elapsed : Z) : CopyProgress :=
  let sp := if decide (0 < elapsed) then speed_of (CompletedFiles p) elapsed else Speed p in
  let rem :=
    if Qlt_le_dec 0 sp then
      if decide (CompletedFiles p < TotalFiles p)
      then wrap64 (Qfloor (inject_Z (TotalFiles p - CompletedFiles p) / sp) * second)
      else RemainingTime p
    else RemainingTime p in
  with_time elapsed sp rem p.

(** The snapshot of [sendFinalProgress]. *)
Definition final_snapshot (p : CopyProgress) (elapsed : Z) : CopyProgress :=
  let sp := if decide (0 < elapsed) then speed_of (CompletedFiles p) elapsed else Speed p in
  with_time elapsed sp (RemainingTime p) p.

Definition tick_period : Z :=
  if decide (tickInterval c <= 0) then 500 * millisecond else tickInterval c.


(** Field updates of [state]. *)
Definition with_fs (x : fsys) (s : state) : state :=
  {| fs := x; progress := progress s; fileChan := fileChan s; resultCh := resultCh s;
     progressCh := progressCh s; errCh := errCh s; results_out := results_out s;
     progress_out := progress_out s; canceled := canceled s;
     done_closed := done_closed s; now := now s; next_tick := next_tick s;
     main := main s; workers := workers s; mon := mon s; panicked := panicked s;
     attempts := attempts s |}.
Definition with_progress (x : CopyProgress) (s : state) : state :=
  {| fs := fs s; progress := x; fileChan := fileChan s; resultCh := resultCh s;
     progressCh := progressCh s; errCh := errCh s; results_out := results_out s;
     progress_out := progress_out s; canceled := canceled s;
     done_closed := done_closed s; now := now s; next_tick := next_tick s;
     main := main s; workers := workers s; mon := mon s; panicked := panicked s;
     attempts := attempts s |}.
Definition with_fileChan (x : Chan.chan path) (s : state) : state :=
  {| fs := fs s; progress := progress s; fileChan := x; resultCh := resultCh s;
     progressCh := progressCh s; errCh := errCh s; results_out := results_out s;
     progress_out := progress_out s; canceled := canceled s;
     done_closed := done_closed s; now := now s; next_tick := next_tick s;
     main := main s; workers := workers s; mon := mon s; panicked := panicked s;
     attempts := attempts s |}.
Definition with_resultCh (x : Chan.chan CopyResult) (s : state) : state :=
  {| fs := fs s; progress := progress s; fileChan := fileChan s; resultCh := x;
     progressCh := progressCh s; errCh := errCh s; results_out := results_out s;
     progress_out := progress_out s; canceled := canceled s;
     done_closed := done_closed s; now := now s; next_tick := next_tick s;
     main := main s; workers := workers s; mon := mon s; panicked := panicked s;
     attempts := attempts s |}.
Definition with_progressCh (x : Chan.chan CopyProgress) (s : state) : state :=
  {| fs := fs s; progress := progress s; fileChan := fileChan s;
     resultCh := resultCh s; progressCh := x; errCh := errCh s;
     results_out := results_out s; progress_out := progress_out s;
     canceled := canceled s; done_closed := done_closed s; now := now s;
     next_tick := next_tick s; main := main s; workers := workers s; mon := mon s;
     panicked := panicked s; attempts := attempts s |}.
Definition with_errCh (x : Chan.chan copy_error) (s : state) : state :=
  {| fs := fs s; progress := progress s; fileChan := fileChan s;
     resultCh := resultCh s; progressCh := progressCh s; errCh := x;
     results_out := results_out s; progress_out := progress_out s;
     canceled := canceled s; done_closed := done_closed s; now := now s;
     next_tick := next_tick s; main := main s; workers := workers s; mon := mon s;
     panicked := panicked s; attempts := attempts s |}.
Definition with_results_out (x : list CopyResult) (s : state) : state :=
  {| fs := fs s; progress := progress s; fileChan := fileChan s;
     resultCh := resultCh s; progressCh := progressCh s; errCh := errCh s;
     results_out := x; progress_out := progress_out s; canceled := canceled s;
     done_closed := done_closed s; now := now s; next_tick := next_tick s;
     main := main s; workers := workers s; mon := mon s; panicked := panicked s;
     attempts := attempts s |}.
Definition with_progress_out (x : list CopyProgress) (s : state) : state :=
  {| fs := fs s; progress := progress s; fileChan := fileChan s;
     resultCh := resultCh s; progressCh := progressCh s; errCh := errCh s;
     results_out := results_out s; progress_out := x; canceled := canceled s;
     done_closed := done_closed s; now := now s; next_tick := next_tick s;
     main := main s; workers := workers s; mon := mon s; panicked := panicked s;
     attempts := attempts s |}.
Definition with_canceled (x : bool) (s : state) : state :=
  {| fs := fs s; progress := progress s; fileChan := fileChan s;
     resultCh := resultCh s; progressCh := progressCh s; errCh := errCh s;
     results_out := results_out s; progress_out := progress_out s; canceled := x;
     done_closed := done_closed s; now := now s; next_tick := next_tick s;
     main := main s; workers := workers s; mon := mon s; panicked := panicked s;
     attempts := attempts s |}.
Definition with_done_closed (x : bool) (s : state) : state :=
  {| fs := fs s; progress := progress s; fileChan := fileChan s;
     resultCh := resultCh s; progressCh := progressCh s; errCh := errCh s;
     results_out := results_out s; progress_out := progress_out s;
     canceled := canceled s; done_closed := x; now := now s; next_tick := next_tick s;
     main := main s; workers := workers s; mon := mon s; panicked := panicked s;
     attempts := attempts s |}.
Definition with_now (x : Z) (s : state) : state :=
  {| fs := fs s; progress := progress s; fileChan := fileChan s;
     resultCh := resultCh s; progressCh := progressCh s; errCh := errCh s;
     results_out := results_out s; progress_out := progress_out s;
     canceled := canceled s; done_closed := done_closed s; now := x;
     next_tick := next_tick s; main := main s; workers := workers s; mon := mon s;
     panicked := panicked s; attempts := attempts s |}.
Definition with_next_tick (x : Z) (s : state) : state :=
  {| fs := fs s; progress := progress s; fileChan := fileChan s;
     resultCh := resultCh s; progressCh := progressCh s; errCh := errCh s;
     results_out := results_out s; progress_out := progress_out s;
     canceled := canceled s; done_closed := done_closed s; now := now s;
     next_tick := x; main := main s; workers := workers s; mon := mon s;
     panicked := panicked s; attempts := attempts s |}.
Definition with_main (x : main_pc) (s : state) : state :=
  {| fs := fs s; progress := progress s; fileChan := fileChan s;
     resultCh := resultCh s; progressCh := progressCh s; errCh := errCh s;
     results_out := results_out s; progress_out := progress_out s;
     canceled := canceled s; done_closed := done_closed s; now := now s;
     next_tick := next_tick s; main := x; workers := workers s; mon := mon s;
     panicked := panicked s; attempts := attempts s |}.
Definition with_workers (x : list worker) (s : state) : state :=
  {| fs := fs s; progress := progress s; fileChan := fileChan s;
     resultCh := resultCh s; progressCh := progressCh s; errCh := errCh s;
     results_out := results_out s; progress_out := progress_out s;
     canceled := canceled s; done_closed := done_closed s; now := now s;
     next_tick := next_tick s; main := main s; workers := x; mon := mon s;
     panicked := panicked s; attempts := attempts s |}.
Definition with_mon (x : monitor) (s : state) : state :=
  {| fs := fs s; progress := progress s; fileChan := fileChan s;
     resultCh := resultCh s; progressCh := progressCh s; errCh := errCh s;
     results_out := results_out s; progress_out := progress_out s;
     canceled := canceled s; done_closed := done_closed s; now := now s;
     next_tick := next_tick s; main := main s; workers := workers s; mon := x;
     panicked := panicked s; attempts := attempts s |}.
Definition with_panicked (x : bool) (s : state) : state :=
  {| fs := fs s; progress := progress s; fileChan := fileChan s;
     resultCh := resultCh s; progressCh := progressCh s; errCh := errCh s;
     results_out := results_out s; progress_out := progress_out s;
     canceled := canceled s; done_closed := done_closed s; now := now s;
     next_tick := next_tick s; main := main s; workers := workers s; mon := mon s;
     panicked := x; attempts := attempts s |}.
Definition with_attempts (x : list path) (s : state) : state :=
  {| fs := fs s; progress := progress s; fileChan := fileChan s;
     resultCh := resultCh s; progressCh := progressCh s; errCh := errCh s;
     results_out := results_out s; progress_out := progress_out s;
     canceled := canceled s; done_closed := done_closed s; now := now s;
     next_tick := next_tick s; main := main s; workers := workers s; mon := mon s;
     panicked := panicked s; attempts := x |}.

Definition set_worker (i : nat) (w : worker) (s : state) : state :=
  with_workers (<[i := w]> (workers s)) s.

(** [Close]: the deferred call of the goroutine of [CopyFilesParallel]. *)
Definition Close (s : state) : state :=
  with_errCh (Chan.close (errCh s))
    (with_resultCh (Chan.close (resultCh s))
       (with_progressCh (Chan.close (progressCh s)) s)).

Definition is_exit (w : worker) : bool :=
  match w with WExit => true | _ => false end.

(** The atomic actions of a run.  [LWorker i n] is the next action of worker
    [i]; [LFault i w] makes the read ([w = false]) or the write ([w = true])
    of its next chunk fail; [LRecvResult] and [LRecvProgress] are receives by
    the consumer; [LCancel] is a call of [Cancel]; [LClock d] lets [d]
    nanoseconds pass. *)
Inductive label :=
| LMain
| LWorker (i n : nat)
| LFault (i : nat) (onwrite : bool)
| LTick
| LMonSend
| LMonStop
| LRecvResult
| LRecvProgress
| LCancel
| LClock (d : Z).

(** The goroutine started by [CopyFilesParallel]. *)
Definition step_main (s : state) : option state :=
  match main s with
  | MInit =>
      if decide (length files = 0)%nat then Some (Close (with_main MDone s))
      else
        let fs1 := ensureAllDirectories (fs s) in
        let totalSize := totalSizeOf fs1 in
        Some (with_main (MSend files)
                (with_next_tick (now s + tick_period)
                   (with_mon MonIdle
                      (with_workers (replicate (workerCount c) WIdle)
                         (with_fileChan (Chan.make (length files))
                            (with_progress
                               (set_totals (wrap64 (Z.of_nat (length files)))
                                  totalSize (progress s))
                               (with_fs fs1 s)))))))
  | MSend (file :: rest) =>
      if Chan.has_room (fileChan s)
      then Some (with_main (MSend rest) (with_fileChan (Chan.push file (fileChan s)) s))
      else None
  | MSend [] => Some (with_main MWait (with_fileChan (Chan.close (fileChan s)) s))
  | MWait =>
      if forallb is_exit (workers s)
      then Some (with_main MFinal (with_done_closed true s))
      else None
  | MFinal =>
      Some (with_main MClosing
              (with_progressCh
                 (Chan.try_send (final_snapshot (progress s) (now s)) (progressCh s)) s))
  | MClosing => Some (Close (with_main MDone s))
  | MDone => None
  end.

(** [copyWorker].  The receive from the queue, the load of the flag and the
    part of [copySingleFile] up to the opening of both files are one step
    here: a call of [Cancel] falls before or after them, not in between. *)
Definition step_worker (i n : nat) (s : state) : option state :=
  match workers s !! i with
  | Some WIdle =>
      match Chan.recv (fileChan s) with
      | Some (srcPath, ch) =>
          if canceled s then Some (set_worker i WExit (with_fileChan ch s))
          else
            let r := copy_begin (fs s) srcPath in
            Some (set_worker i r.2
                    (with_fs r.1
                       (with_attempts (attempts s ++ [srcPath]) (with_fileChan ch s))))
      | None =>
          if Chan.closed (fileChan s) then Some (set_worker i WExit s) else None
      end
  | Some (WCopy src dst size off) =>
      if decide (1 ≤ n)%nat then
        let r := copy_chunk (fs s) (canceled s) src dst size off n in
        Some (set_worker i r.2 (with_fs r.1 s))
      else None
  | Some (WSend r) =>
      if Chan.has_room (resultCh s)
      then Some (set_worker i (WCount r) (with_resultCh (Chan.push r (resultCh s)) s))
      else None
  | Some (WCount r) =>
      Some (set_worker i WIdle (with_progress (count_result r (progress s)) s))
  | Some WExit | None => None
  end.

Definition step_fault (i : nat) (onwrite : bool) (s : state) : option state :=
  match workers s !! i with
  | Some (WCopy src dst size off) =>
      if canceled s then None
      else Some (set_worker i
                   (WSend (failure src (if onwrite then ErrWrite else ErrRead) size)) s)
  | _ => None
  end.

(** [monitorProgress]: a tick takes the snapshot, the send that follows is a
    step of its own; a send on the closed channel panics. *)
Definition step_tick (s : state) : option state :=
  match mon s with
  | MonIdle =>
      if decide (next_tick s <= now s)
      then Some (with_next_tick (next_tick s + tick_period)
                   (with_mon (MonReady (tick_snapshot (progress s) (now s))) s))
      else None
  | _ => None
  end.

Definition step_mon_send (s : state) : option state :=
  match mon s with
  | MonReady p =>
      if Chan.closed (progressCh s) then Some (with_panicked true s)
      else Some (with_mon MonIdle (with_progressCh (Chan.try_send p (progressCh s)) s))
  | _ => None
  end.

Definition step_mon_stop (s : state) : option state :=
  match mon s with
  | MonIdle => if done_closed s then Some (with_mon MonDone s) else None
  | _ => None
  end.

Definition step_recv_result (s : state) : option state :=
  match Chan.recv (resultCh s) with
  | Some (r, ch) => Some (with_results_out (results_out s ++ [r]) (with_resultCh ch s))
  | None => None
  end.

Definition step_recv_progress (s : state) : option state :=
  match Chan.recv (progressCh s) with
  | Some (p, ch) => Some (with_progress_out (progress_out s ++ [p]) (with_progressCh ch s))
  | None => None
  end.

Definition exec (l : label) (s : state) : option state :=
  if panicked s then None
  else
    match l with
    | LMain => step_main s
    | LWorker i n => step_worker i n s
    | LFault i w => step_fault i w s
    | LTick => step_tick s
    | LMonSend => step_mon_send s
    | LMonStop => step_mon_stop s
    | LRecvResult => step_recv_result s
    | LRecvProgress => step_recv_progress s
    | LCancel => Some (with_canceled true s)
    | LClock d => if decide (0 <= d) then Some (with_now (now s + d) s) else None
    end.

(** A run from the file system [fs0]; [run] follows a schedule. *)
Inductive reachable (fs0 : fsys) : state → Prop :=
| reach_init : reachable fs0 (init fs0)
| reach_step s l s' : reachable fs0 s → exec l s = Some s' → reachable fs0 s'.

Fixpoint run (sched : list label) (s : state) : option state :=
  match sched with
  | [] => Some s
  | l :: rest => match exec l s with Some s' => run rest s' | None => None end
  end.

End Engine.

(** *** What a run shows, and the invariants of its counters *)

Definition w_src (w : worker) : list path :=
  match w with
  | WCopy src _ _ _ => [src]
  | WSend r => [FilePath r]
  | _ => []
  end.

Definition w_counting (w : worker) : list CopyResult :=
  match w with WCount r => [r] | _ => [] end.

(** Everything sent on the result stream so far. *)
Definition emitted (s : state) : list CopyResult :=
  results_out s ++ Chan.buf (resultCh s).

(** Everything sent on the progress stream so far. *)
Definition snapshots (s : state) : list CopyProgress :=
  progress_out s ++ Chan.buf (progressCh s).

Definition tosend (files : list path) (s : state) : list path :=
  match main s with
  | MInit => files
  | MSend rest => rest
  | _ => []
  end.

Definition n_ok (rs : list CopyResult) : nat :=
  length (filter (λ r, Success r = true) rs).

Definition n_failed (rs : list CopyResult) : nat :=
  length (filter (λ r, Success r = false) rs).

Record counters_inv (files : list path) (s : state) : Prop := {
  inv_ok :
    CompletedFiles (progress s) + Z.of_nat (n_ok (workers s ≫= w_counting))
    = Z.of_nat (n_ok (emitted s));
  inv_failed :
    FailedFiles (progress s) + Z.of_nat (n_failed (workers s ≫= w_counting))
    = Z.of_nat (n_failed (emitted s));
  inv_attempts :
    (FilePath <$> emitted s) ++ (workers s ≫= w_src) ≡ₚ attempts s;
  inv_files :
    tosend files s ++ Chan.buf (fileChan s) ++ attempts s ⊆+ files;
  inv_total :
    TotalFiles (progress s)
    = match main s with MInit => 0 | _ => Z.of_nat (length files) end;
  inv_nonneg :
    0 <= CompletedFiles (progress s) ∧ 0 <= FailedFiles (progress s);
  inv_start :
    main s = MInit → workers s = []
}.

(** A snapshot that respects the bound, taken after the totals were set. *)
Definition within_total (p : CopyProgress) : Prop :=
  CompletedFiles p + FailedFiles p <= TotalFiles p.

Definition snap_ok (files : list path) (p : CopyProgress) : Prop :=
  within_total p ∧ TotalFiles p = Z.of_nat (length files).

Record snapshots_inv (files : list path) (s : state) : Prop := {
  snap_stream : Forall (snap_ok files) (snapshots s);
  snap_ready : ∀ p, mon s = MonReady p → snap_ok files p;
  snap_start : main s = MInit → mon s = MonOff
}.

(** No worker is in the middle of a file. *)
Definition quiescent (s : state) : Prop :=
  Forall (λ w, w = WIdle ∨ w = WExit) (workers s).

(** *** A small run, for evaluating the statements

    [/src] holds [x.txt] (3 bytes), [sub/y.txt] (empty) and the empty
    directory [sub/empty]; two workers copy it to [/dst]. *)
Definition demo_fs : fsys :=
  list_to_map
    [ ([""], Folder true);
      ([""; "src"], Folder true);
      ([""; "src"; "x.txt"], File [x61; x62; x63]);
      ([""; "src"; "sub"], Folder true);
      ([""; "src"; "sub"; "y.txt"], File []);
      ([""; "src"; "sub"; "empty"], Folder true) ].

Definition demo_copier : Copier :=
  SetWorkerCount 2 (NewCopier 4 [""; "src"] [""; "dst"] false).

Definition demo_files : list path :=
  [ [""; "src"; "x.txt"]; [""; "src"; "sub"; "y.txt"] ].

Definition demo_schedule : list label :=
  [ LMain; LMain; LMain; LMain;
    LWorker 0 2; LWorker 1 2; LWorker 0 2; LWorker 0 2; LWorker 0 2;
    LWorker 1 2; LWorker 0 2; LClock 600000000; LTick; LMonSend;
    LWorker 1 2; LWorker 0 2; LWorker 1 2; LRecvResult;
    LWorker 0 2; LWorker 1 2;
    LMain; LMonStop; LMain; LMain; LRecvProgress ].

(** Files are never removed, and a file never turns into a directory. *)
Definition keeps_files (fs fs' : fsys) : Prop :=
  ∀ p content, fs !! p = Some (File content) → ∃ content', fs' !! p = Some (File content').

(** Every worker in the loop of [copyFileContent] has its destination on disk. *)
Definition dst_on_disk (s : state) : Prop :=
  ∀ i src dst size off,
    workers s !! i = Some (WCopy src dst size off) →
    ∃ content, fs s !! dst = Some (File content).

(** The run is over for the workers: the main goroutine is past [wg.Wait]. *)
Definition past_wait (s : state) : Prop :=
  main s = MFinal ∨ main s = MClosing ∨ main s = MDone.

Record shutdown_inv (files : list path) (s : state) : Prop := {
  shut_workers : files ≠ [] → past_wait s → Forall (λ w, w = WExit) (workers s);
  shut_open : main s ≠ MDone → Chan.closed (progressCh s) = false
}.

(** What is left of a run on an empty file list. *)
Record empty_inv (fs0 : fsys) (s : state) : Prop := {
  empty_fs : fs s = fs0;
  empty_results : emitted s = [];
  empty_progress : snapshots s = [];
  empty_errors : Chan.buf (errCh s) = [];
  empty_workers : workers s = [];
  empty_mon : mon s = MonOff;
  empty_alive : panicked s = false;
  empty_main : main s = MInit ∨ main s = MDone;
  empty_closed :
    main s = MDone →
    Chan.closed (resultCh s) = true ∧ Chan.closed (progressCh s) = true
    ∧ Chan.closed (errCh s) = true
}.

Definition same_counters (p q : CopyProgress) : Prop :=
  CompletedFiles p = CompletedFiles q ∧ CompletedSize p = CompletedSize q
  ∧ FailedFiles p = FailedFiles q ∧ TotalFiles p = TotalFiles q
  ∧ TotalSize p = TotalSize q.

(** The reading of C8 that the code is checked against: in every finished
    run some snapshot on the progress stream shows the final counters. *)
Definition final_state_observable (c : Copier) (files : list path) (fs0 : fsys) : Prop :=
  ∀ s, reachable c files fs0 s → main s = MDone →
       ∃ p, p ∈ snapshots s ∧ same_counters p (progress s).

(** A run of the small example in which the monitor ticks a hundred times
    before the consumer reads anything. *)
Definition slow_consumer_schedule : list label :=
  [LMain] ++ concat (replicate 100 [LClock 500000000; LTick; LMonSend])
  ++ [ LMain; LMain; LMain;
       LWorker 0 2; LWorker 1 2; LWorker 0 2; LWorker 0 2; LWorker 0 2;
       LWorker 1 2; LWorker 0 2; LWorker 1 2; LWorker 0 2; LWorker 1 2;
       LWorker 0 2; LWorker 1 2;
       LMain; LMonStop; LMain; LMain ].

(** A run of the small example that is cancelled while worker 0 is in the
    middle of [x.txt]. *)
Definition cancel_schedule : list label :=
  [ LMain; LMain; LMain; LMain; LWorker 0 2; LWorker 0 2; LCancel ].

(** A source tree of directories only: [/src/a/b], no file. *)
Definition dirs_only_fs : fsys :=
  list_to_map
    [ ([""], Folder true);
      ([""; "src"], Folder true);
      ([""; "src"; "a"], Folder true);
      ([""; "src"; "a"; "b"], Folder true) ].

(** *** Mirroring *)

(** The destination [copySingleFile] computes for a source path. *)
Definition dst_of (c : Copier) (f : path) : path :=
  match Rel (sourceDir c) f with
  | Some rel => Join (targetDir c) rel
  | None => f
  end.

(** A successful result stands for a faithful copy. *)
Definition result_ok (c : Copier) (files : list path) (fs0 fs : fsys)
    (r : CopyResult) : Prop :=
  Success r = true →
  FilePath r ∈ files
  ∧ ∃ content, fs0 !! FilePath r = Some (File content)
               ∧ fs !! dst_of c (FilePath r) = Some (File content).

(** A worker in the loop has written the bytes before its offset. *)
Definition worker_ok (c : Copier) (files : list path) (fs0 fs : fsys)
    (em : list CopyResult) (w : worker) : Prop :=
  match w with
  | WCopy f dst size off =>
      f ∈ files ∧ dst = dst_of c f
      ∧ ∀ content, fs0 !! f = Some (File content) →
                   fs !! dst = Some (File (take off content))
  | WSend r => FilePath r ∈ files ∧ result_ok c files fs0 fs r
  | WCount r => r ∈ em
  | _ => True
  end.

Record mirror_inv (c : Copier) (files : list path) (fs0 : fsys) (s : state) : Prop := {
  mir_source : ∀ p, sourceDir c `prefix_of` p → fs s !! p = fs0 !! p;
  mir_workers : Forall (worker_ok c files fs0 (fs s) (emitted s)) (workers s);
  mir_results : Forall (result_ok c files fs0 (fs s)) (emitted s)
}.

Record drain_inv (c : Copier) (files : list path) (s : state) : Prop := {
  drain_all :
    canceled s = false →
    tosend files s ++ Chan.buf (fileChan s) ++ attempts s ≡ₚ files;
  drain_exit :
    canceled s = false →
    ∀ i, workers s !! i = Some WExit →
         Chan.buf (fileChan s) = [] ∧ Chan.closed (fileChan s) = true;
  drain_closed : Chan.closed (fileChan s) = true → tosend files s = [];
  drain_pool : main s ≠ MInit → files ≠ [] → length (workers s) = workerCount c
}.

(** The reading of C1 that the code is checked against: whenever a run has
    ended with no cancellation and no failed result, every file of the list
    is, in the final file system, byte for byte the file at its mirrored
    path, and the counters are complete. *)
Definition copy_is_identity (c : Copier) (files : list path) (fs0 : fsys) : Prop :=
  ∀ s, reachable c files fs0 s → main s = MDone → canceled s = false →
       Forall (λ r, Success r = true) (emitted s) →
       (∀ f, f ∈ files →
             ∃ content, fs s !! f = Some (File content)
                        ∧ fs s !! dst_of c f = Some (File content))
       ∧ CompletedFiles (progress s) = TotalFiles (progress s)
       ∧ FailedFiles (progress s) = 0.

(** A copy of [/a/b] into [/a]: the target root lies above the source root,
    and [/a/b/b/x] is mirrored onto the source file [/a/b/x]. *)
Definition overlap_fs : fsys :=
  list_to_map
    [ ([""], Folder true);
      ([""; "a"], Folder true);
      ([""; "a"; "b"], Folder true);
      ([""; "a"; "b"; "x"], File [x58]);
      ([""; "a"; "b"; "b"], Folder true);
      ([""; "a"; "b"; "b"; "x"], File [x59]) ].

Definition overlap_copier : Copier :=
  SetWorkerCount 2 (NewCopier 4 [""; "a"; "b"] [""; "a"] false).

Definition overlap_files : list path :=
  [ [""; "a"; "b"; "x"]; [""; "a"; "b"; "b"; "x"] ].

Definition overlap_schedule : list label :=
  [ LMain; LMain; LMain; LMain;
    LWorker 0 1; LWorker 1 1; LWorker 0 1; LWorker 1 1; LWorker 1 1;
    LWorker 0 1; LWorker 1 1; LWorker 0 1; LWorker 1 1;
    LWorker 0 1; LWorker 1 1;
    LMain; LMain; LMain ].

(** *** Where a run writes *)

(** The changes of a run stay inside [P]: the file system has only grown
    there, the workers in the loop write there, and only files of the list
    are queued. *)
Record confined_inv (P : path → Prop) (files : list path) (fs0 : fsys)
    (s : state) : Prop := {
  conf_fs : grows P fs0 (fs s);
  conf_workers :
    ∀ i src dst size off, workers s !! i = Some (WCopy src dst size off) → P dst;
  conf_queue : ∀ f, f ∈ tosend files s ++ Chan.buf (fileChan s) → f ∈ files
}.

(** The paths on the way to a destination: the prefixes of the paths below
    the target root. *)
Definition toward_target (c : Copier) (p : path) : Prop :=
  ∃ r, p `prefix_of` targetDir c ++ r.

(** Nothing stands in the way of the directory pass: the volume of the target
    exists, and no file sits at, or above, the mirror position of a directory
    that the walk of the source tree gets to. *)
Definition way_free (c : Copier) (fs : fsys) : Prop :=
  (∃ vol rest b, targetDir c = vol :: rest ∧ fs !! [vol] = Some (Folder b))
  ∧ ∀ r, walk_reaches fs (sourceDir c) r →
         ∀ q content, q `prefix_of` targetDir c ++ r → fs !! q ≠ Some (File content).

(** The file systems that the directory pass goes through, starting from
    [fs], and those of them in which the directory [q] has been made. *)
Definition on_the_way (c : Copier) (fs cur : fsys) : Prop :=
  adds_dirs (toward_target c) fs cur.

Definition made (c : Copier) (fs : fsys) (q : path) (cur : fsys) : Prop :=
  on_the_way c fs cur ∧ ∃ b, cur !! q = Some (Folder b).

(** The directory pass comes first: until the run starts nothing has
    changed, and from then on the file system has only grown from what
    [ensureAllDirectories] left. *)
Record skeleton_inv (c : Copier) (files : list path) (fs0 : fsys)
    (s : state) : Prop := {
  skel_start : main s = MInit → workers s = [] ∧ fs s = fs0;
  skel_made :
    main s ≠ MInit → files ≠ [] →
    grows (λ _, True) (ensureAllDirectories c fs0) (fs s)
}.

(** Until [done] is closed the monitor of a run on a non-empty list is
    running. *)
Definition monitor_on (s : state) : Prop :=
  (main s = MInit → done_closed s = false)
  ∧ (∀ rest, main s = MSend rest →
       done_closed s = false ∧ (mon s = MonIdle ∨ ∃ p, mon s = MonReady p))
  ∧ (main s = MWait →
     done_closed s = false ∧ (mon s = MonIdle ∨ ∃ p, mon s = MonReady p)).

(** *** A copy of a tree onto itself *)

(** The file at [p] has been truncated; [size] is the length it had. *)
Definition emptied (fs0 fs : fsys) (p : path) (size : Z) : Prop :=
  fs !! p = Some (File [])
  ∧ ∃ content, fs0 !! p = Some (File content) ∧ size = Z.of_nat (length content).

Definition worker_emptied (fs0 fs : fsys) (w : worker) : Prop :=
  match w with
  | WCopy src dst size off => dst = src ∧ emptied fs0 fs src size
  | WSend r | WCount r => Success r = true → emptied fs0 fs (FilePath r) (Size r)
  | _ => True
  end.

(** What a step does to the files: the truncated ones stay truncated, and a
    file that is there afterwards was there before, unless it is [f]. *)
Definition gentle (f : option path) (fs fs' : fsys) : Prop :=
  (∀ p, fs !! p = Some (File []) → fs' !! p = Some (File []))
  ∧ ∀ p content, Some p ≠ f → fs' !! p = Some (File content) →
                 fs !! p = Some (File content).

Record selfcopy_inv (fs0 : fsys) (s : state) : Prop := {
  self_rest :
    ∀ p content, p ∉ attempts s → fs s !! p = Some (File content) →
                 fs0 !! p = Some (File content);
  self_workers : Forall (worker_emptied fs0 (fs s)) (workers s);
  self_results :
    Forall (λ r, Success r = true → emptied fs0 (fs s) (FilePath r) (Size r))
      (emitted s)
}.

(** A copy of [/src] onto itself, up to the first result. *)
Definition self_copier : Copier :=
  SetWorkerCount 2 (NewCopier 4 [""; "src"] [""; "src"] false).

Definition self_schedule : list label :=
  [ LMain; LMain; LMain; LMain;
    LWorker 0 2; LWorker 0 2; LWorker 0 2; LWorker 0 2 ].



End Copier.

(** ** The scanner: [scanner/scanner.go] *)

(** The scanner tells directories from everything else and looks no further
    ([entry.IsDir()], scanner.go:125): for a scan a [File] node stands for any
    entry that is not a directory, and the length of its content for the size
    that [os.Lstat] reports.  The tree of a scan is a file system together
    with the set [links] of its entries that are neither directories nor
    regular files (symbolic links, sockets, devices) and the set [nostat] of
    the entries on which [os.Lstat] fails (an entry of a directory that can
    be read but not searched, a path that is too long). *)

(** The entries below [d] that are not directories. *)
Definition is_file_at (fs : fsys) (p : path) : bool :=
  match fs !! p with Some (File _) => true | _ => false end.

Definition files_under (fs : fsys) (d : path) : list path :=
  filter (λ p, d `prefix_of` p ∧ is_file_at fs p) (map_to_list fs).*1.

(** The regular files among them, and the others. *)
Definition regular_files (fs : fsys) (links : gset path) (d : path) : list path :=
  filter (λ p, p ∉ links) (files_under fs d).

Definition other_entries (fs : fsys) (links : gset path) (d : path) : list path :=
  filter (λ p, p ∈ links) (files_under fs d).

(** What the entries of a listing of [d] stand for: a file entry for itself,
    a directory entry for the files below it. *)
Definition expand (fs : fsys) (d : path) (entries : list DirEntry) : list path :=
  entries ≫= λ e : DirEntry, if e.2 then files_under fs (d ++ [e.1]) else [d ++ [e.1]].

(** Every entry that is not the root of a volume sits in a directory. *)
Definition tree_closed (fs : fsys) : Prop :=
  ∀ p name n, p ≠ [] → fs !! (p ++ [name]) = Some n → ∃ b, fs !! p = Some (Folder b).

Definition size_at (fs : fsys) (p : path) : Z :=
  match Stat fs p with Some info => fi_size info | None => 0 end.

(** What the tree must be like for a scan to reach all of it: the root is a
    directory, and every directory below it can be listed. *)
Definition listable_below (fs : fsys) (root : path) : Prop :=
  (∃ b, fs !! root = Some (Folder b))
  ∧ ∀ d, root `prefix_of` d → fs !! d ≠ Some (Folder false).

Definition listable_belowb (fs : fsys) (root : path) : bool :=
  match fs !! root with Some (Folder _) => true | _ => false end
  && forallb (λ dn : path * node,
       match dn.2 with
       | Folder false => negb (bool_decide (root `prefix_of` dn.1))
       | _ => true
       end) (map_to_list fs).

(** A decidable form of [tree_closed], for concrete trees. *)
Definition tree_closedb (fs : fsys) : bool :=
  forallb (λ q : path,
    match q with
    | [] | [_] => true
    | _ => match fs !! removelast q with Some (Folder _) => true | _ => false end
    end) (map_to_list fs).*1.

Definition is_folder (n : node) : bool :=
  match n with Folder _ => true | File _ => false end.

Module Scanner.

Record Progress := {
  TotalFiles : Z;
  TotalSize : Z;
  Speed : Q;
  ElapsedTime : Z
}.

Record FileInfo := {
  Path : path;
  Size : Z;
  Dir : path
}.

(** The errors sent on the error stream: a failed [os.ReadDir] of a
    directory, a failed [os.Lstat] of an entry. *)
Inductive scan_error :=
| ErrReadDir (dir : path)
| ErrLstat (entryPath : path).

(** The environment variables read by the package, each already parsed when
    present and valid. *)
Record Env := {
  SCANNER_PROGRESS_BUF : option Z;
  SCANNER_FILES_BUF : option Z;
  SCANNER_ERR_BUF : option Z;
  SCANNER_CONCURRENCY : option Z;
  SCANNER_TICK_MS : option Z;
  SCANNER_DIRBUF : option Z;
  SCANNER_COLLECT_SIZE : option bool
}.

Definition no_env : Env :=
  {| SCANNER_PROGRESS_BUF := None; SCANNER_FILES_BUF := None;
     SCANNER_ERR_BUF := None; SCANNER_CONCURRENCY := None;
     SCANNER_TICK_MS := None; SCANNER_DIRBUF := None;
     SCANNER_COLLECT_SIZE := None |}.

Definition getEnvInt (v : option Z) (def : Z) : Z := default def v.
Definition getEnvBool (v : option bool) (def : bool) : bool := default def v.

Definition max (a b : Z) : Z := if decide (a > b) then a else b.

Record Scanner := {
  progressBuf : nat;
  filesBuf : nat;
  errBuf : nat;
  concurrency : nat;
  tickInterval : Z;     (* nanoseconds *)
  dirBuf : nat;
  collectSize : bool
}.

Definition millisecond : Z := 1000000.
Definition second : Z := 1000000000.

(** [NewScanner], with the two settings that [ScanDirectory] reads from the
    environment when it starts.  (A negative buffer size, with which [make]
    panics, is read as zero.) *)
Definition NewScanner (env : Env) (numCPU : Z) : Scanner :=
  let progressBuf := getEnvInt (SCANNER_PROGRESS_BUF env) 100 in
  let filesBuf := getEnvInt (SCANNER_FILES_BUF env) 1000 in
  let errBuf := getEnvInt (SCANNER_ERR_BUF env) 100 in
  let conc := getEnvInt (SCANNER_CONCURRENCY env) (max 8 (numCPU * 4)) in
  let conc := if decide (conc < 1) then 1 else conc in
  let tickMs := getEnvInt (SCANNER_TICK_MS env) 500 in
  let tickMs := if decide (tickMs < 10) then 10 else tickMs in
  let dirBuf := getEnvInt (SCANNER_DIRBUF env) 1024 in
  let dirBuf := if decide (dirBuf < 1) then 1 else dirBuf in
  {| progressBuf := Z.to_nat progressBuf;
     filesBuf := Z.to_nat filesBuf;
     errBuf := Z.to_nat errBuf;
     concurrency := Z.to_nat conc;
     tickInterval := tickMs * millisecond;
     dirBuf := Z.to_nat dirBuf;
     collectSize := getEnvBool (SCANNER_COLLECT_SIZE env) false |}.

(** The goroutines of one scan. *)
Inductive worker :=
| SIdle                                                   (* at [range dirCh] *)
| SList (dir : path) (entries : list DirEntry)            (* at [range entries] *)
| SEmit (dir : path) (entries : list DirEntry) (fi : FileInfo)
                                    (* counted, before the send on [filesCh] *)
| SExit.

Inductive main_pc := SMInit | SMWait | SMFinal | SMClosing | SMDone.

Inductive monitor :=
| MonOff
| MonIdle
| MonReady (p : Progress)
| MonDone.

Record state := {
  dirCh : Chan.chan path;
  pending : Z;                         (* the counter of [dirWG] *)
  filesCh : Chan.chan FileInfo;
  errCh : Chan.chan scan_error;
  progressCh : Chan.chan Progress;
  files_out : list FileInfo;           (* received by the consumer *)
  errs_out : list scan_error;
  progress_out : list Progress;
  totalFiles : Z;
  totalSize : Z;
  canceled : bool;
  done_closed : bool;
  now : Z;                             (* time.Since(startTime), nanoseconds *)
  next_tick : Z;
  main : main_pc;
  workers : list worker;
  mon : monitor;
  panicked : bool;
  (* history *)
  counted : list path;                 (* files added to the counters *)
  skipped : list path;                 (* files given up before counting *)
  unsent : list path;                  (* files counted and then not sent *)
  raised : list scan_error;            (* every error a worker ran into *)
  ticks : list Progress;               (* snapshots taken by the monitor *)
  stale : bool       (* the monitor held a snapshot when the final one was sent *)
}.

#[global] Instance FileInfo_eq_dec : EqDecision FileInfo.
Proof. solve_decision. Defined.
#[global] Instance scan_error_eq_dec : EqDecision scan_error.
Proof. solve_decision. Defined.

(** Field updates of [state]. *)
Definition with_dirCh (x : Chan.chan path) (s : state) : state :=
  {| dirCh := x; pending := pending s; filesCh := filesCh s; errCh := errCh s;
     progressCh := progressCh s; files_out := files_out s; errs_out := errs_out s;
     progress_out := progress_out s; totalFiles := totalFiles s;
     totalSize := totalSize s; canceled := canceled s; done_closed := done_closed s;
     now := now s; next_tick := next_tick s; main := main s; workers := workers s;
     mon := mon s; panicked := panicked s; counted := counted s; skipped := skipped s;
     unsent := unsent s; raised := raised s; ticks := ticks s; stale := stale s |}.
Definition with_pending (x : Z) (s : state) : state :=
  {| dirCh := dirCh s; pending := x; filesCh := filesCh s; errCh := errCh s;
     progressCh := progressCh s; files_out := files_out s; errs_out := errs_out s;
     progress_out := progress_out s; totalFiles := totalFiles s;
     totalSize := totalSize s; canceled := canceled s; done_closed := done_closed s;
     now := now s; next_tick := next_tick s; main := main s; workers := workers s;
     mon := mon s; panicked := panicked s; counted := counted s; skipped := skipped s;
     unsent := unsent s; raised := raised s; ticks := ticks s; stale := stale s |}.
Definition with_filesCh (x : Chan.chan FileInfo) (s : state) : state :=
  {| dirCh := dirCh s; pending := pending s; filesCh := x; errCh := errCh s;
     progressCh := progressCh s; files_out := files_out s; errs_out := errs_out s;
     progress_out := progress_out s; totalFiles := totalFiles s;
     totalSize := totalSize s; canceled := canceled s; done_closed := done_closed s;
     now := now s; next_tick := next_tick s; main := main s; workers := workers s;
     mon := mon s; panicked := panicked s; counted := counted s; skipped := skipped s;
     unsent := unsent s; raised := raised s; ticks := ticks s; stale := stale s |}.
Definition with_errCh (x : Chan.chan scan_error) (s : state) : state :=
  {| dirCh := dirCh s; pending := pending s; filesCh := filesCh s; errCh := x;
     progressCh := progressCh s; files_out := files_out s; errs_out := errs_out s;
     progress_out := progress_out s; totalFiles := totalFiles s;
     totalSize := totalSize s; canceled := canceled s; done_closed := done_closed s;
     now := now s; next_tick := next_tick s; main := main s; workers := workers s;
     mon := mon s; panicked := panicked s; counted := counted s; skipped := skipped s;
     unsent := unsent s; raised := raised s; ticks := ticks s; stale := stale s |}.
Definition with_progressCh (x : Chan.chan Progress) (s : state) : state :=
  {| dirCh := dirCh s; pending := pending s; filesCh := filesCh s; errCh := errCh s;
     progressCh := x; files_out := files_out s; errs_out := errs_out s;
     progress_out := progress_out s; totalFiles := totalFiles s;
     totalSize := totalSize s; canceled := canceled s; done_closed := done_closed s;
     now := now s; next_tick := next_tick s; main := main s; workers := workers s;
     mon := mon s; panicked := panicked s; counted := counted s; skipped := skipped s;
     unsent := unsent s; raised := raised s; ticks := ticks s; stale := stale s |}.
Definition with_files_out (x : list FileInfo) (s : state) : state :=
  {| dirCh := dirCh s; pending := pending s; filesCh := filesCh s; errCh := errCh s;
     progressCh := progressCh s; files_out := x; errs_out := errs_out s;
     progress_out := progress_out s; totalFiles := totalFiles s;
     totalSize := totalSize s; canceled := canceled s; done_closed := done_closed s;
     now := now s; next_tick := next_tick s; main := main s; workers := workers s;
     mon := mon s; panicked := panicked s; counted := counted s; skipped := skipped s;
     unsent := unsent s; raised := raised s; ticks := ticks s; stale := stale s |}.
Definition with_errs_out (x : list scan_error) (s : state) : state :=
  {| dirCh := dirCh s; pending := pending s; filesCh := filesCh s; errCh := errCh s;
     progressCh := progressCh s; files_out := files_out s; errs_out := x;
     progress_out := progress_out s; totalFiles := totalFiles s;
     totalSize := totalSize s; canceled := canceled s; done_closed := done_closed s;
     now := now s; next_tick := next_tick s; main := main s; workers := workers s;
     mon := mon s; panicked := panicked s; counted := counted s; skipped := skipped s;
     unsent := unsent s; raised := raised s; ticks := ticks s; stale := stale s |}.
Definition with_progress_out (x : list Progress) (s : state) : state :=
  {| dirCh := dirCh s; pending := pending s; filesCh := filesCh s; errCh := errCh s;
     progressCh := progressCh s; files_out := files_out s; errs_out := errs_out s;
     progress_out := x; totalFiles := totalFiles s; totalSize := totalSize s;
     canceled := canceled s; done_closed := done_closed s; now := now s;
     next_tick := next_tick s; main := main s; workers := workers s; mon := mon s;
     panicked := panicked s; counted := counted s; skipped := skipped s;
     unsent := unsent s; raised := raised s; ticks := ticks s; stale := stale s |}.
Definition with_totalFiles (x : Z) (s : state) : state :=
  {| dirCh := dirCh s; pending := pending s; filesCh := filesCh s; errCh := errCh s;
     progressCh := progressCh s; files_out := files_out s; errs_out := errs_out s;
     progress_out := progress_out s; totalFiles := x; totalSize := totalSize s;
     canceled := canceled s; done_closed := done_closed s; now := now s;
     next_tick := next_tick s; main := main s; workers := workers s; mon := mon s;
     panicked := panicked s; counted := counted s; skipped := skipped s;
     unsent := unsent s; raised := raised s; ticks := ticks s; stale := stale s |}.
Definition with_totalSize (x : Z) (s : state) : state :=
  {| dirCh := dirCh s; pending := pending s; filesCh := filesCh s; errCh := errCh s;
     progressCh := progressCh s; files_out := files_out s; errs_out := errs_out s;
     progress_out := progress_out s; totalFiles := totalFiles s; totalSize := x;
     canceled := canceled s; done_closed := done_closed s; now := now s;
     next_tick := next_tick s; main := main s; workers := workers s; mon := mon s;
     panicked := panicked s; counted := counted s; skipped := skipped s;
     unsent := unsent s; raised := raised s; ticks := ticks s; stale := stale s |}.
Definition with_canceled (x : bool) (s : state) : state :=
  {| dirCh := dirCh s; pending := pending s; filesCh := filesCh s; errCh := errCh s;
     progressCh := progressCh s; files_out := files_out s; errs_out := errs_out s;
     progress_out := progress_out s; totalFiles := totalFiles s;
     totalSize := totalSize s; canceled := x; done_closed := done_closed s;
     now := now s; next_tick := next_tick s; main := main s; workers := workers s;
     mon := mon s; panicked := panicked s; counted := counted s; skipped := skipped s;
     unsent := unsent s; raised := raised s; ticks := ticks s; stale := stale s |}.
Definition with_done_closed (x : bool) (s : state) : state :=
  {| dirCh := dirCh s; pending := pending s; filesCh := filesCh s; errCh := errCh s;
     progressCh := progressCh s; files_out := files_out s; errs_out := errs_out s;
     progress_out := progress_out s; totalFiles := totalFiles s;
     totalSize := totalSize s; canceled := canceled s; done_closed := x; now := now s;
     next_tick := next_tick s; main := main s; workers := workers s; mon := mon s;
     panicked := panicked s; counted := counted s; skipped := skipped s;
     unsent := unsent s; raised := raised s; ticks := ticks s; stale := stale s |}.
Definition with_now (x : Z) (s : state) : state :=
  {| dirCh := dirCh s; pending := pending s; filesCh := filesCh s; errCh := errCh s;
     progressCh := progressCh s; files_out := files_out s; errs_out := errs_out s;
     progress_out := progress_out s; totalFiles := totalFiles s;
     totalSize := totalSize s; canceled := canceled s; done_closed := done_closed s;
     now := x; next_tick := next_tick s; main := main s; workers := workers s;
     mon := mon s; panicked := panicked s; counted := counted s; skipped := skipped s;
     unsent := unsent s; raised := raised s; ticks := ticks s; stale := stale s |}.
Definition with_next_tick (x : Z) (s : state) : state :=
  {| dirCh := dirCh s; pending := pending s; filesCh := filesCh s; errCh := errCh s;
     progressCh := progressCh s; files_out := files_out s; errs_out := errs_out s;
     progress_out := progress_out s; totalFiles := totalFiles s;
     totalSize := totalSize s; canceled := canceled s; done_closed := done_closed s;
     now := now s; next_tick := x; main := main s; workers := workers s; mon := mon s;
     panicked := panicked s; counted := counted s; skipped := skipped s;
     unsent := unsent s; raised := raised s; ticks := ticks s; stale := stale s |}.
Definition with_main (x : main_pc) (s : state) : state :=
  {| dirCh := dirCh s; pending := pending s; filesCh := filesCh s; errCh := errCh s;
     progressCh := progressCh s; files_out := files_out s; errs_out := errs_out s;
     progress_out := progress_out s; totalFiles := totalFiles s;
     totalSize := totalSize s; canceled := canceled s; done_closed := done_closed s;
     now := now s; next_tick := next_tick s; main := x; workers := workers s;
     mon := mon s; panicked := panicked s; counted := counted s; skipped := skipped s;
     unsent := unsent s; raised := raised s; ticks := ticks s; stale := stale s |}.
Definition with_workers (x : list worker) (s : state) : state :=
  {| dirCh := dirCh s; pending := pending s; filesCh := filesCh s; errCh := errCh s;
     progressCh := progressCh s; files_out := files_out s; errs_out := errs_out s;
     progress_out := progress_out s; totalFiles := totalFiles s;
     totalSize := totalSize s; canceled := canceled s; done_closed := done_closed s;
     now := now s; next_tick := next_tick s; main := main s; workers := x;
     mon := mon s; panicked := panicked s; counted := counted s; skipped := skipped s;
     unsent := unsent s; raised := raised s; ticks := ticks s; stale := stale s |}.
Definition with_mon (x : monitor) (s : state) : state :=
  {| dirCh := dirCh s; pending := pending s; filesCh := filesCh s; errCh := errCh s;
     progressCh := progressCh s; files_out := files_out s; errs_out := errs_out s;
     progress_out := progress_out s; totalFiles := totalFiles s;
     totalSize := totalSize s; canceled := canceled s; done_closed := done_closed s;
     now := now s; next_tick := next_tick s; main := main s; workers := workers s;
     mon := x; panicked := panicked s; counted := counted s; skipped := skipped s;
     unsent := unsent s; raised := raised s; ticks := ticks s; stale := stale s |}.
Definition with_panicked (x : bool) (s : state) : state :=
  {| dirCh := dirCh s; pending := pending s; filesCh := filesCh s; errCh := errCh s;
     progressCh := progressCh s; files_out := files_out s; errs_out := errs_out s;
     progress_out := progress_out s; totalFiles := totalFiles s;
     totalSize := totalSize s; canceled := canceled s; done_closed := done_closed s;
     now := now s; next_tick := next_tick s; main := main s; workers := workers s;
     mon := mon s; panicked := x; counted := counted s; skipped := skipped s;
     unsent := unsent s; raised := raised s; ticks := ticks s; stale := stale s |}.
Definition with_counted (x : list path) (s : state) : state :=
  {| dirCh := dirCh s; pending := pending s; filesCh := filesCh s; errCh := errCh s;
     progressCh := progressCh s; files_out := files_out s; errs_out := errs_out s;
     progress_out := progress_out s; totalFiles := totalFiles s;
     totalSize := totalSize s; canceled := canceled s; done_closed := done_closed s;
     now := now s; next_tick := next_tick s; main := main s; workers := workers s;
     mon := mon s; panicked := panicked s; counted := x; skipped := skipped s;
     unsent := unsent s; raised := raised s; ticks := ticks s; stale := stale s |}.
Definition with_skipped (x : list path) (s : state) : state :=
  {| dirCh := dirCh s; pending := pending s; filesCh := filesCh s; errCh := errCh s;
     progressCh := progressCh s; files_out := files_out s; errs_out := errs_out s;
     progress_out := progress_out s; totalFiles := totalFiles s;
     totalSize := totalSize s; canceled := canceled s; done_closed := done_closed s;
     now := now s; next_tick := next_tick s; main := main s; workers := workers s;
     mon := mon s; panicked := panicked s; counted := counted s; skipped := x;
     unsent := unsent s; raised := raised s; ticks := ticks s; stale := stale s |}.
Definition with_unsent (x : list path) (s : state) : state :=
  {| dirCh := dirCh s; pending := pending s; filesCh := filesCh s; errCh := errCh s;
     progressCh := progressCh s; files_out := files_out s; errs_out := errs_out s;
     progress_out := progress_out s; totalFiles := totalFiles s;
     totalSize := totalSize s; canceled := canceled s; done_closed := done_closed s;
     now := now s; next_tick := next_tick s; main := main s; workers := workers s;
     mon := mon s; panicked := panicked s; counted := counted s; skipped := skipped s;
     unsent := x; raised := raised s; ticks := ticks s; stale := stale s |}.
Definition with_raised (x : list scan_error) (s : state) : state :=
  {| dirCh := dirCh s; pending := pending s; filesCh := filesCh s; errCh := errCh s;
     progressCh := progressCh s; files_out := files_out s; errs_out := errs_out s;
     progress_out := progress_out s; totalFiles := totalFiles s;
     totalSize := totalSize s; canceled := canceled s; done_closed := done_closed s;
     now := now s; next_tick := next_tick s; main := main s; workers := workers s;
     mon := mon s; panicked := panicked s; counted := counted s; skipped := skipped s;
     unsent := unsent s; raised := x; ticks := ticks s; stale := stale s |}.
Definition with_ticks (x : list Progress) (s : state) : state :=
  {| dirCh := dirCh s; pending := pending s; filesCh := filesCh s; errCh := errCh s;
     progressCh := progressCh s; files_out := files_out s; errs_out := errs_out s;
     progress_out := progress_out s; totalFiles := totalFiles s;
     totalSize := totalSize s; canceled := canceled s; done_closed := done_closed s;
     now := now s; next_tick := next_tick s; main := main s; workers := workers s;
     mon := mon s; panicked := panicked s; counted := counted s; skipped := skipped s;
     unsent := unsent s; raised := raised s; ticks := x; stale := stale s |}.
Definition with_stale (x : bool) (s : state) : state :=
  {| dirCh := dirCh s; pending := pending s; filesCh := filesCh s; errCh := errCh s;
     progressCh := progressCh s; files_out := files_out s; errs_out := errs_out s;
     progress_out := progress_out s; totalFiles := totalFiles s;
     totalSize := totalSize s; canceled := canceled s; done_closed := done_closed s;
     now := now s; next_tick := next_tick s; main := main s; workers := workers s;
     mon := mon s; panicked := panicked s; counted := counted s; skipped := skipped s;
     unsent := unsent s; raised := raised s; ticks := ticks s; stale := x |}.

Definition set_worker (i : nat) (w : worker) (s : state) : state :=
  with_workers (<[i := w]> (workers s)) s.

(** The scanner as [NewScanner] leaves it: the three streams exist, nothing
    runs yet. *)
Definition init (sc : Scanner) : state :=
  {| dirCh := Chan.make 0; pending := 0;
     filesCh := Chan.make (filesBuf sc); errCh := Chan.make (errBuf sc);
     progressCh := Chan.make (progressBuf sc);
     files_out := []; errs_out := []; progress_out := [];
     totalFiles := 0; totalSize := 0;
     canceled := false; done_closed := false; now := 0; next_tick := 0;
     main := SMInit; workers := []; mon := MonOff; panicked := false;
     counted := []; skipped := []; unsent := []; raised := []; ticks := [];
     stale := false |}.

(** [Close]. *)
Definition Close (s : state) : state :=
  with_errCh (Chan.close (errCh s))
    (with_filesCh (Chan.close (filesCh s))
       (with_progressCh (Chan.close (progressCh s)) s)).

Definition is_exit (w : worker) : bool :=
  match w with SExit => true | _ => false end.

(** The atomic actions of a scan: [LMain] for the goroutine of
    [ScanDirectory], [LCloser] for the goroutine that closes the directory
    queue, [LWorker i] for worker [i], three for the monitor, the receives of
    the consumer, [Cancel] and the clock. *)
Inductive label :=
| LMain
| LCloser
| LWorker (i : nat)
| LTick
| LMonSend
| LMonStop
| LRecvFile
| LRecvErr
| LRecvProgress
| LCancel
| LClock (d : Z).

(** The snapshot that the monitor has taken and not yet offered. *)
Definition in_hand (s : state) : list Progress :=
  match mon s with
  | MonReady p => [p]
  | _ => []
  end.

Section Engine.
Variable sc : Scanner.
Variable fs : fsys.
Variable nostat : gset path.   (* the entries on which [os.Lstat] fails *)
Variable path0 : path.     (* the argument of [ScanDirectory] *)

(** [os.Lstat] of an entry. *)
Definition Lstat (p : path) :=
  if decide (p ∈ nostat) then None else Stat fs p.

(** The exact quotient that the [float64] division approximates. *)
Definition speed_of (n elapsed : Z) : Q :=
  (inject_Z n / (inject_Z elapsed / inject_Z second))%Q.

(** The snapshot taken by [monitorProgress] and by [sendFinalProgress]. *)
Definition snapshot (s : state) : Progress :=
  let elapsed := now s in
  {| TotalFiles := totalFiles s;
     TotalSize := totalSize s;
     Speed := if decide (0 < elapsed) then speed_of (totalFiles s) elapsed else 0%Q;
     ElapsedTime := elapsed |}.

Definition tick_period : Z :=
  if decide (tickInterval sc <= 0) then 100 * millisecond else tickInterval sc.

(** The goroutine of [ScanDirectory]: start the monitor, the closer and the
    workers and queue the root (the queue holds at least one directory, so
    this send never waits); wait for the workers; close [done]; send the
    final snapshot; [Close]. *)
Definition step_main (s : state) : option state :=
  match main s with
  | SMInit =>
      Some (with_main SMWait
              (with_dirCh (Chan.push path0 (Chan.make (dirBuf sc)))
                 (with_workers (replicate (concurrency sc) SIdle)
                    (with_pending 1
                       (with_next_tick tick_period
                          (with_mon MonIdle (with_now 0 s)))))))
  | SMWait =>
      if forallb is_exit (workers s)
      then Some (with_main SMFinal (with_done_closed true s))
      else None
  | SMFinal =>
      Some (with_main SMClosing
              (with_progressCh (Chan.try_send (snapshot s) (progressCh s))
                 (with_stale (bool_decide (in_hand s ≠ [])) s)))
  | SMClosing => Some (Close (with_main SMDone s))
  | SMDone => None
  end.

(** [dirWG.Wait(); close(dirCh)]. *)
Definition step_closer (s : state) : option state :=
  match main s with
  | SMInit => None
  | _ =>
      if decide (pending s = 0) then
        if Chan.closed (dirCh s) then None
        else Some (with_dirCh (Chan.close (dirCh s)) s)
      else None
  end.

(** [dirWG.Done()] at the end of a directory. *)
Definition dir_done (i : nat) (s : state) : state :=
  set_worker i SIdle (with_pending (pending s - 1) s).

(** The two atomic additions and the construction of the record.  (They are
    two separate atomic operations in the source; nothing below depends on a
    snapshot falling between them.) *)
Definition count_file (i : nat) (dir : path) (rest : list DirEntry)
    (entryPath : path) (size : Z) (s : state) : state :=
  set_worker i (SEmit dir rest {| Path := entryPath; Size := size; Dir := dir |})
    (with_counted (counted s ++ [entryPath])
       (with_totalSize
          (if collectSize sc then add64 (totalSize s) size else totalSize s)
          (with_totalFiles (add64 (totalFiles s) 1) s))).

(** One worker of the pool.  A worker that finds the directory queue full
    waits at [dirCh <- entryPath], one that finds the file stream full waits
    at [s.filesCh <- fileInfo]; the two sends on [errCh] never wait.  The
    [dirWG.Add(1)] that precedes the send of a subdirectory is taken together
    with the send: in between the worker is inside a directory, so the
    counter is positive either way. *)
Definition step_worker (i : nat) (s : state) : option state :=
  match workers s !! i with
  | Some SIdle =>
      match Chan.recv (dirCh s) with
      | Some (dir, ch) =>
          if canceled s then
            Some (dir_done i
                    (with_skipped (skipped s ++ files_under fs dir)
                       (with_dirCh ch s)))
          else
            match ReadDir fs dir with
            | None =>
                Some (dir_done i
                        (with_errCh (Chan.try_send (ErrReadDir dir) (errCh s))
                           (with_raised (raised s ++ [ErrReadDir dir])
                              (with_skipped (skipped s ++ files_under fs dir)
                                 (with_dirCh ch s)))))
            | Some entries => Some (set_worker i (SList dir entries) (with_dirCh ch s))
            end
      | None =>
          if Chan.closed (dirCh s) then Some (set_worker i SExit s) else None
      end
  | Some (SList dir []) => Some (dir_done i s)
  | Some (SList dir (entry :: rest)) =>
      if canceled s then
        Some (dir_done i
                (with_skipped (skipped s ++ expand fs dir (entry :: rest)) s))
      else if entry.2 then
        if Chan.has_room (dirCh s) then
          Some (set_worker i (SList dir rest)
                  (with_dirCh (Chan.push (dir ++ [entry.1]) (dirCh s))
                     (with_pending (pending s + 1) s)))
        else None
      else if collectSize sc then
        match Lstat (dir ++ [entry.1]) with
        | None =>
            Some (set_worker i (SList dir rest)
                    (with_errCh (Chan.try_send (ErrLstat (dir ++ [entry.1])) (errCh s))
                       (with_raised (raised s ++ [ErrLstat (dir ++ [entry.1])])
                          (with_skipped (skipped s ++ [dir ++ [entry.1]]) s))))
        | Some info => Some (count_file i dir rest (dir ++ [entry.1]) (fi_size info) s)
        end
      else Some (count_file i dir rest (dir ++ [entry.1]) 0 s)
  | Some (SEmit dir rest fileInfo) =>
      if canceled s then
        Some (set_worker i (SList dir rest)
                (with_unsent (unsent s ++ [Path fileInfo]) s))
      else if Chan.has_room (filesCh s) then
        Some (set_worker i (SList dir rest)
                (with_filesCh (Chan.push fileInfo (filesCh s)) s))
      else None
  | Some SExit | None => None
  end.

(** [monitorProgress]: a tick takes a snapshot, the next step offers it to the
    progress stream; a send on the stream once [Close] has run panics. *)
Definition step_tick (s : state) : option state :=
  match mon s with
  | MonIdle =>
      if decide (next_tick s <= now s)
      then Some (with_next_tick (next_tick s + tick_period)
                   (with_ticks (ticks s ++ [snapshot s])
                      (with_mon (MonReady (snapshot s)) s)))
      else None
  | _ => None
  end.

Definition step_mon_send (s : state) : option state :=
  match mon s with
  | MonReady p =>
      if Chan.closed (progressCh s) then Some (with_panicked true s)
      else Some (with_mon MonIdle (with_progressCh (Chan.try_send p (progressCh s)) s))
  | _ => None
  end.

Definition step_mon_stop (s : state) : option state :=
  match mon s with
  | MonIdle => if done_closed s then Some (with_mon MonDone s) else None
  | _ => None
  end.

Definition step_recv_file (s : state) : option state :=
  match Chan.recv (filesCh s) with
  | Some (f, ch) => Some (with_files_out (files_out s ++ [f]) (with_filesCh ch s))
  | None => None
  end.

Definition step_recv_err (s : state) : option state :=
  match Chan.recv (errCh s) with
  | Some (e, ch) => Some (with_errs_out (errs_out s ++ [e]) (with_errCh ch s))
  | None => None
  end.

Definition step_recv_progress (s : state) : option state :=
  match Chan.recv (progressCh s) with
  | Some (p, ch) => Some (with_progress_out (progress_out s ++ [p]) (with_progressCh ch s))
  | None => None
  end.

Definition exec (l : label) (s : state) : option state :=
  if panicked s then None
  else
    match l with
    | LMain => step_main s
    | LCloser => step_closer s
    | LWorker i => step_worker i s
    | LTick => step_tick s
    | LMonSend => step_mon_send s
    | LMonStop => step_mon_stop s
    | LRecvFile => step_recv_file s
    | LRecvErr => step_recv_err s
    | LRecvProgress => step_recv_progress s
    | LCancel => Some (with_canceled true s)
    | LClock d => if decide (0 <= d) then Some (with_now (now s + d) s) else None
    end.

Inductive reachable : state → Prop :=
| reach_init : reachable (init sc)
| reach_step s l s' : reachable s → exec l s = Some s' → reachable s'.

Fixpoint run (sched : list label) (s : state) : option state :=
  match sched with
  | [] => Some s
  | l :: rest => match exec l s with Some s' => run rest s' | None => None end
  end.

End Engine.

(** Everything sent on the three streams so far. *)
Definition emitted_files (s : state) : list FileInfo :=
  files_out s ++ Chan.buf (filesCh s).

Definition emitted_errors (s : state) : list scan_error :=
  errs_out s ++ Chan.buf (errCh s).

Definition snapshots (s : state) : list Progress :=
  progress_out s ++ Chan.buf (progressCh s).


(** ** What a scan has accounted for *)

(** The files that a worker still has to visit for the directory it is in,
    and the file it has counted and not yet sent. *)
Definition w_todo (fs : fsys) (w : worker) : list path :=
  match w with
  | SList d es | SEmit d es _ => expand fs d es
  | _ => []
  end.

Definition w_emitting (w : worker) : list path :=
  match w with
  | SEmit _ _ fi => [Path fi]
  | _ => []
  end.

Definition is_busy (w : worker) : bool :=
  match w with
  | SList _ _ | SEmit _ _ _ => true
  | _ => false
  end.

Definition unstarted (fs : fsys) (root : path) (s : state) : list path :=
  match main s with
  | SMInit => files_under fs root
  | _ => []
  end.

Definition started (s : state) : Prop := main s ≠ SMInit.

(** The workers are gone: [workers.Wait()] has returned. *)
Definition finishing (s : state) : Prop :=
  main s = SMFinal ∨ main s = SMClosing ∨ main s = SMDone.

(** The final snapshot has been offered to the progress stream. *)
Definition after_final (s : state) : Prop :=
  main s = SMClosing ∨ main s = SMDone.

(** The directory queue and its wait group: the counter is the number of
    queued directories plus the number of workers inside one; the queue is
    closed when the counter is zero, and a worker leaves only then. *)
Record queue_inv (sc : Scanner) (s : state) : Prop := {
  q_pending :
    pending s
    = Z.of_nat (length (Chan.buf (dirCh s)) + length (filter is_busy (workers s)));
  q_closed : Chan.closed (dirCh s) = true → pending s = 0 ∧ started s;
  q_exit : SExit ∈ workers s → Chan.closed (dirCh s) = true;
  q_finishing : finishing s → Forall (λ w, w = SExit) (workers s);
  q_pool : started s → length (workers s) = concurrency sc;
  q_start :
    main s = SMInit →
    workers s = [] ∧ Chan.buf (dirCh s) = [] ∧ Chan.closed (dirCh s) = false
}.

(** Every file below the root is in exactly one place: not yet reached
    (below a queued directory or in the rest of a listing), counted, or given
    up. *)
Record account_inv (fs : fsys) (root : path) (s : state) : Prop := {
  acc_tree :
    files_under fs root ≡ₚ
      unstarted fs root s ++ counted s
      ++ (Chan.buf (dirCh s) ≫= files_under fs)
      ++ (workers s ≫= w_todo fs) ++ skipped s;
  acc_start :
    main s = SMInit →
    workers s = [] ∧ Chan.buf (dirCh s) = [] ∧ counted s = [] ∧ skipped s = []
}.

(** Every counted file is on the file stream, held by a worker that waits
    for room on it, or was withheld after a cancellation; the error stream
    carries some of the errors raised, in their order. *)
Record stream_inv (s : state) : Prop := {
  str_counted :
    counted s ≡ₚ (Path <$> emitted_files s) ++ (workers s ≫= w_emitting) ++ unsent s;
  str_unsent : canceled s = false → unsent s = [];
  str_errors : emitted_errors s `sublist_of` raised s
}.

(** The directories that the scan meets are directories of the tree below
    the root, and the entries of a listing are entries of the tree. *)
Definition dir_in_scope (fs : fsys) (root : path) (d : path) : Prop :=
  root `prefix_of` d ∧ ∃ b, fs !! d = Some (Folder b).

Definition worker_in_scope (fs : fsys) (root : path) (w : worker) : Prop :=
  match w with
  | SList d es | SEmit d es _ =>
      root `prefix_of` d ∧ ∀ e : DirEntry, e ∈ es → e ∈ entries_of fs d
  | _ => True
  end.

Record clean_inv (fs : fsys) (root : path) (s : state) : Prop := {
  cl_queue : Forall (dir_in_scope fs root) (Chan.buf (dirCh s));
  cl_workers : Forall (worker_in_scope fs root) (workers s);
  cl_skipped : canceled s = false → skipped s = []
}.

(** ** Progress snapshots *)

(** The order of C9 on the three counters, and with the throughput. *)
Definition le3 (p q : Progress) : Prop :=
  TotalFiles p <= TotalFiles q ∧ TotalSize p <= TotalSize q
  ∧ ElapsedTime p <= ElapsedTime q.


Definition monotone (R : Progress → Progress → Prop) (l : list Progress) : Prop :=
  ∀ i p q, l !! i = Some p → l !! S i = Some q → R p q.

Definition bytes_of (fs : fsys) (l : list path) : Z :=
  foldr (λ p acc, size_at fs p + acc) 0 l.

(** The counters of a whole scan fit in an [int64]. *)
Definition fits_int64 (fs : fsys) (root : path) : Prop :=
  Z.of_nat (length (files_under fs root)) < 2 ^ 63
  ∧ bytes_of fs (files_under fs root) < 2 ^ 63.

Record progress_inv (sc : Scanner) (fs : fsys) (s : state) : Prop := {
  pr_files : totalFiles s = Z.of_nat (length (counted s));
  pr_size : totalSize s = if collectSize sc then bytes_of fs (counted s) else 0;
  pr_now : 0 <= now s;
  pr_sorted : StronglySorted le3 (ticks s ++ [snapshot s]);
  pr_stream : ¬ after_final s → (snapshots s ++ in_hand s) `sublist_of` ticks s;
  pr_after :
    after_final s → stale s = false →
    StronglySorted le3 ((snapshots s ++ in_hand s) ++ [snapshot s]);
  pr_off : main s = SMInit → ticks s = [] ∧ mon s = MonOff
}.

(** ** What each send does *)

(** A worker that holds a counted file and finds the cancellation flag unset
    sends it when the file stream has room and waits otherwise. *)
Definition file_send_waits (sc : Scanner) (fs : fsys) (nostat : gset path)
    (root : path) (s : state) : Prop :=
  ∀ i d es fi,
    workers s !! i = Some (SEmit d es fi) → canceled s = false →
    exec sc fs nostat root (LWorker i) s
    = if Chan.has_room (filesCh s)
      then Some (set_worker i (SList d es) (with_filesCh (Chan.push fi (filesCh s)) s))
      else None.

(** A worker that takes a directory it cannot list goes on to the next
    directory whether or not the error stream has room; the error is on the
    stream afterwards exactly when there was room. *)
Definition listing_error_does_not_wait (sc : Scanner) (fs : fsys) (nostat : gset path)
    (root : path)
    (s : state) : Prop :=
  ∀ i d ch,
    workers s !! i = Some SIdle → Chan.recv (dirCh s) = Some (d, ch) →
    canceled s = false → ReadDir fs d = None →
    ∃ s', exec sc fs nostat root (LWorker i) s = Some s'
          ∧ workers s' !! i = Some SIdle
          ∧ raised s' = raised s ++ [ErrReadDir d]
          ∧ emitted_errors s'
            = if Chan.has_room (errCh s)
              then emitted_errors s ++ [ErrReadDir d]
              else emitted_errors s.

(** The monitor and the final snapshot: the snapshot is on the stream
    afterwards exactly when there was room. *)
Definition snapshot_does_not_wait (sc : Scanner) (fs : fsys) (nostat : gset path)
    (root : path)
    (s : state) : Prop :=
  (∀ p, mon s = MonReady p → Chan.closed (progressCh s) = false →
        ∃ s', exec sc fs nostat root LMonSend s = Some s'
              ∧ snapshots s'
                = if Chan.has_room (progressCh s)
                  then snapshots s ++ [p] else snapshots s)
  ∧ (main s = SMFinal →
     ∃ s', exec sc fs nostat root LMain s = Some s'
           ∧ snapshots s'
             = if Chan.has_room (progressCh s)
               then snapshots s ++ [snapshot s] else snapshots s).

(** ** The claims as the specification words them *)

(** C3: a scan that completes without cancellation emits as many records as
    the tree has regular files. *)
Definition every_file_emitted (sc : Scanner) (fs : fsys) (links nostat : gset path)
    (root : path) : Prop :=
  ∀ s, reachable sc fs nostat root s → main s = SMDone → canceled s = false →
       length (emitted_files s) = length (regular_files fs links root).

(** C7: every listing failure is reported on the error stream. *)
Definition every_failure_reported (sc : Scanner) (fs : fsys) (nostat : gset path)
    (root : path) : Prop :=
  ∀ s d, reachable sc fs nostat root s → ErrReadDir d ∈ raised s →
         ErrReadDir d ∈ emitted_errors s.


(** ** What the streams carry *)

(** A record as a worker builds it: the path is an entry of the directory
    the worker is in and not a directory; when sizes are collected,
    [os.Lstat] has succeeded on it and the size is the size it has reported,
    otherwise the size is zero. *)
Definition record_ok (sc : Scanner) (fs : fsys) (nostat : gset path) (root : path)
    (fi : FileInfo) : Prop :=
  root `prefix_of` Dir fi
  ∧ (∃ name content, Path fi = Dir fi ++ [name] ∧ fs !! Path fi = Some (File content))
  ∧ (if collectSize sc
     then (Path fi ∉ nostat) ∧ Size fi = size_at fs (Path fi)
     else Size fi = 0).

Definition held_ok (sc : Scanner) (fs : fsys) (nostat : gset path) (root : path)
    (w : worker) : Prop :=
  worker_in_scope fs root w
  ∧ ∀ d es fi, w = SEmit d es fi → d = Dir fi ∧ record_ok sc fs nostat root fi.

(** An error that a scan runs into: the listing of a directory at or below
    the root has failed, or, when sizes are collected, [os.Lstat] has failed
    on an entry below the root that is not a directory. *)
Definition error_ok (sc : Scanner) (fs : fsys) (nostat : gset path) (root : path)
    (e : scan_error) : Prop :=
  match e with
  | ErrReadDir d => root `prefix_of` d ∧ ReadDir fs d = None
  | ErrLstat p =>
      collectSize sc = true ∧ root `prefix_of` p
      ∧ (∃ content, fs !! p = Some (File content)) ∧ p ∈ nostat
  end.

(** [os.Lstat] fails on no entry that a scan asks it about: sizes are not
    collected, or every entry below the root that is not a directory can be
    stat'ed. *)
Definition statable (sc : Scanner) (fs : fsys) (nostat : gset path) (root : path) : Prop :=
  collectSize sc = true → ∀ p, p ∈ files_under fs root → p ∉ nostat.

Record report_inv (sc : Scanner) (fs : fsys) (nostat : gset path) (root : path)
    (s : state) : Prop := {
  rep_records : Forall (record_ok sc fs nostat root) (emitted_files s);
  rep_workers : Forall (held_ok sc fs nostat root) (workers s);
  rep_queue : Forall (λ d, root `prefix_of` d) (Chan.buf (dirCh s));
  rep_errors : Forall (error_ok sc fs nostat root) (raised s);
  rep_room :
    Chan.cap (errCh s) = errBuf sc ∧ (length (Chan.buf (errCh s)) ≤ errBuf sc)%nat
}.

(** The sizes that the records of a list carry, added up. *)
Definition sizes_of (l : list FileInfo) : Z :=
  foldr (λ fi acc, Size fi + acc) 0 l.

(** ** A listing wider than the directory queue *)

Definition is_dir (e : DirEntry) : bool := e.2.

(** A scan by one worker, as long as it has not been cancelled: the worker
    has not taken the root yet, or it is inside the listing [entries] of the
    root, with the subdirectories it has passed in the queue. *)
Definition stuck_inv (sc : Scanner) (root : path) (entries : list DirEntry)
    (s : state) : Prop :=
  Chan.closed (filesCh s) = false
  ∧ (main s = SMInit
     ∨ main s = SMWait
       ∧ Chan.cap (dirCh s) = dirBuf sc
       ∧ ((workers s = [SIdle] ∧ Chan.buf (dirCh s) = [root])
          ∨ ∃ es,
              (workers s = [SList root es] ∨ ∃ fi, workers s = [SEmit root es fi])
              ∧ (length (Chan.buf (dirCh s)) ≤ dirBuf sc)%nat
              ∧ (length (filter is_dir es) + length (Chan.buf (dirCh s))
                 = length (filter is_dir entries))%nat)).

(** ** The monitor at the end of a scan *)

(** Until [done] is closed the monitor is running. *)
Definition monitor_on (s : state) : Prop :=
  (main s = SMInit → done_closed s = false)
  ∧ (main s = SMWait →
     done_closed s = false ∧ (mon s = MonIdle ∨ ∃ p, mon s = MonReady p)).

(** ** Small trees and scans of them *)

Definition one_worker : Env :=
  {| SCANNER_PROGRESS_BUF := None; SCANNER_FILES_BUF := None;
     SCANNER_ERR_BUF := None; SCANNER_CONCURRENCY := Some 1;
     SCANNER_TICK_MS := None; SCANNER_DIRBUF := None;
     SCANNER_COLLECT_SIZE := Some true |}.

Definition small_scanner : Scanner := NewScanner one_worker 4.

Definition data_root : path := [""; "data"].

(** [/data] with a file and a directory that holds one more file. *)
Definition open_fs : fsys :=
  <[ [""] := Folder true ]> (
  <[ [""; "data"] := Folder true ]> (
  <[ [""; "data"; "readme"] := File [x01] ]> (
  <[ [""; "data"; "private"] := Folder true ]> (
  <[ [""; "data"; "private"; "key"] := File [x02; x03] ]> ∅)))).

(** The same tree, but [/data/private] cannot be listed. *)
Definition locked_fs : fsys := <[ [""; "data"; "private"] := Folder false ]> open_fs.

(** [/data/private/key] is a symbolic link. *)
Definition linked : gset path := {[ [""; "data"; "private"; "key"] ]}.

(** [os.Lstat] fails on [/data/readme]. *)
Definition unstatable : gset path := {[ [""; "data"; "readme"] ]}.

(** The scan of the locked tree when [readme] cannot be stat'ed: the root,
    where [readme] is given up, then [private], which cannot be listed. *)
Definition guarded_schedule : list label :=
  [ LMain; LWorker 0; LWorker 0; LWorker 0; LWorker 0; LWorker 0;
    LCloser; LWorker 0; LMain; LMonStop; LMain; LMain ]%nat.

(** A complete scan by one worker: the root, then [private]. *)
Definition open_schedule : list label :=
  [ LMain; LWorker 0; LWorker 0; LWorker 0; LWorker 0; LWorker 0;
    LWorker 0; LWorker 0; LWorker 0; LWorker 0;
    LCloser; LWorker 0; LMain; LMonStop; LMain; LMain ]%nat.

Definition locked_schedule : list label :=
  [ LMain; LWorker 0; LWorker 0; LWorker 0; LWorker 0; LWorker 0;
    LWorker 0; LCloser; LWorker 0; LMain; LMonStop; LMain; LMain ]%nat.


(** [/data] with 101 directories that cannot be listed, scanned with the
    default settings by a consumer that reads nothing before the scan is
    over. *)
Definition crowded_fs : fsys :=
  foldr (λ n fs, <[ [""; "data"; pretty n] := Folder false ]> fs)
    (<[ [""] := Folder true ]> (<[ [""; "data"] := Folder true ]> ∅))
    (seq 0 101).

Definition default_scanner : Scanner := NewScanner no_env 2.

Definition crowded_schedule : list label :=
  [LMain; LWorker 0] ++ replicate 101 (LWorker 0) ++ [LWorker 0]
  ++ replicate 101 (LWorker 0)
  ++ [LCloser] ++ (LWorker <$> seq 0 8) ++ [LMain; LMonStop; LMain; LMain].

(** [/data] with two subdirectories, scanned by one worker with a directory
    queue of one slot. *)
Definition narrow_queue : Env :=
  {| SCANNER_PROGRESS_BUF := None; SCANNER_FILES_BUF := None;
     SCANNER_ERR_BUF := None; SCANNER_CONCURRENCY := Some 1;
     SCANNER_TICK_MS := None; SCANNER_DIRBUF := Some 1;
     SCANNER_COLLECT_SIZE := None |}.

Definition narrow_scanner : Scanner := NewScanner narrow_queue 4.

Definition wide_fs : fsys :=
  <[ [""] := Folder true ]> (
  <[ [""; "data"] := Folder true ]> (
  <[ [""; "data"; "a"] := Folder true ]> (
  <[ [""; "data"; "b"] := Folder true ]> ∅))).

(** The worker takes the root and queues the first subdirectory. *)
Definition wide_schedule : list label := [LMain; LWorker 0; LWorker 0]%nat.

End Scanner.

(** ** The command line: [main.go] *)

Module CopyManager.
Import Copier.








End CopyManager.

(** * Proofs *)

(** ** Machine integers *)

Lemma wrap64_small z : in_int64 z → wrap64 z = z.
Proof.
  unfold in_int64, wrap64. intros H.
  rewrite Z.mod_small; lia.
Qed.

Lemma add64_small x y : in_int64 (x + y) → add64 x y = x + y.
Proof. apply wrap64_small. Qed.

(** ** The file system *)

Section FsFacts.
Implicit Types (fs : fsys) (p q d : path).

Lemma rel_go_app (base r : list string) : rel_go base (base ++ r) = (O, r).
Proof.
  induction base as [|b base IH]; simpl.
  - by destruct r.
  - by rewrite decide_True.
Qed.

Lemma Rel_under (base r : list string) : base ≠ [] → Rel base (base ++ r) = Some (O, r).
Proof.
  destruct base as [|v base]; [done|]. intros _. simpl.
  by rewrite decide_True, rel_go_app.
Qed.

Lemma Join_zero (dir r : list string) : Join dir (O, r) = dir ++ r.
Proof.
  destruct dir as [|v comps]; simpl; [done|].
  by rewrite Nat.sub_0_r, firstn_all.
Qed.

Lemma adds_dirs_refl P fs : adds_dirs P fs fs.
Proof. intros p. by left. Qed.

Lemma adds_dirs_trans P fs1 fs2 fs3 :
  adds_dirs P fs1 fs2 → adds_dirs P fs2 fs3 → adds_dirs P fs1 fs3.
Proof.
  intros H12 H23 p. destruct (H12 p) as [E1|(N1 & D1 & HP)], (H23 p) as [E2|(N2 & D2 & HP')].
  - left. congruence.
  - right. rewrite <- E1. done.
  - right. rewrite E2. done.
  - congruence.
Qed.

Lemma adds_dirs_weaken (P Q : path → Prop) fs fs' :
  (∀ p, P p → Q p) → adds_dirs P fs fs' → adds_dirs Q fs fs'.
Proof. intros HPQ H p. destruct (H p) as [?|(?&?&?)]; [by left|right; eauto]. Qed.

Lemma mkdir_from_spec rest : ∀ fs pre fs',
  mkdir_from fs pre rest = Some fs' →
  adds_dirs (λ p, p `prefix_of` pre ++ rest) fs fs'.
Proof.
  induction rest as [|x rest IH]; intros fs pre fs' H; simpl in H.
  - simplify_eq. apply adds_dirs_refl.
  - assert (Hw : ∀ p, p `prefix_of` (pre ++ [x]) ++ rest → p `prefix_of` pre ++ x :: rest).
    { intros p. by rewrite <- app_assoc. }
    destruct (fs !! (pre ++ [x])) as [[?|?]|] eqn:E; [done| |].
    + eapply adds_dirs_weaken; [exact Hw|]. by apply IH.
    + eapply adds_dirs_trans; [|eapply adds_dirs_weaken; [exact Hw|by apply IH]].
      intros p. destruct (decide (p = pre ++ [x])) as [->|Hne].
      * right. rewrite lookup_insert_eq. split_and!; [done..|].
        exists rest. by rewrite <- app_assoc.
      * left. by rewrite lookup_insert_ne.
Qed.

Lemma MkdirAll_spec fs d fs' :
  MkdirAll fs d = Some fs' → adds_dirs (λ p, p `prefix_of` d) fs fs'.
Proof.
  unfold MkdirAll. destruct d as [|v rest]; [done|].
  destruct (fs !! [v]) as [[?|?]|]; try done.
  apply (mkdir_from_spec rest fs [v]).
Qed.

(** After a successful [MkdirAll] the directory is there. *)
Lemma mkdir_from_dir rest : ∀ fs pre fs',
  (∃ b, fs !! pre = Some (Folder b)) →
  mkdir_from fs pre rest = Some fs' → ∃ b, fs' !! (pre ++ rest) = Some (Folder b).
Proof.
  induction rest as [|x rest IH]; intros fs pre fs' Hpre H; simpl in H.
  - simplify_eq. by rewrite app_nil_r.
  - replace (pre ++ x :: rest) with ((pre ++ [x]) ++ rest) by by rewrite <- app_assoc.
    destruct (fs !! (pre ++ [x])) as [[?|?]|] eqn:E; [done| |].
    + eapply IH; [|done]. eauto.
    + eapply IH; [|done]. rewrite lookup_insert_eq. eauto.
Qed.

Lemma MkdirAll_dir fs d fs' :
  MkdirAll fs d = Some fs' → ∃ b, fs' !! d = Some (Folder b).
Proof.
  unfold MkdirAll. destruct d as [|v rest]; [done|].
  destruct (fs !! [v]) as [[?|b]|] eqn:E; try done.
  intros H. apply (mkdir_from_dir rest fs [v]); eauto.
Qed.

Lemma Create_spec fs p fs' :
  Create fs p = Some fs' →
  fs' = <[p := File []]> fs ∧ ∀ b, fs !! p ≠ Some (Folder b).
Proof.
  unfold Create. destruct (fs !! parent p) as [[?|?]|]; try done.
  destruct (fs !! p) as [[?|?]|]; try done; intros [= <-]; done.
Qed.

(** A property kept by the callback is kept by the walk. *)
Lemma WalkDir_preserves (P : fsys → Prop) (fn : fsys → path → bool → fsys) root :
  (∀ fs p isdir, root `prefix_of` p → P fs → P (fn fs p isdir)) →
  ∀ depth fs p isdir, root `prefix_of` p → P fs → P (WalkDir depth fn fs p isdir).
Proof.
  intros Hfn. induction depth as [|k IH]; intros fs p isdir Hp HP; simpl; [done|].
  assert (P (fn fs p isdir)) as H1 by eauto.
  destruct isdir; [|done].
  destruct (ReadDir (fn fs p true) p) as [es|]; [|done].
  revert H1. generalize (fn fs p true). induction es as [|e es IHes]; intros acc Hacc.
  - done.
  - simpl. apply IHes. apply IH; [|done].
    etrans; [exact Hp|]. by exists [e.1].
Qed.

End FsFacts.

(** ** The files of a tree and the listings of its directories *)

Section TreeFacts.
Implicit Types (fs : fsys) (p q d : path).

Lemma NoDup_omap_inj {A B} (f : A → option B) (l : list A) :
  (∀ x y z, x ∈ l → y ∈ l → f x = Some z → f y = Some z → x = y) →
  NoDup l → NoDup (omap f l).
Proof.
  induction l as [|a l IH]; intros Hinj Hnd; simpl; [constructor|].
  apply NoDup_cons in Hnd as [Ha Hnd].
  assert (NoDup (omap f l)) as IH'.
  { apply IH; [|done]. intros x y z Hx Hy. apply Hinj; by apply list_elem_of_further. }
  destruct (f a) as [b|] eqn:Hfa; [|done].
  apply NoDup_cons. split; [|done].
  intros Hb. apply list_elem_of_omap in Hb as (x & Hx & Hfx).
  assert (a = x) as ->; [|done].
  eapply Hinj; [apply list_elem_of_here|by apply list_elem_of_further|done..].
Qed.

Lemma is_child_Some d p name : is_child d p = Some name ↔ p = d ++ [name].
Proof.
  unfold is_child. split.
  - destruct (list.last p) as [x|]; [|done]. case_decide; [|done]. by intros [= <-].
  - intros ->. rewrite last_snoc. by rewrite decide_True.
Qed.

Lemma elem_of_entries_of fs d name b :
  (name, b) ∈ entries_of fs d ↔ ∃ n, fs !! (d ++ [name]) = Some n ∧ b = is_folder n.
Proof.
  unfold entries_of. rewrite list_elem_of_omap. split.
  - intros ([p n] & Hin & Hf). apply elem_of_map_to_list in Hin.
    destruct (is_child d p) as [x|] eqn:Hc; [|done].
    apply is_child_Some in Hc as ->. injection Hf as <- <-.
    exists n. split; [done|]. by destruct n.
  - intros (n & Hn & ->). exists (d ++ [name], n). split.
    + by apply elem_of_map_to_list.
    + assert (is_child d (d ++ [name]) = Some name) as -> by by apply is_child_Some.
      by destruct n.
Qed.

Lemma NoDup_entries_of fs d : NoDup (entries_of fs d).
Proof.
  apply NoDup_omap_inj; [|apply NoDup_map_to_list].
  intros [p n] [p' n'] [name b] Hin Hin' Hf Hf'.
  apply elem_of_map_to_list in Hin, Hin'.
  destruct (is_child d p) as [x|] eqn:Hc; [|done].
  destruct (is_child d p') as [x'|] eqn:Hc'; [|done].
  apply is_child_Some in Hc as ->. apply is_child_Some in Hc' as ->.
  assert (x = name) as -> by congruence. assert (x' = name) as -> by congruence.
  congruence.
Qed.

Lemma files_under_spec fs d p :
  p ∈ files_under fs d ↔ d `prefix_of` p ∧ ∃ c, fs !! p = Some (File c).
Proof.
  unfold files_under. rewrite list_elem_of_filter, list_elem_of_fmap.
  unfold is_file_at. split.
  - intros [[Hpre Hf] _]. split; [done|].
    destruct (fs !! p) as [[c|?]|]; try done. by exists c.
  - intros [Hpre [c Hc]]. split; [by rewrite Hc|].
    exists (p, File c). split; [done|]. by apply elem_of_map_to_list.
Qed.

Lemma NoDup_files_under fs d : NoDup (files_under fs d).
Proof. apply NoDup_filter, NoDup_fst_map_to_list. Qed.

(** In a closed tree every non-empty proper prefix of an entry is a
    directory. *)
Lemma tree_closed_prefix fs q rest n :
  tree_closed fs → q ≠ [] → rest ≠ [] → fs !! (q ++ rest) = Some n →
  ∃ b, fs !! q = Some (Folder b).
Proof.
  intros Hcl Hq. revert n. induction rest as [|x rest IH] using rev_ind; [done|].
  intros n _ Hn. rewrite app_assoc in Hn.
  destruct (decide (rest = [])) as [->|Hne].
  - rewrite app_nil_r in Hn. by eapply Hcl.
  - destruct (Hcl (q ++ rest) x n) as [b Hb]; [by destruct q|done|].
    by eapply IH.
Qed.

Lemma expand_spec fs d (es : list DirEntry) p :
  p ∈ expand fs d es ↔
  ∃ (name : string) (b : bool), (name, b) ∈ es ∧
    if b return Prop then p ∈ files_under fs (d ++ [name]) else p = d ++ [name].
Proof.
  unfold expand. rewrite list_elem_of_bind. split.
  - intros ([name b] & Hp & Hin). exists name, b. split; [done|].
    simpl in Hp. destruct b; [done|]. by apply list_elem_of_singleton in Hp.
  - intros (name & b & Hin & Hp). exists (name, b). split; [|done].
    simpl. destruct b; [done|]. by apply list_elem_of_singleton.
Qed.

Lemma expand_cons fs d e es :
  expand fs d (e :: es)
  = (if e.2 then files_under fs (d ++ [e.1]) else [d ++ [e.1]]) ++ expand fs d es.
Proof. done. Qed.

Lemma prefix_snoc_inv d name name' p :
  d ++ [name] `prefix_of` p → d ++ [name'] `prefix_of` p → name = name'.
Proof.
  intros [k ->] [k' Hk]. rewrite <- !app_assoc in Hk.
  apply app_inv_head in Hk. by injection Hk.
Qed.

(** Listing a directory accounts for every file below it. *)
Lemma files_under_listing fs d b :
  tree_closed fs → fs !! d = Some (Folder b) →
  files_under fs d ≡ₚ expand fs d (entries_of fs d).
Proof.
  intros Hcl Hd. apply NoDup_Permutation.
  - apply NoDup_files_under.
  - apply NoDup_bind; [| |apply NoDup_entries_of].
    + intros [n1 b1] [n2 b2] y H1 H2 Hy1 Hy2. simpl in *.
      assert (n1 = n2) as ->.
      { apply (prefix_snoc_inv d n1 n2 y).
        - destruct b1; [by apply files_under_spec in Hy1 as [? _]|].
          apply list_elem_of_singleton in Hy1 as ->. done.
        - destruct b2; [by apply files_under_spec in Hy2 as [? _]|].
          apply list_elem_of_singleton in Hy2 as ->. done. }
      apply elem_of_entries_of in H1 as (m1 & Hm1 & ->).
      apply elem_of_entries_of in H2 as (m2 & Hm2 & ->). congruence.
    + intros [n1 b1] _. simpl. destruct b1; [apply NoDup_files_under|].
      apply NoDup_singleton.
  - intros p. rewrite files_under_spec, expand_spec. split.
    + intros [[k ->] [c Hc]]. destruct k as [|name k].
      { rewrite app_nil_r in Hc. congruence. }
      destruct (decide (k = [])) as [->|Hk].
      * exists name, false. split; [|done].
        apply elem_of_entries_of. by exists (File c).
      * replace (d ++ name :: k) with ((d ++ [name]) ++ k) in *
          by by rewrite <- app_assoc.
        destruct (tree_closed_prefix fs (d ++ [name]) k (File c)) as [b' Hb'];
          [done|by destruct d|done..|].
        exists name, true. split.
        -- apply elem_of_entries_of. by exists (Folder b').
        -- apply files_under_spec. split; [by apply prefix_app_r|by exists c].
    + intros (name & b' & Hin & Hp).
      apply elem_of_entries_of in Hin as (n & Hn & ->).
      destruct n as [c|b'']; simpl in Hp.
      * subst p. split; [by apply prefix_app_r|by exists c].
      * apply files_under_spec in Hp as [Hpre Hc]. split; [|done].
        etrans; [|done]. by apply prefix_app_r.
Qed.

Lemma tree_closedb_sound fs : tree_closedb fs = true → tree_closed fs.
Proof.
  unfold tree_closedb. rewrite forallb_forall. intros H p name n Hp Hn.
  assert (In (p ++ [name]) (map_to_list fs).*1) as Hin.
  { apply list_elem_of_In, list_elem_of_fmap. exists (p ++ [name], n).
    split; [done|]. by apply elem_of_map_to_list. }
  apply H in Hin. rewrite removelast_last in Hin.
  destruct p as [|x [|y p]]; [done|..]; simpl in Hin;
    match type of Hin with
    | context [fs !! ?q] => destruct (fs !! q) as [[?|?]|]
    end; try done; by eexists.
Qed.

Lemma ReadDir_Some fs d es :
  ReadDir fs d = Some es → fs !! d = Some (Folder true) ∧ es = entries_of fs d.
Proof.
  unfold ReadDir. destruct (fs !! d) as [[?|[]]|]; try done. by intros [= <-].
Qed.

Lemma ReadDir_listing fs d es :
  tree_closed fs → ReadDir fs d = Some es → files_under fs d ≡ₚ expand fs d es.
Proof.
  intros Hcl [Hd ->]%ReadDir_Some. by eapply files_under_listing.
Qed.

Lemma listable_belowb_sound fs root :
  listable_belowb fs root = true → listable_below fs root.
Proof.
  unfold listable_belowb, listable_below. intros [Hr Hall]%andb_prop. split.
  - destruct (fs !! root) as [[?|b]|]; try done. by exists b.
  - intros d Hpre Hd. rewrite forallb_forall in Hall.
    specialize (Hall (d, Folder false)). simpl in Hall.
    rewrite bool_decide_eq_true_2 in Hall by done.
    cut (false = true); [done|]. apply Hall.
    by apply list_elem_of_In, elem_of_map_to_list.
Qed.

End TreeFacts.

(** ** Channels and worker pools *)

Lemma recv_Some {A} (ch : Chan.chan A) x ch' :
  Chan.recv ch = Some (x, ch') →
  Chan.buf ch = x :: Chan.buf ch' ∧ Chan.cap ch' = Chan.cap ch
  ∧ Chan.closed ch' = Chan.closed ch.
Proof.
  unfold Chan.recv. destruct (Chan.buf ch) eqn:E; [done|].
  intros [= <- <-]. done.
Qed.

Lemma recv_None {A} (ch : Chan.chan A) : Chan.recv ch = None → Chan.buf ch = [].
Proof. unfold Chan.recv. by destruct (Chan.buf ch). Qed.

Lemma insert_split {A} (l : list A) i x y :
  l !! i = Some x → ∃ l1 l2, l = l1 ++ x :: l2 ∧ <[i := y]> l = l1 ++ y :: l2.
Proof.
  intros Hi. exists (take i l), (drop (S i) l). split.
  - by rewrite take_drop_middle.
  - apply insert_take_drop. by eapply lookup_lt_Some.
Qed.

Lemma bind_insert_perm {A B} (f : A → list B) (l : list A) i x y :
  l !! i = Some x → (<[i := y]> l ≫= f) ++ f x ≡ₚ (l ≫= f) ++ f y.
Proof.
  intros Hi. destruct (insert_split l i x y Hi) as (l1 & l2 & -> & ->).
  rewrite !bind_app, !bind_cons. solve_Permutation.
Qed.

Lemma bind_replicate_nil {A B} (f : A → list B) n x :
  f x = [] → replicate n x ≫= f = [].
Proof.
  intros Hf. induction n as [|n IH]; [done|].
  change (replicate (S n) x) with (x :: replicate n x).
  by rewrite bind_cons, Hf, IH.
Qed.

(** [select { case c <- x: default: }] on a channel. *)
Lemma try_send_buf {A} (x : A) (c : Chan.chan A) :
  Chan.buf (Chan.try_send x c)
  = if Chan.has_room c then Chan.buf c ++ [x] else Chan.buf c.
Proof. unfold Chan.try_send. by destruct (Chan.has_room c). Qed.

Lemma try_send_closed {A} (x : A) (c : Chan.chan A) :
  Chan.closed (Chan.try_send x c) = Chan.closed c.
Proof. unfold Chan.try_send. by destruct (Chan.has_room c). Qed.

Lemma try_send_sublist {A} (x : A) (c : Chan.chan A) (out raised : list A) :
  out ++ Chan.buf c `sublist_of` raised →
  out ++ Chan.buf (Chan.try_send x c) `sublist_of` raised ++ [x].
Proof.
  intros H. rewrite try_send_buf. destruct (Chan.has_room c).
  - rewrite app_assoc. by apply sublist_app.
  - by apply sublist_inserts_r.
Qed.

(** ** Runs of the copy engine: invariants *)

Module CopierProofs.
Import Copier.

(** Case analysis on a step. *)
Ltac exec_inv H :=
  unfold exec in H;
  match type of H with
  | (if ?b then _ else _) = _ => destruct b eqn:?; [discriminate|]
  end;
  match type of H with
  | match ?l with _ => _ end = _ => destruct l
  end;
  unfold step_main, step_worker, step_fault, step_tick, step_mon_send,
    step_mon_stop, step_recv_result, step_recv_progress in H;
  repeat match type of H with
         | context [match ?x with _ => _ end] => destruct x eqn:?
         end;
  simplify_eq;
  repeat match goal with
         | E : Chan.recv _ = Some _ |- _ => apply recv_Some in E as (E & ? & ?)
         | E : Chan.recv _ = None |- _ => apply recv_None in E
         end.

Ltac chan_eqs :=
  repeat match goal with
    | E : Chan.buf ?ch = _ |- context [Chan.buf ?ch] => rewrite E
    | E : Chan.buf ?ch = _, H : context [Chan.buf ?ch] |- _ =>
        tryif constr_eq H E then fail else rewrite E in H
    end.

Ltac unfold_state :=
  unfold emitted, snapshots, tosend, set_worker, Close, Chan.push, Chan.close,
    Chan.make in *; simpl in *; chan_eqs.

Ltac main_pc :=
  repeat match goal with E : main _ = _ |- _ => rewrite E in * end.

Section Invariants.
Variable c : Copier.
Variable files : list path.
Variable fs0 : fsys.

Lemma n_ok_app rs1 rs2 : n_ok (rs1 ++ rs2) = (n_ok rs1 + n_ok rs2)%nat.
Proof. unfold n_ok. by rewrite filter_app, length_app. Qed.

Lemma n_failed_app rs1 rs2 : n_failed (rs1 ++ rs2) = (n_failed rs1 + n_failed rs2)%nat.
Proof. unfold n_failed. by rewrite filter_app, length_app. Qed.

Lemma n_ok_failed rs : (n_ok rs + n_failed rs)%nat = length rs.
Proof.
  induction rs as [|r rs IH]; [done|].
  unfold n_ok, n_failed in *. rewrite !filter_cons.
  destruct (Success r); simpl; repeat case_decide; simpl; try done; lia.
Qed.

Lemma n_ok_perm rs1 rs2 : rs1 ≡ₚ rs2 → n_ok rs1 = n_ok rs2.
Proof. intros H. unfold n_ok. by rewrite H. Qed.

Lemma n_failed_perm rs1 rs2 : rs1 ≡ₚ rs2 → n_failed rs1 = n_failed rs2.
Proof. intros H. unfold n_failed. by rewrite H. Qed.

Lemma n_ok_insert (ws : list worker) i w w' :
  ws !! i = Some w →
  (n_ok (<[i := w']> ws ≫= w_counting) + n_ok (w_counting w)
   = n_ok (ws ≫= w_counting) + n_ok (w_counting w'))%nat.
Proof.
  intros Hi. rewrite <- !n_ok_app. apply n_ok_perm. by apply bind_insert_perm.
Qed.

Lemma n_failed_insert (ws : list worker) i w w' :
  ws !! i = Some w →
  (n_failed (<[i := w']> ws ≫= w_counting) + n_failed (w_counting w)
   = n_failed (ws ≫= w_counting) + n_failed (w_counting w'))%nat.
Proof.
  intros Hi. rewrite <- !n_failed_app. apply n_failed_perm. by apply bind_insert_perm.
Qed.

Lemma src_insert (ws : list worker) i w w' :
  ws !! i = Some w → w_src w' = w_src w → <[i := w']> ws ≫= w_src ≡ₚ ws ≫= w_src.
Proof.
  intros Hi Heq. apply (Permutation_app_inv_r (w_src w)).
  rewrite (bind_insert_perm w_src ws i w w' Hi). by rewrite Heq.
Qed.

Lemma src_insert_new (ws : list worker) i w w' :
  ws !! i = Some w → w_src w = [] →
  <[i := w']> ws ≫= w_src ≡ₚ (ws ≫= w_src) ++ w_src w'.
Proof.
  intros Hi Heq. rewrite <- (bind_insert_perm w_src ws i w w' Hi).
  by rewrite Heq, app_nil_r.
Qed.

Lemma src_insert_done (ws : list worker) i w w' :
  ws !! i = Some w → w_src w' = [] →
  ws ≫= w_src ≡ₚ (<[i := w']> ws ≫= w_src) ++ w_src w.
Proof.
  intros Hi Heq. rewrite (bind_insert_perm w_src ws i w w' Hi).
  by rewrite Heq, app_nil_r.
Qed.

Lemma counting_insert (ws : list worker) i w w' :
  ws !! i = Some w → w_counting w' = w_counting w →
  <[i := w']> ws ≫= w_counting ≡ₚ ws ≫= w_counting.
Proof.
  intros Hi Heq. apply (Permutation_app_inv_r (w_counting w)).
  rewrite (bind_insert_perm w_counting ws i w w' Hi). by rewrite Heq.
Qed.

Lemma copy_begin_src fs p : w_src (copy_begin c fs p).2 = [p].
Proof. unfold copy_begin. by repeat case_match. Qed.

Lemma copy_begin_counting fs p : w_counting (copy_begin c fs p).2 = [].
Proof. unfold copy_begin. by repeat case_match. Qed.

Lemma copy_chunk_src fs b src dst size off n :
  w_src (copy_chunk c fs b src dst size off n).2 = [src].
Proof. unfold copy_chunk. by repeat case_match. Qed.

Lemma copy_chunk_counting fs b src dst size off n :
  w_counting (copy_chunk c fs b src dst size off n).2 = [].
Proof. unfold copy_chunk. by repeat case_match. Qed.

#[local] Instance n_ok_proper : Proper ((≡ₚ) ==> (=)) n_ok.
Proof. intros ???. by apply n_ok_perm. Qed.

#[local] Instance n_failed_proper : Proper ((≡ₚ) ==> (=)) n_failed.
Proof. intros ???. by apply n_failed_perm. Qed.

Lemma n_ok_one r : n_ok [r] = if Success r then 1%nat else 0%nat.
Proof. unfold n_ok. rewrite filter_cons. by destruct (Success r). Qed.

Lemma n_failed_one r : n_failed [r] = if Success r then 0%nat else 1%nat.
Proof. unfold n_failed. rewrite filter_cons. by destruct (Success r). Qed.

Lemma queue_drop {A} (X B Q F : list A) p :
  X ++ (p :: B) ++ Q ⊆+ F → X ++ B ++ Q ⊆+ F.
Proof.
  intros H. etrans; [|exact H].
  apply submseteq_app; [done|]. simpl. by apply submseteq_cons.
Qed.

Lemma queue_take {A} (X B Q F : list A) p :
  X ++ (p :: B) ++ Q ⊆+ F → X ++ B ++ Q ++ [p] ⊆+ F.
Proof.
  intros H. etrans; [|exact H].
  apply Permutation_submseteq. solve_Permutation.
Qed.

Lemma queue_push {A} (l B Q F : list A) p :
  (p :: l) ++ B ++ Q ⊆+ F → l ++ (B ++ [p]) ++ Q ⊆+ F.
Proof.
  intros H. etrans; [|exact H].
  apply Permutation_submseteq. solve_Permutation.
Qed.

(** *** What the steps do to the file system *)

Lemma keeps_files_refl fs : keeps_files fs fs.
Proof. intros p content H. eauto. Qed.

Lemma keeps_files_trans fs1 fs2 fs3 :
  keeps_files fs1 fs2 → keeps_files fs2 fs3 → keeps_files fs1 fs3.
Proof. intros H12 H23 p content H. destruct (H12 _ _ H) as [c' H']. eauto. Qed.

Lemma adds_dirs_keeps_files P fs fs' : adds_dirs P fs fs' → keeps_files fs fs'.
Proof.
  intros H p content Hp. destruct (H p) as [E|(N & _)]; [|congruence].
  exists content. congruence.
Qed.

Lemma insert_file_keeps_files fs p content :
  (∀ b, fs !! p ≠ Some (Folder b)) → keeps_files fs (<[p := File content]> fs).
Proof.
  intros _ q cq Hq. destruct (decide (p = q)) as [->|Hne].
  - rewrite lookup_insert_eq. eauto.
  - rewrite lookup_insert_ne by done. eauto.
Qed.

Lemma ensure_fn_adds fs p isdir : adds_dirs (λ _, True) fs (ensure_fn c fs p isdir).
Proof.
  unfold ensure_fn. destruct isdir; [|apply adds_dirs_refl].
  destruct (Rel (sourceDir c) p) as [rel|]; [|apply adds_dirs_refl].
  match goal with |- context [MkdirAll fs ?d] => destruct (MkdirAll fs d) eqn:E end;
    simpl; [|apply adds_dirs_refl].
  eapply adds_dirs_weaken; [|by eapply MkdirAll_spec]. done.
Qed.

Lemma ensureAllDirectories_adds fs :
  adds_dirs (λ _, True) fs (ensureAllDirectories c fs).
Proof.
  unfold ensureAllDirectories.
  destruct (Stat fs (sourceDir c)) as [info|]; [|apply adds_dirs_refl].
  destruct (fi_isdir info); [|apply adds_dirs_refl].
  apply (WalkDir_preserves (adds_dirs (λ _, True) fs) (ensure_fn c) (sourceDir c));
    [|done|apply adds_dirs_refl].
  intros fs' p isdir _ H. eapply adds_dirs_trans; [exact H|apply ensure_fn_adds].
Qed.

(** The two outcomes of the part of [copySingleFile] before the loop. *)
Lemma copy_begin_cases fs f :
  ((copy_begin c fs f).1 = fs
   ∨ ∃ rel, Rel (sourceDir c) f = Some rel
            ∧ MkdirAll fs (parent (Join (targetDir c) rel)) = Some (copy_begin c fs f).1)
  ∧ (∃ e size, (copy_begin c fs f).2 = WSend (failure f e size))
  ∨ ∃ rel fs1 info,
      Rel (sourceDir c) f = Some rel
      ∧ MkdirAll fs (parent (Join (targetDir c) rel)) = Some fs1
      ∧ Stat fs1 f = Some info
      ∧ Create fs1 (Join (targetDir c) rel) = Some (copy_begin c fs f).1
      ∧ (copy_begin c fs f).2 = WCopy f (Join (targetDir c) rel) (fi_size info) 0.
Proof.
  unfold copy_begin.
  destruct (Rel (sourceDir c) f) as [rel|] eqn:Hrel; [|left; eauto].
  destruct (MkdirAll fs _) as [fs1|] eqn:Hmk; [|left; eauto].
  destruct (Stat fs1 f) as [info|] eqn:Hst; [|left; split; eauto].
  destruct (fs1 !! f) eqn:Hf; [|left; split; eauto].
  destruct (Create fs1 _) as [fs2|] eqn:Hcr; [|left; split; eauto].
  right. exists rel, fs1, info. done.
Qed.

Lemma copy_begin_keeps_files fs f : keeps_files fs (copy_begin c fs f).1.
Proof.
  destruct (copy_begin_cases fs f)
    as [[[-> | (rel & _ & Hmk)] _] | (rel & fs1 & info & _ & Hmk & _ & Hcr & _)].
  - apply keeps_files_refl.
  - eapply adds_dirs_keeps_files, MkdirAll_spec, Hmk.
  - eapply keeps_files_trans; [eapply adds_dirs_keeps_files, MkdirAll_spec, Hmk|].
    apply Create_spec in Hcr as [-> Hnd]. by apply insert_file_keeps_files.
Qed.

(** The outcomes of one iteration of the loop. *)
Lemma copy_chunk_cases fs b src dst size off n :
  (copy_chunk c fs b src dst size off n).1 = fs
  ∧ (∃ r, (copy_chunk c fs b src dst size off n).2 = WSend r ∧ FilePath r = src
          ∧ (Success r = true →
             b = false ∧ ∃ content, fs !! src = Some (File content)
               ∧ take (Z.to_nat (Z.min (Z.of_nat n) (bufSize c))) (drop off content) = []))
  ∨ b = false
    ∧ ∃ content old data,
        fs !! src = Some (File content) ∧ fs !! dst = Some (File old)
        ∧ data = take (Z.to_nat (Z.min (Z.of_nat n) (bufSize c))) (drop off content)
        ∧ data ≠ []
        ∧ (copy_chunk c fs b src dst size off n).1
          = <[dst := File (write_at old off data)]> fs
        ∧ (copy_chunk c fs b src dst size off n).2
          = WCopy src dst size (off + length data).
Proof.
  unfold copy_chunk. destruct b; [left; split; eauto|].
  { eexists. split; [done|]. split; [done|]. done. }
  destruct (fs !! src) as [[content|?]|] eqn:Hs.
  2,3: left; split; [done|]; eexists; split; [done|]; split; done.
  destruct (take _ (drop off content)) as [|x data] eqn:Hd.
  { left. split; [done|]. eexists. split; [done|]. split; [done|].
    intros _. split; [done|]. eauto. }
  destruct (fs !! dst) as [[old|?]|] eqn:Ht.
  2,3: left; split; [done|]; eexists; split; [done|]; split; done.
  right. split; [done|]. exists content, old, (x :: data). by rewrite Hd.
Qed.

Lemma copy_chunk_keeps_files fs b src dst size off n :
  keeps_files fs (copy_chunk c fs b src dst size off n).1.
Proof.
  destruct (copy_chunk_cases fs b src dst size off n)
    as [[-> _] | (_ & content & old & data & _ & Hd & _ & _ & -> & _)].
  - apply keeps_files_refl.
  - apply insert_file_keeps_files. intros b0. congruence.
Qed.

Lemma step_keeps_files s l s' :
  exec c files l s = Some s' → keeps_files (fs s) (fs s').
Proof.
  intros H. exec_inv H; unfold_state.
  all: eauto using keeps_files_refl, copy_begin_keeps_files, copy_chunk_keeps_files.
  eapply adds_dirs_keeps_files, ensureAllDirectories_adds.
Qed.

Lemma run_keeps_files sched : ∀ s s',
  run c files sched s = Some s' → keeps_files (fs s) (fs s').
Proof.
  induction sched as [|l sched IH]; intros s s' H; simpl in H.
  - simplify_eq. apply keeps_files_refl.
  - destruct (exec c files l s) as [s1|] eqn:E; [|done].
    eapply keeps_files_trans; [by eapply step_keeps_files|by apply IH].
Qed.

Lemma dst_on_disk_step s l s' :
  dst_on_disk s → exec c files l s = Some s' → dst_on_disk s'.
Proof.
  intros Hinv H. pose proof (step_keeps_files s l s' H) as Hk.
  assert (Hold : ∀ i src dst size off,
             workers s !! i = Some (WCopy src dst size off) →
             ∃ content, fs s' !! dst = Some (File content)).
  { intros i src dst size off Hw. destruct (Hinv _ _ _ _ _ Hw) as [content Hc]. eauto. }
  clear Hk. intros j src dst size off Hj.
  exec_inv H; unfold_state.
  all: try (eapply Hold; exact Hj).
  all: try (by apply lookup_replicate in Hj as [? _]).
  all: try match type of Hj with
       | <[ ?i := _ ]> _ !! _ = _ =>
           destruct (decide (i = j)) as [->|Hne];
           [ rewrite list_lookup_insert_eq in Hj by (by eapply lookup_lt_Some)
           | rewrite list_lookup_insert_ne in Hj by done; eapply Hold; exact Hj ]
       end.
  all: try done.
  - match type of Hj with
    | Some (copy_begin _ ?f ?x).2 = _ =>
        destruct (copy_begin_cases f x)
          as [[_ (e & sz & Hw)] | (rel & fs1 & info & _ & _ & _ & Hcr & Hw)]
    end; rewrite Hw in Hj; [done|]. simplify_eq.
    apply Create_spec in Hcr as [-> _]. rewrite lookup_insert_eq. eauto.
  - match type of Hj with
    | Some (copy_chunk ?c ?f ?b ?s0 ?d0 ?z0 ?o0 ?n0).2 = _ =>
        destruct (copy_chunk_cases f b s0 d0 z0 o0 n0)
          as [[_ (r & Hw & _)] | (_ & content & old & data & _ & _ & _ & _ & Hfs & Hw)]
    end; rewrite Hw in Hj; [done|]. simplify_eq.
    rewrite Hfs, lookup_insert_eq. eauto.
Qed.

Lemma dst_on_disk_reachable s : reachable c files fs0 s → dst_on_disk s.
Proof.
  induction 1 as [|s l s' Hr IH Hstep]; [|by eapply dst_on_disk_step].
  intros i src dst size off Hw. done.
Qed.

(** *** Shutdown *)

Lemma shutdown_inv_init : shutdown_inv files (init fs0).
Proof. split; [intros _ [?|[?|?]]; done|done]. Qed.

Lemma forallb_is_exit ws : forallb is_exit ws = true → Forall (λ w, w = WExit) ws.
Proof.
  induction ws as [|w ws IH]; simpl; [constructor|].
  intros [Hw Hws]%andb_prop. constructor; [by destruct w|by apply IH].
Qed.

Lemma shutdown_inv_step s l s' :
  shutdown_inv files s → exec c files l s = Some s' → shutdown_inv files s'.
Proof.
  intros [Hws Hopen] H.
  assert (Hstuck : ∀ i w, past_wait s → files ≠ [] → workers s !! i = Some w → w = WExit).
  { intros i w Hpw Hne Hi. specialize (Hws Hne Hpw).
    by eapply Forall_lookup_1 in Hws. }
  exec_inv H.
  all: split; unfold past_wait in *; unfold_state; main_pc; try done.
  all: try (intros ? [?|[?|?]]; done).
  all: try (intros; by apply forallb_is_exit).
  all: try (intros; apply Hws; auto; fail).
  all: try (intros Hne Hpw;
            match goal with Hw : workers _ !! _ = Some _ |- _ =>
              specialize (Hstuck _ _ Hpw Hne Hw); done end).
  all: try (unfold Chan.try_send; destruct (Chan.has_room _); simpl; auto; fail).
  all: try (intros; apply Hopen; congruence).
  all: try (intros Hne _; exfalso; apply Hne; by apply nil_length_inv).
  all: intros; etrans; [eassumption|]; by apply Hopen.
Qed.

Lemma shutdown_inv_reachable s : reachable c files fs0 s → shutdown_inv files s.
Proof. induction 1; eauto using shutdown_inv_init, shutdown_inv_step. Qed.

Lemma progress_frozen s l s' :
  files ≠ [] → shutdown_inv files s → past_wait s →
  exec c files l s = Some s' → progress s' = progress s ∧ past_wait s'.
Proof.
  intros Hne [Hws _] Hpw H. specialize (Hws Hne Hpw).
  assert (Hstuck : ∀ i w, workers s !! i = Some w → w = WExit).
  { intros i w Hi. by eapply Forall_lookup_1 in Hws. }
  unfold past_wait in *.
  exec_inv H; unfold_state; main_pc; try (split; [done|]; auto; fail).
  all: try (destruct Hpw as [?|[?|?]]; done).
  all: try match goal with Hw : workers _ !! _ = Some _ |- _ =>
         specialize (Hstuck _ _ Hw); done end.
Qed.

Lemma progress_frozen_run sched : ∀ s s',
  files ≠ [] → reachable c files fs0 s → past_wait s →
  run c files sched s = Some s' → progress s' = progress s.
Proof.
  induction sched as [|l sched IH]; intros s s' Hne Hr Hpw H; simpl in H.
  - by simplify_eq.
  - destruct (exec c files l s) as [s1|] eqn:E; [|done].
    destruct (progress_frozen s l s1 Hne (shutdown_inv_reachable s Hr) Hpw E)
      as [Hp Hpw1].
    rewrite <- Hp. apply IH; [done| |done..]. by eapply reach_step.
Qed.

(** C8 (as amended): in a run on a non-empty file list, once all workers have
    finished, [sendFinalProgress] offers the progress stream one snapshot
    carrying the final counters, while the stream is still open; the send
    does not block, so the snapshot joins the stream when the buffer has room
    and is dropped when it is full.  The counters do not change afterwards. *)
Theorem C8_final_snapshot_offered_once s :
  files ≠ [] → reachable c files fs0 s → panicked s = false → main s = MFinal →
  Forall (λ w, w = WExit) (workers s)
  ∧ Chan.closed (progressCh s) = false
  ∧ same_counters (final_snapshot (progress s) (now s)) (progress s)
  ∧ ∃ s', exec c files LMain s = Some s'
      ∧ main s' = MClosing
      ∧ Chan.closed (progressCh s') = false
      ∧ snapshots s'
        = (if Chan.has_room (progressCh s)
           then snapshots s ++ [final_snapshot (progress s) (now s)]
           else snapshots s)
      ∧ (∀ sched s'', run c files sched s' = Some s'' → progress s'' = progress s).
Proof.
  intros Hne Hr Hp Hm.
  pose proof (shutdown_inv_reachable s Hr) as [Hws Hopen].
  assert (Hpw : past_wait s) by by left.
  split_and!.
  - by apply Hws.
  - apply Hopen. by rewrite Hm.
  - done.
  - assert (E : exec c files LMain s
                = Some (with_main MClosing
                          (with_progressCh
                             (Chan.try_send (final_snapshot (progress s) (now s))
                                (progressCh s)) s))).
    { unfold exec, step_main. by rewrite Hp, Hm. }
    eexists. split; [exact E|]. split_and!.
    + done.
    + simpl. unfold Chan.try_send. destruct (Chan.has_room _); simpl;
        apply Hopen; by rewrite Hm.
    + unfold snapshots, Chan.try_send. simpl.
      destruct (Chan.has_room _); simpl; [by rewrite app_assoc|done].
    + intros sched s'' Hrun.
      rewrite (progress_frozen_run sched _ s'' Hne (reach_step _ _ _ _ _ _ Hr E)
                 (or_intror (or_introl eq_refl)) Hrun).
      done.
Qed.

(** *** The counters *)

Section Counters.
Hypothesis files_fit : Z.of_nat (length files) < 2 ^ 63.

Lemma counters_inv_init : counters_inv files (init fs0).
Proof.
  split; simpl; try done.
  unfold tosend; simpl. by rewrite !app_nil_r.
Qed.

Ltac worker_update :=
  repeat match goal with
    | Hw : workers ?s !! ?i = Some ?w
      |- context [<[ ?i := ?w' ]> (workers ?s) ≫= w_src] =>
        first [ rewrite (src_insert _ i w w' Hw)
                  by (simpl; rewrite ?copy_chunk_src; done)
              | rewrite (src_insert_new _ i w w' Hw) by done
              | match goal with
                | Ha : context [workers s ≫= w_src] |- _ =>
                    rewrite (src_insert_done _ i w w' Hw) in Ha by done;
                    generalize dependent (<[ i := w' ]> (workers s) ≫= w_src);
                    intros
                end ]
    | Hw : workers ?s !! ?i = Some ?w
      |- context [<[ ?i := ?w' ]> (workers ?s) ≫= w_counting] =>
        first [ rewrite (counting_insert _ i w w' Hw)
                  by (simpl; rewrite ?copy_chunk_counting, ?copy_begin_counting; done)
              | let H1 := fresh in let H2 := fresh in
                pose proof (n_ok_insert _ i w w' Hw) as H1;
                pose proof (n_failed_insert _ i w w' Hw) as H2;
                simpl in H1, H2;
                generalize dependent (<[ i := w' ]> (workers s) ≫= w_counting);
                intros ]
    | Hw : workers ?s !! ?i = Some _, Hs : main ?s = MInit → workers ?s = []
      |- main ?s = MInit → _ =>
        let Hm := fresh in intros Hm; rewrite (Hs Hm) in Hw; done
    end.

Lemma n_ok_cons r rs : n_ok (r :: rs) = ((if Success r then 1 else 0) + n_ok rs)%nat.
Proof. change (r :: rs) with ([r] ++ rs). by rewrite n_ok_app, n_ok_one. Qed.

Lemma n_failed_cons r rs :
  n_failed (r :: rs) = ((if Success r then 0 else 1) + n_failed rs)%nat.
Proof. change (r :: rs) with ([r] ++ rs). by rewrite n_failed_app, n_failed_one. Qed.

Lemma queue_start {A} (X B Q F : list A) : X ++ B ++ Q ⊆+ F → X ++ Q ⊆+ F.
Proof.
  intros H. etrans; [|exact H].
  apply submseteq_app; [done|]. apply submseteq_inserts_l. done.
Qed.

Lemma n_ok_nil : n_ok [] = 0%nat.
Proof. done. Qed.

Lemma n_failed_nil : n_failed [] = 0%nat.
Proof. done. Qed.

Lemma emitted_bound s :
  counters_inv files s → (n_ok (emitted s) + n_failed (emitted s) ≤ length files)%nat.
Proof.
  intros [_ _ Hatt Hfiles _ _ _].
  rewrite n_ok_failed. apply Permutation_length in Hatt.
  apply submseteq_length in Hfiles.
  rewrite !length_app, length_fmap in *. lia.
Qed.

Lemma counters_inv_step s l s' :
  counters_inv files s → exec c files l s = Some s' → counters_inv files s'.
Proof.
  intros Hinv H. pose proof (emitted_bound s Hinv) as Hb.
  destruct Hinv as [Hok Hfail Hatt Hfiles Htot Hnn Hstart].
  exec_inv H.
  all: split; unfold_state; main_pc; try done.
  all: rewrite ?bind_replicate_nil by done.
  all: worker_update; try done.
  all: rewrite ?fmap_app, ?n_ok_app, ?n_failed_app, ?n_ok_cons, ?n_failed_cons,
         ?n_ok_nil, ?n_failed_nil, ?copy_begin_src in *;
       simpl in *.
  all: eauto using queue_drop, queue_take, queue_push.
  all: try (rewrite ?Hstart in * by done; simpl in *; rewrite ?app_nil_r in *; done).
  all: try (rewrite <- Hatt; solve_Permutation).
  all: try (apply wrap64_small; unfold in_int64; lia).
  all: try (unfold count_result; destruct (Success _) eqn:?; simpl;
            rewrite ?add64_small by (unfold in_int64; lia); lia).
  all: try by apply (queue_start files (Chan.buf (fileChan s))).
  all: try (etrans; [|exact Hfiles]; by apply submseteq_inserts_l).
  all: try lia.
  all: match goal with Hw : workers _ !! ?i = Some (WCount ?r) |- _ =>
         pose proof (n_ok_insert _ i _ WIdle Hw) as H1;
         pose proof (n_failed_insert _ i _ WIdle Hw) as H2;
         simpl in H1, H2; rewrite n_ok_one, n_ok_nil in H1;
         rewrite n_failed_one, n_failed_nil in H2;
         unfold count_result; destruct (Success r); simpl;
         rewrite ?add64_small by (unfold in_int64; lia); lia
       end.
Qed.

Lemma counters_inv_reachable s : reachable c files fs0 s → counters_inv files s.
Proof.
  induction 1; eauto using counters_inv_init, counters_inv_step.
Qed.

Lemma progress_bound s : counters_inv files s → within_total (progress s).
Proof.
  intros Hinv. pose proof (emitted_bound s Hinv) as Hb.
  destruct Hinv as [Hok Hfail Hatt Hfiles Htot Hnn Hstart].
  unfold within_total. rewrite Htot.
  destruct (main s) eqn:Hm; try lia.
  specialize (Hstart eq_refl). rewrite Hstart in *. simpl in *.
  unfold tosend in Hfiles. rewrite Hm in Hfiles.
  apply submseteq_length in Hfiles. apply Permutation_length in Hatt.
  rewrite !length_app, ?length_fmap in *. simpl in *.
  pose proof (n_ok_failed (emitted s)). rewrite n_ok_nil, n_failed_nil in *. lia.
Qed.

Lemma snapshots_inv_init : snapshots_inv files (init fs0).
Proof. by split. Qed.


Lemma try_send_cases {A} (x : A) (ch : Chan.chan A) :
  Chan.buf (Chan.try_send x ch) = Chan.buf ch
  ∨ Chan.buf (Chan.try_send x ch) = Chan.buf ch ++ [x].
Proof. unfold Chan.try_send. destruct (Chan.has_room ch); auto. Qed.

Lemma tick_snapshot_counters p t :
  CompletedFiles (tick_snapshot p t) = CompletedFiles p
  ∧ FailedFiles (tick_snapshot p t) = FailedFiles p
  ∧ TotalFiles (tick_snapshot p t) = TotalFiles p.
Proof. done. Qed.

Lemma final_snapshot_counters p t :
  CompletedFiles (final_snapshot p t) = CompletedFiles p
  ∧ FailedFiles (final_snapshot p t) = FailedFiles p
  ∧ TotalFiles (final_snapshot p t) = TotalFiles p.
Proof. done. Qed.

Lemma snapshots_inv_step s l s' :
  counters_inv files s → snapshots_inv files s →
  exec c files l s = Some s' → snapshots_inv files s'.
Proof.
  intros Hc [Hst Hrd Hmon] H.
  pose proof (progress_bound s Hc) as Hb. pose proof (inv_total _ _ Hc) as Htot.
  exec_inv H.
  all: split; unfold_state; main_pc; try done.
  all: try (intros; simplify_eq; eauto; fail).
  all: try (intros Hm; specialize (Hmon Hm); congruence).
  all: try (intros p0 Hp0; apply Hrd; congruence).
  - destruct (try_send_cases (final_snapshot (progress s) (now s)) (progressCh s))
      as [-> | ->]; [done|].
    rewrite app_assoc. apply Forall_app. split; [done|].
    constructor; [|done]. done.
  - intros p [= <-]. split; [done|]. simpl.
    destruct (main s); try done. specialize (Hmon eq_refl). congruence.
  - destruct (try_send_cases p (progressCh s)) as [-> | ->]; [done|].
    rewrite app_assoc. apply Forall_app. split; [done|].
    constructor; [|done]. eauto.
  - by rewrite <- app_assoc.
Qed.

Lemma snapshots_inv_reachable s : reachable c files fs0 s → snapshots_inv files s.
Proof.
  induction 1 as [|s l s' Hr IH Hstep]; [apply snapshots_inv_init|].
  eauto using snapshots_inv_step, counters_inv_reachable.
Qed.

Lemma run_reachable sched : ∀ s s',
  reachable c files fs0 s → run c files sched s = Some s' → reachable c files fs0 s'.
Proof.
  induction sched as [|l sched IH]; intros s s' Hr H; simpl in H.
  - by simplify_eq.
  - destruct (exec c files l s) as [s1|] eqn:E; [|done].
    eapply IH; [|done]. by eapply reach_step.
Qed.

Lemma quiescent_src s : quiescent s → workers s ≫= w_src = [].
Proof.
  unfold quiescent. induction (workers s) as [|w ws IH]; [done|].
  intros Hq. apply Forall_cons in Hq as [Hw Hq].
  rewrite bind_cons, IH by done. by destruct Hw as [-> | ->].
Qed.

Lemma quiescent_counting s : quiescent s → workers s ≫= w_counting = [].
Proof.
  unfold quiescent. induction (workers s) as [|w ws IH]; [done|].
  intros Hq. apply Forall_cons in Hq as [Hw Hq].
  rewrite bind_cons, IH by done. by destruct Hw as [-> | ->].
Qed.

Lemma count_step s i n r s' :
  counters_inv files s →
  workers s !! i = Some (WCount r) → exec c files (LWorker i n) s = Some s' →
  (Success r = true
   ∧ CompletedFiles (progress s') = CompletedFiles (progress s) + 1
   ∧ FailedFiles (progress s') = FailedFiles (progress s))
  ∨ (Success r = false
     ∧ CompletedFiles (progress s') = CompletedFiles (progress s)
     ∧ FailedFiles (progress s') = FailedFiles (progress s) + 1).
Proof.
  intros Hinv Hw H. pose proof (emitted_bound s Hinv) as Hb.
  destruct Hinv as [Hok Hfail Hatt Hfiles Htot Hnn Hstart].
  pose proof (n_ok_insert _ i _ WIdle Hw) as H1.
  pose proof (n_failed_insert _ i _ WIdle Hw) as H2.
  simpl in H1, H2. rewrite n_ok_one, n_ok_nil in H1.
  rewrite n_failed_one, n_failed_nil in H2.
  unfold exec in H. destruct (panicked s); [done|].
  unfold step_worker in H. rewrite Hw in H. simplify_eq. simpl.
  unfold count_result. destruct (Success r); simpl; [left|right];
    rewrite add64_small by (unfold in_int64; lia); done.
Qed.

(** C4: at every point of every run, in the progress struct as in every
    snapshot taken from it, completed plus failed files never exceed the
    total, and the total stays the length of the file list once the run has
    set it. *)
Theorem C4_completed_plus_failed_within_total s :
  reachable c files fs0 s →
  within_total (progress s)
  ∧ Forall within_total (snapshots s)
  ∧ (∀ p, mon s = MonReady p → within_total p)
  ∧ (main s ≠ MInit → TotalFiles (progress s) = Z.of_nat (length files))
  ∧ Forall (λ p, TotalFiles p = Z.of_nat (length files)) (snapshots s).
Proof.
  intros Hr.
  pose proof (counters_inv_reachable s Hr) as Hc.
  pose proof (snapshots_inv_reachable s Hr) as [Hst Hrd _].
  split_and!.
  - by apply progress_bound.
  - eapply Forall_impl; [exact Hst|]. by intros p [? _].
  - intros p Hp. by apply Hrd.
  - intros Hm. rewrite (inv_total _ _ Hc). by destruct (main s).
  - eapply Forall_impl; [exact Hst|]. by intros p [_ ?].
Qed.

(** C5: the results sent so far, together with the files some worker is in
    the middle of, are the attempted files, each as often as it was
    attempted; so once no worker is in the middle of a file every attempt has
    exactly one result, and no result belongs to a file that was not
    attempted.  Counting a result adds one to exactly one of the two
    counters, which therefore count the successful and the failed results. *)
Theorem C5_one_result_and_one_counter_per_attempt s :
  reachable c files fs0 s →
  (FilePath <$> emitted s) ++ (workers s ≫= w_src) ≡ₚ attempts s
  ∧ (quiescent s →
     FilePath <$> emitted s ≡ₚ attempts s
     ∧ CompletedFiles (progress s) = Z.of_nat (n_ok (emitted s))
     ∧ FailedFiles (progress s) = Z.of_nat (n_failed (emitted s))
     ∧ CompletedFiles (progress s) + FailedFiles (progress s)
       = Z.of_nat (length (attempts s)))
  ∧ (∀ r, r ∈ emitted s → FilePath r ∈ attempts s)
  ∧ attempts s ⊆+ files
  ∧ (∀ i n r s', workers s !! i = Some (WCount r) →
       exec c files (LWorker i n) s = Some s' →
       (Success r = true
        ∧ CompletedFiles (progress s') = CompletedFiles (progress s) + 1
        ∧ FailedFiles (progress s') = FailedFiles (progress s))
       ∨ (Success r = false
          ∧ CompletedFiles (progress s') = CompletedFiles (progress s)
          ∧ FailedFiles (progress s') = FailedFiles (progress s) + 1)).
Proof.
  intros Hr. pose proof (counters_inv_reachable s Hr) as Hc.
  pose proof Hc as [Hok Hfail Hatt Hfiles Htot Hnn Hstart].
  split_and!.
  - done.
  - intros Hq. rewrite (quiescent_src s Hq), app_nil_r in Hatt.
    rewrite (quiescent_counting s Hq) in Hok, Hfail.
    rewrite n_ok_nil in Hok. rewrite n_failed_nil in Hfail.
    split_and!; [done|lia|lia|].
    rewrite <- Hatt, length_fmap, <- (n_ok_failed (emitted s)). lia.
  - intros r Hin. rewrite <- Hatt. apply elem_of_app. left.
    by apply list_elem_of_fmap_2.
  - etrans; [|exact Hfiles]. rewrite app_assoc. apply submseteq_inserts_l. done.
  - intros i n r s' Hw H. by eapply count_step.
Qed.

(** C6: a worker in the loop of [copyFileContent] that finds the flag set
    reads and writes nothing more: the copy ends with the "canceled" error,
    the result sent is a failure and is counted as one, the destination file
    written so far stays on disk untouched, and no later step of the run
    removes it. *)
Theorem C6_cancel_mid_file s i src dst size off n :
  reachable c files fs0 s → panicked s = false →
  workers s !! i = Some (WCopy src dst size off) → canceled s = true → (1 ≤ n)%nat →
  ∃ s1,
    exec c files (LWorker i n) s = Some s1
    ∧ workers s1 !! i = Some (WSend (failure src ErrCanceled size))
    ∧ fs s1 = fs s
    ∧ (∃ partial, fs s1 !! dst = Some (File partial))
    ∧ (∀ s2, exec c files (LWorker i n) s1 = Some s2 →
         emitted s2 = emitted s1 ++ [failure src ErrCanceled size]
         ∧ fs s2 = fs s1
         ∧ ∀ s3, exec c files (LWorker i n) s2 = Some s3 →
             FailedFiles (progress s3) = FailedFiles (progress s2) + 1
             ∧ CompletedFiles (progress s3) = CompletedFiles (progress s2)
             ∧ fs s3 = fs s2)
    ∧ (∀ sched s', run c files sched s1 = Some s' →
         ∃ content, fs s' !! dst = Some (File content)).
Proof.
  intros Hr Hp Hw Hc Hn.
  destruct (dst_on_disk_reachable s Hr _ _ _ _ _ Hw) as [partial Hdst].
  assert (Hi : (i < length (workers s))%nat) by by eapply lookup_lt_Some.
  assert (E1 : exec c files (LWorker i n) s
               = Some (set_worker i (WSend (failure src ErrCanceled size)) s)).
  { unfold exec, step_worker. rewrite Hp, Hw, decide_True by done.
    unfold copy_chunk. rewrite Hc. simpl. by destruct s. }
  eexists. split; [exact E1|]. split_and!.
  - unfold set_worker. simpl. by rewrite list_lookup_insert_eq.
  - done.
  - eauto.
  - intros s2 E2.
    assert (Hr1 : reachable c files fs0
                    (set_worker i (WSend (failure src ErrCanceled size)) s))
      by by eapply reach_step.
    assert (Hr2 : reachable c files fs0 s2) by by eapply reach_step.
    unfold exec in E2. simpl in E2. rewrite Hp in E2. unfold step_worker in E2.
    simpl in E2. rewrite list_lookup_insert_eq in E2 by done.
    destruct (Chan.has_room (resultCh s)); [|done]. simplify_eq.
    split_and!.
    + unfold emitted. simpl. by rewrite app_assoc.
    + done.
    + intros s3 E3.
      destruct (count_step _ i n (failure src ErrCanceled size) s3
                  (counters_inv_reachable _ Hr2)) as [(? & _)|(_ & ? & ?)];
        [|exact E3|done|].
      { unfold set_worker. simpl. rewrite list_insert_insert_eq.
        by rewrite list_lookup_insert_eq. }
      split_and!; [done..|].
      unfold exec in E3. simpl in E3. rewrite Hp in E3. unfold step_worker in E3.
      simpl in E3. rewrite list_insert_insert_eq, list_lookup_insert_eq in E3 by done.
      by simplify_eq.
  - intros sched s' Hrun. apply run_keeps_files in Hrun.
    destruct (Hrun dst partial) as [content Hc']; [done|]. eauto.
Qed.

End Counters.

End Invariants.

(** The small run is a run, and it ends. *)
Lemma demo_run_done :
  from_option (λ s, main s = MDone ∧ quiescent s) False
    (run demo_copier demo_files demo_schedule (init demo_fs)).
Proof.
  vm_compute. split; [done|].
  repeat (apply Forall_cons; split; [by right|]). constructor.
Qed.

Lemma C4_completed_plus_failed_within_total_witness :
  from_option
    (λ s, within_total (progress s)
          ∧ Forall within_total (snapshots s)
          ∧ (∀ p, mon s = MonReady p → within_total p)
          ∧ (main s ≠ MInit → TotalFiles (progress s) = Z.of_nat (length demo_files))
          ∧ Forall (λ p, TotalFiles p = Z.of_nat (length demo_files)) (snapshots s))
    False (run demo_copier demo_files demo_schedule (init demo_fs)).
Proof.
  destruct (run demo_copier demo_files demo_schedule (init demo_fs)) as [s|] eqn:E.
  - cbn [from_option].
    apply (C4_completed_plus_failed_within_total demo_copier demo_files demo_fs).
    + vm_compute. reflexivity.
    + eapply run_reachable; [apply reach_init | exact E].
  - vm_compute in E. discriminate E.
Defined.

Lemma C5_one_result_and_one_counter_per_attempt_witness :
  from_option
    (λ s, FilePath <$> emitted s ≡ₚ attempts s
          ∧ CompletedFiles (progress s) + FailedFiles (progress s)
            = Z.of_nat (length (attempts s)))
    False (run demo_copier demo_files demo_schedule (init demo_fs)).
Proof.
  pose proof demo_run_done as Hd.
  destruct (run demo_copier demo_files demo_schedule (init demo_fs)) as [s|] eqn:E;
    cbn [from_option] in *; [|exact Hd].
  destruct Hd as [_ Hq].
  destruct (C5_one_result_and_one_counter_per_attempt demo_copier demo_files demo_fs)
    with (s := s) as (_ & Hfin & _).
  - vm_compute. reflexivity.
  - eapply run_reachable; [apply reach_init | exact E].
  - destruct (Hfin Hq) as (Hone & _ & _ & Hsum). exact (conj Hone Hsum).
Defined.


(** ** The empty file list *)

Section EmptyList.
Variable c : Copier.
Variable fs0 : fsys.

Lemma empty_inv_init : empty_inv fs0 (init fs0).
Proof. split; simpl; auto. intros [=]. Qed.

Lemma empty_inv_step s l s' :
  empty_inv fs0 s → exec c [] l s = Some s' → empty_inv fs0 s'.
Proof.
  intros [Hfs Hres Hprog Herr Hws Hmon Halive Hmain Hclosed] H.
  apply app_eq_nil in Hres as [Hres1 Hres2].
  apply app_eq_nil in Hprog as [Hprog1 Hprog2].
  exec_inv H.
  all: try (destruct Hmain; congruence).
  all: try (rewrite Hws in *; done).
  all: try congruence.
  all: split; unfold_state; main_pc; rewrite ?Hres1, ?Hres2, ?Hprog1, ?Hprog2; auto.
  all: try done.
Qed.

Lemma empty_inv_reachable s : reachable c [] fs0 s → empty_inv fs0 s.
Proof. induction 1; eauto using empty_inv_init, empty_inv_step. Qed.

(** C10: on an empty file list the goroutine of [CopyFilesParallel] does one
    thing, it closes the three streams.  At no point of the run has a result,
    a snapshot or an error been sent, and the file system is the one the run
    started with: no directory is created, the target root included. *)
Theorem C10_empty_list_closes_without_effect s :
  reachable c [] fs0 s →
  fs s = fs0
  ∧ emitted s = [] ∧ snapshots s = [] ∧ Chan.buf (errCh s) = []
  ∧ (main s = MDone →
     Chan.closed (resultCh s) = true ∧ Chan.closed (progressCh s) = true
     ∧ Chan.closed (errCh s) = true)
  ∧ (main s = MInit → ∃ s', exec c [] LMain s = Some s' ∧ main s' = MDone).
Proof.
  intros Hr. destruct (empty_inv_reachable s Hr)
    as [Hfs Hres Hprog Herr Hws Hmon Halive Hmain Hclosed].
  split_and!; try done.
  intros Hm. eexists. unfold exec, step_main. rewrite Halive, Hm. done.
Qed.

End EmptyList.


(** ** The statements on concrete runs *)

Lemma C10_empty_list_closes_without_effect_witness :
  from_option
    (λ s, fs s = demo_fs ∧ emitted s = [] ∧ snapshots s = []
          ∧ Chan.buf (errCh s) = [])
    False (run demo_copier [] [LMain] (init demo_fs)).
Proof.
  destruct (run demo_copier [] [LMain] (init demo_fs)) as [s|] eqn:E;
    cbn [from_option].
  - destruct (C10_empty_list_closes_without_effect demo_copier demo_fs s)
      as (H1 & H2 & H3 & H4 & _).
    + eapply run_reachable; [apply reach_init | exact E].
    + exact (conj H1 (conj H2 (conj H3 H4))).
  - vm_compute in E. discriminate E.
Defined.

Lemma cancel_run_state :
  from_option
    (λ s, panicked s = false
          ∧ workers s !! 0%nat
            = Some (WCopy [""; "src"; "x.txt"] [""; "dst"; "x.txt"] 3 2)
          ∧ canceled s = true)
    False (run demo_copier demo_files cancel_schedule (init demo_fs)).
Proof. vm_compute. repeat split. Qed.

Lemma C6_cancel_mid_file_witness :
  from_option
    (λ s, ∃ s1,
        exec demo_copier demo_files (LWorker 0 2) s = Some s1
        ∧ workers s1 !! 0%nat
          = Some (WSend (failure [""; "src"; "x.txt"] ErrCanceled 3))
        ∧ fs s1 = fs s
        ∧ ∃ partial, fs s1 !! [""; "dst"; "x.txt"] = Some (File partial))
    False (run demo_copier demo_files cancel_schedule (init demo_fs)).
Proof.
  pose proof cancel_run_state as Hs.
  destruct (run demo_copier demo_files cancel_schedule (init demo_fs)) as [s|] eqn:E;
    cbn [from_option] in *; [|exact Hs].
  destruct Hs as (Hp & Hw & Hc).
  destruct (C6_cancel_mid_file demo_copier demo_files demo_fs) with
    (s := s) (i := 0%nat) (src := [""; "src"; "x.txt"]) (dst := [""; "dst"; "x.txt"])
    (size := 3) (off := 2%nat) (n := 2%nat) as (s1 & H1 & H2 & H3 & H4 & _).
  - vm_compute. reflexivity.
  - eapply run_reachable; [apply reach_init | exact E].
  - exact Hp.
  - exact Hw.
  - exact Hc.
  - lia.
  - exists s1. exact (conj H1 (conj H2 (conj H3 H4))).
Defined.

(** A hundred undelivered ticks fill the progress stream; the final snapshot
    is dropped and no snapshot on the stream shows the two completed files. *)
Lemma slow_consumer_run :
  from_option
    (λ s, main s = MDone ∧ CompletedFiles (progress s) = 2
          ∧ forallb (λ p, negb (CompletedFiles p =? 2)) (snapshots s) = true)
    False (run demo_copier demo_files slow_consumer_schedule (init demo_fs)).
Proof. vm_compute. repeat split. Qed.

Lemma C8_counterexample : ¬ final_state_observable demo_copier demo_files demo_fs.
Proof.
  intros Hobs. pose proof slow_consumer_run as Hs.
  destruct (run demo_copier demo_files slow_consumer_schedule (init demo_fs))
    as [s|] eqn:E; cbn [from_option] in *; [|exact Hs].
  destruct Hs as (Hm & Hc & Hall).
  destruct (Hobs s) as (p & Hin & Hsame & _).
  - eapply run_reachable; [apply reach_init | exact E].
  - exact Hm.
  - rewrite forallb_forall in Hall. apply list_elem_of_In in Hin.
    specialize (Hall p Hin). rewrite Hsame, Hc in Hall. discriminate Hall.
Qed.

Lemma final_run_state :
  from_option
    (λ s, panicked s = false ∧ main s = MFinal
          ∧ Chan.has_room (progressCh s) = true)
    False (run demo_copier demo_files (take 21 demo_schedule) (init demo_fs)).
Proof. vm_compute. repeat split. Qed.

Lemma C8_final_snapshot_offered_once_witness :
  from_option
    (λ s, ∃ s', exec demo_copier demo_files LMain s = Some s'
                ∧ main s' = MClosing
                ∧ snapshots s' = snapshots s ++ [final_snapshot (progress s) (now s)])
    False (run demo_copier demo_files (take 21 demo_schedule) (init demo_fs)).
Proof.
  pose proof final_run_state as Hs.
  destruct (run demo_copier demo_files (take 21 demo_schedule) (init demo_fs))
    as [s|] eqn:E; cbn [from_option] in *; [|exact Hs].
  destruct Hs as (Hp & Hm & Hroom).
  destruct (C8_final_snapshot_offered_once demo_copier demo_files demo_fs) with (s := s)
    as (_ & _ & _ & s' & H1 & H2 & _ & H3 & _).
  - discriminate.
  - eapply run_reachable; [apply reach_init | exact E].
  - exact Hp.
  - exact Hm.
  - exists s'. rewrite Hroom in H3. exact (conj H1 (conj H2 H3)).
Defined.


(** C2, at the input where the code departs from it: a source tree that
    holds the directory [a/b] and no file.  Its file list is empty, the run
    closes the streams and ends, and [/dst/a/b] does not exist; the pass that
    would have created it, [ensureAllDirectories], is never reached. *)
Theorem C2_tree_without_files_is_not_mirrored :
  (s ← run demo_copier [] [LMain] (init dirs_only_fs);
   Some (main s, fs s !! [""; "dst"; "a"; "b"], fs s !! [""; "dst"]))
  = Some (MDone, None, None)
  ∧ ensureAllDirectories demo_copier dirs_only_fs !! [""; "dst"; "a"; "b"]
    = Some (Folder true).
Proof. split; vm_compute; reflexivity. Qed.

(** The same in every run on that tree, at every point. *)
Lemma tree_without_files_never_mirrored s :
  reachable demo_copier [] dirs_only_fs s → fs s !! [""; "dst"; "a"; "b"] = None.
Proof.
  intros Hr. rewrite (empty_fs _ _ (empty_inv_reachable _ _ s Hr)).
  vm_compute. reflexivity.
Qed.


(** ** Mirroring: source and target trees apart *)

Section Mirror.
Variable c : Copier.
Variable files : list path.
Variable fs0 : fsys.

Hypothesis files_fit : Z.of_nat (length files) < 2 ^ 63.
Hypothesis source_not_above : ¬ sourceDir c `prefix_of` targetDir c.
Hypothesis target_not_above : ¬ targetDir c `prefix_of` sourceDir c.
Hypothesis files_distinct : NoDup files.
Hypothesis files_under : ∀ f, f ∈ files → sourceDir c `prefix_of` f.

Lemma source_nonempty : sourceDir c ≠ [].
Proof. intros E. apply source_not_above. rewrite E. apply prefix_nil. Qed.

Lemma dst_of_under r : dst_of c (sourceDir c ++ r) = targetDir c ++ r.
Proof.
  unfold dst_of. rewrite Rel_under by apply source_nonempty. apply Join_zero.
Qed.

Lemma dst_of_inj f g :
  sourceDir c `prefix_of` f → sourceDir c `prefix_of` g →
  dst_of c f = dst_of c g → f = g.
Proof.
  intros [r ->] [r' ->]. rewrite !dst_of_under. intros H.
  by apply app_inv_head in H as ->.
Qed.

Lemma toward_target_outside q : toward_target c q → ¬ sourceDir c `prefix_of` q.
Proof.
  intros [r Hq] Hs.
  assert (sourceDir c `prefix_of` targetDir c ++ r) as H1 by by etrans.
  assert (targetDir c `prefix_of` targetDir c ++ r) as H2 by by apply prefix_app_r.
  destruct (prefix_weak_total _ _ _ H1 H2); auto.
Qed.

Lemma dst_toward_target f : sourceDir c `prefix_of` f → toward_target c (dst_of c f).
Proof. intros [r ->]. rewrite dst_of_under. by exists r. Qed.

Lemma parent_prefix (p : path) : parent p `prefix_of` p.
Proof.
  destruct p as [|v [|x p]]; [done..|].
  change (parent (v :: x :: p)) with (removelast (v :: x :: p)).
  exists [List.last (v :: x :: p) v]. by apply app_removelast_last.
Qed.

Lemma ensure_fn_toward fs p isdir :
  sourceDir c `prefix_of` p → adds_dirs (toward_target c) fs (ensure_fn c fs p isdir).
Proof.
  intros [r ->]. unfold ensure_fn. destruct isdir; [|apply adds_dirs_refl].
  rewrite Rel_under by apply source_nonempty. rewrite Join_zero. cbv zeta.
  match goal with |- context [MkdirAll fs ?d] =>
    assert (toward_target c d) as [r' Hd];
    [ case_decide; [exists []; by rewrite app_nil_r|by exists r] |];
    destruct (MkdirAll fs d) as [fs1|] eqn:E
  end; simpl; [|apply adds_dirs_refl].
  pose proof (MkdirAll_spec _ _ _ E) as H.
  eapply adds_dirs_weaken; [|exact H].
  intros q Hq. exists r'. simpl in Hq. by etrans.
Qed.

Lemma ensureAllDirectories_toward fs :
  adds_dirs (toward_target c) fs (ensureAllDirectories c fs).
Proof.
  unfold ensureAllDirectories.
  destruct (Stat fs (sourceDir c)) as [info|]; [|apply adds_dirs_refl].
  destruct (fi_isdir info); [|apply adds_dirs_refl].
  apply (WalkDir_preserves (adds_dirs (toward_target c) fs) (ensure_fn c) (sourceDir c));
    [|done|apply adds_dirs_refl].
  intros fs' p isdir Hp H. eapply adds_dirs_trans; [exact H|by apply ensure_fn_toward].
Qed.

Lemma adds_dirs_source fs fs' p :
  adds_dirs (toward_target c) fs fs' → sourceDir c `prefix_of` p → fs' !! p = fs !! p.
Proof.
  intros H Hp. destruct (H p) as [E|(_ & _ & Ht)]; [done|].
  by apply toward_target_outside in Ht.
Qed.

Lemma adds_dirs_grow P fs fs' p x :
  adds_dirs P fs fs' → fs !! p = Some x → fs' !! p = Some x.
Proof. intros H Hp. destruct (H p) as [E|(N & _)]; congruence. Qed.

(** The states of the workers and the results under a change of the file
    system that keeps what is there, or writes one file. *)
Lemma result_ok_grow fs fs' r :
  (∀ p x, fs !! p = Some x → fs' !! p = Some x) →
  result_ok c files fs0 fs r → result_ok c files fs0 fs' r.
Proof.
  intros Hg H Hs. destruct (H Hs) as (Hin & content & H0 & Hd). eauto 10.
Qed.

Lemma worker_ok_grow fs fs' em w :
  (∀ p x, fs !! p = Some x → fs' !! p = Some x) →
  worker_ok c files fs0 fs em w → worker_ok c files fs0 fs' em w.
Proof.
  intros Hg. destruct w; simpl; try done.
  - intros (Ha & Hb & H). split_and!; [done..|]. intros content Hc. eauto.
  - intros [Ha H]. split; [done|]. by eapply result_ok_grow.
Qed.

Lemma result_ok_insert fs d x r :
  (Success r = true → dst_of c (FilePath r) ≠ d) →
  result_ok c files fs0 fs r → result_ok c files fs0 (<[d := x]> fs) r.
Proof.
  intros Hne H Hs. destruct (H Hs) as (Hin & content & H0 & Hd).
  split; [done|]. exists content. split; [done|].
  rewrite lookup_insert_ne; [done|]. intros E. by apply Hne.
Qed.

Lemma worker_ok_insert fs d x em w :
  (∀ f, f ∈ w_src w → dst_of c f ≠ d) →
  worker_ok c files fs0 fs em w → worker_ok c files fs0 (<[d := x]> fs) em w.
Proof.
  destruct w as [|f dst size off|r|r|]; simpl; try done.
  - intros Hne (Ha & -> & H). split_and!; [done..|]. intros content Hc.
    rewrite lookup_insert_ne; [eauto|]. intros E. apply (Hne f); [|done].
    by apply list_elem_of_singleton.
  - intros Hne [Ha H]. split; [done|]. apply result_ok_insert; [|done].
    intros _. apply Hne. by apply list_elem_of_singleton.
Qed.

Lemma worker_ok_emitted fs em em' w :
  (∀ r, r ∈ em → r ∈ em') →
  worker_ok c files fs0 fs em w → worker_ok c files fs0 fs em' w.
Proof. intros Hsub. destruct w; simpl; auto. Qed.


Lemma submseteq_NoDup {A} (l k : list A) : l ⊆+ k → NoDup k → NoDup l.
Proof.
  intros (k' & Hsub & Hperm)%submseteq_sublist_l Hk.
  eapply sublist_NoDup; [|exact Hsub]. by rewrite Hperm.
Qed.

Lemma apart s :
  counters_inv files s →
  NoDup (tosend files s ++ Chan.buf (fileChan s)
         ++ (FilePath <$> emitted s) ++ (workers s ≫= w_src)).
Proof.
  intros Hinv. rewrite (inv_attempts _ _ Hinv).
  eapply submseteq_NoDup; [apply (inv_files _ _ Hinv)|done].
Qed.

Lemma other_destinations fs em w f :
  worker_ok c files fs0 fs em w → f ∈ files → f ∉ w_src w →
  ∀ g, g ∈ w_src w → dst_of c g ≠ dst_of c f.
Proof.
  intros Hw Hf Hnot g Hg Heq.
  assert (g ∈ files) as Hgf.
  { destruct w; simpl in *; try by apply elem_of_nil in Hg.
    - apply list_elem_of_singleton in Hg as ->. by destruct Hw.
    - apply list_elem_of_singleton in Hg as ->. by destruct Hw. }
  apply dst_of_inj in Heq; [|by apply files_under..]. by subst.
Qed.

Lemma not_in_bind (ws : list worker) f :
  f ∉ ws ≫= w_src → Forall (λ w, f ∉ w_src w) ws.
Proof.
  intros H. apply Forall_forall. intros w Hw Hf. apply H.
  apply list_elem_of_bind. eauto.
Qed.

(** The part of [copySingleFile] before the loop keeps the invariant. *)
Lemma begin_step fs em l1 l2 f :
  (∀ p, sourceDir c `prefix_of` p → fs !! p = fs0 !! p) →
  f ∈ files →
  Forall (worker_ok c files fs0 fs em) (l1 ++ l2) →
  Forall (result_ok c files fs0 fs) em →
  f ∉ (l1 ++ l2) ≫= w_src → f ∉ FilePath <$> em →
  (∀ p, sourceDir c `prefix_of` p → (copy_begin c fs f).1 !! p = fs0 !! p)
  ∧ Forall (worker_ok c files fs0 (copy_begin c fs f).1 em)
      (l1 ++ (copy_begin c fs f).2 :: l2)
  ∧ Forall (result_ok c files fs0 (copy_begin c fs f).1) em.
Proof.
  intros Hsrc Hf Hws Hem Hfw Hfe.
  assert (Hunder : sourceDir c `prefix_of` f) by by apply files_under.
  assert (Hmk : ∀ rel fs1, Rel (sourceDir c) f = Some rel →
            MkdirAll fs (parent (Join (targetDir c) rel)) = Some fs1 →
            adds_dirs (toward_target c) fs fs1).
  { intros rel fs1 Hrel H. eapply adds_dirs_weaken; [|by eapply MkdirAll_spec].
    intros q Hq. simpl in Hq.
    destruct (dst_toward_target f Hunder) as [r' Hd]. unfold dst_of in Hd.
    rewrite Hrel in Hd. exists r'. etrans; [exact Hq|]. etrans; [|exact Hd].
    apply parent_prefix. }
  assert (Hgrow : ∀ fs1, adds_dirs (toward_target c) fs fs1 →
            (∀ p, sourceDir c `prefix_of` p → fs1 !! p = fs0 !! p)
            ∧ Forall (worker_ok c files fs0 fs1 em) (l1 ++ l2)
            ∧ Forall (result_ok c files fs0 fs1) em).
  { intros fs1 Hadd. split_and!.
    - intros p Hp. rewrite (adds_dirs_source _ _ _ Hadd Hp). by apply Hsrc.
    - eapply Forall_impl; [exact Hws|]. intros w. apply worker_ok_grow.
      intros p x. eapply adds_dirs_grow. exact Hadd.
    - eapply Forall_impl; [exact Hem|]. intros r. apply result_ok_grow.
      intros p x. eapply adds_dirs_grow. exact Hadd. }
  assert (Hput : ∀ (w : worker) fs1,
            Forall (worker_ok c files fs0 fs1 em) (l1 ++ l2) →
            worker_ok c files fs0 fs1 em w →
            Forall (worker_ok c files fs0 fs1 em) (l1 ++ w :: l2)).
  { intros w fs1 [H1 H2]%Forall_app Hw. apply Forall_app. split; [done|].
    by constructor. }
  destruct (copy_begin_cases c fs f)
    as [[Hfs (e & sz & Hw)] | (rel & fs1 & info & Hrel & Hmk1 & Hst & Hcr & Hw)];
    rewrite Hw.
  - assert (adds_dirs (toward_target c) fs (copy_begin c fs f).1) as Hadd.
    { destruct Hfs as [-> | (rel & Hrel & H)]; [apply adds_dirs_refl|eauto]. }
    destruct (Hgrow _ Hadd) as (H1 & H2 & H3). split_and!; [done| |done].
    apply Hput; [done|]. simpl. split; [done|]. intros [=].
  - destruct (Hgrow _ (Hmk _ _ Hrel Hmk1)) as (H1 & H2 & H3).
    apply Create_spec in Hcr as [-> Hnd].
    assert (Hd : Join (targetDir c) rel = dst_of c f).
    { unfold dst_of. by rewrite Hrel. }
    rewrite Hd. split_and!.
    + intros p Hp. rewrite lookup_insert_ne; [by apply H1|].
      intros <-. exact (toward_target_outside _ (dst_toward_target f Hunder) Hp).
    + apply Hput.
      * apply Forall_forall. intros w Hin.
        apply worker_ok_insert; [|by eapply Forall_forall in H2].
        eapply other_destinations; [by eapply Forall_forall in H2|done|].
        intros Hfin. apply Hfw. apply list_elem_of_bind. eauto.
      * simpl. split_and!; [done..|]. intros content _.
        by rewrite lookup_insert_eq.
    + apply Forall_forall. intros r Hin.
      apply result_ok_insert; [|by eapply Forall_forall in H3].
      intros Hs Heq. eapply Forall_forall in H3; [|exact Hin].
      destruct (H3 Hs) as [Hrf _].
      apply dst_of_inj in Heq; [|by apply files_under..].
      apply Hfe. rewrite <- Heq. by apply list_elem_of_fmap_2.
Qed.


Lemma bufSize_pos : 1 <= bufSize c.
Proof. unfold bufSize. case_decide; lia. Qed.

Lemma take_length_take {A} (l : list A) k : take (length (take k l)) l = take k l.
Proof.
  rewrite length_take. destruct (decide (k ≤ length l)%nat).
  - by rewrite Nat.min_l.
  - rewrite Nat.min_r by lia. rewrite !take_ge; [done|lia..].
Qed.

Lemma write_at_append (content : list byte) off data :
  data = take (length data) (drop off content) → data ≠ [] →
  write_at (take off content) off data = take (off + length data) content.
Proof.
  intros Hd Hne.
  assert (off < length content)%nat as Hoff.
  { destruct (decide (off < length content)%nat); [done|].
    rewrite drop_ge in Hd by lia. rewrite take_nil in Hd. done. }
  unfold write_at. rewrite length_take_le by lia.
  rewrite take_take, Nat.min_id, Nat.sub_diag. simpl.
  rewrite (drop_ge (take off content)) by (rewrite length_take; lia).
  rewrite app_nil_r. rewrite <- take_take_drop. by rewrite <- Hd.
Qed.

(** One iteration of the loop keeps the invariant. *)
Lemma chunk_step fs b em l1 l2 f dst size off n :
  (∀ p, sourceDir c `prefix_of` p → fs !! p = fs0 !! p) →
  (1 ≤ n)%nat →
  worker_ok c files fs0 fs em (WCopy f dst size off) →
  Forall (worker_ok c files fs0 fs em) (l1 ++ l2) →
  Forall (result_ok c files fs0 fs) em →
  f ∉ (l1 ++ l2) ≫= w_src → f ∉ FilePath <$> em →
  (∀ p, sourceDir c `prefix_of` p →
        (copy_chunk c fs b f dst size off n).1 !! p = fs0 !! p)
  ∧ Forall (worker_ok c files fs0 (copy_chunk c fs b f dst size off n).1 em)
      (l1 ++ (copy_chunk c fs b f dst size off n).2 :: l2)
  ∧ Forall (result_ok c files fs0 (copy_chunk c fs b f dst size off n).1) em.
Proof.
  intros Hsrc Hn (Hf & -> & Hpre) Hws Hem Hfw Hfe.
  assert (Hunder : sourceDir c `prefix_of` f) by by apply files_under.
  assert (Hput : ∀ (w : worker) fs1,
            Forall (worker_ok c files fs0 fs1 em) (l1 ++ l2) →
            worker_ok c files fs0 fs1 em w →
            Forall (worker_ok c files fs0 fs1 em) (l1 ++ w :: l2)).
  { intros w fs1 [H1 H2]%Forall_app Hw. apply Forall_app. split; [done|].
    by constructor. }
  assert (Hk : (1 ≤ Z.to_nat (Z.min (Z.of_nat n) (bufSize c)))%nat).
  { pose proof bufSize_pos. lia. }
  destruct (copy_chunk_cases c fs b f (dst_of c f) size off n)
    as [[Hfs (r & Hw & Hpath & Hok)]
       | (_ & content & old & data & Hsf & Hdf & Hdata & Hne & Hfs & Hw)];
    rewrite Hfs, Hw.
  - split_and!; [done| |done]. apply Hput; [done|]. simpl.
    rewrite Hpath. split; [done|]. intros Hs. rewrite Hpath.
    destruct (Hok Hs) as (_ & content & Hsf & Hend).
    split; [done|]. exists content. rewrite <- (Hsrc f Hunder). split; [done|].
    rewrite (Hpre content) by (by rewrite <- (Hsrc f Hunder)).
    apply take_nil_inv in Hend as [?|Hend]; [lia|].
    apply drop_nil_inv in Hend. by rewrite take_ge.
  - assert (old = take off content) as ->.
    { rewrite (Hpre content) in Hdf by (by rewrite <- (Hsrc f Hunder)).
      by simplify_eq. }
    split_and!.
    + intros p Hp. rewrite lookup_insert_ne; [by apply Hsrc|].
      intros <-. exact (toward_target_outside _ (dst_toward_target f Hunder) Hp).
    + apply Hput.
      * apply Forall_forall. intros w Hin.
        apply worker_ok_insert; [|by eapply Forall_forall in Hws].
        eapply other_destinations; [by eapply Forall_forall in Hws|done|].
        intros Hfin. apply Hfw. apply list_elem_of_bind. eauto.
      * simpl. split_and!; [done..|]. intros content' Hc'.
        rewrite <- (Hsrc f Hunder), Hsf in Hc'. simplify_eq.
        rewrite lookup_insert_eq. f_equal. f_equal.
        apply write_at_append; [by rewrite take_length_take|done].
    + apply Forall_forall. intros r Hin.
      apply result_ok_insert; [|by eapply Forall_forall in Hem].
      intros Hs Heq. eapply Forall_forall in Hem; [|exact Hin].
      destruct (Hem Hs) as [Hrf _].
      apply dst_of_inj in Heq; [|by apply files_under..].
      apply Hfe. rewrite <- Heq. by apply list_elem_of_fmap_2.
Qed.


Lemma worker_split (ws : list worker) i w :
  ws !! i = Some w →
  ∃ l1 l2, ws = l1 ++ w :: l2 ∧ ∀ w', <[i := w']> ws = l1 ++ w' :: l2.
Proof.
  intros Hi. exists (take i ws), (drop (S i) ws). split.
  - by rewrite take_drop_middle.
  - intros w'. apply insert_take_drop. by eapply lookup_lt_Some.
Qed.

Lemma mirror_inv_init : mirror_inv c files fs0 (init fs0).
Proof. split; simpl; [done|constructor|constructor]. Qed.

Lemma Forall_middle {A} (P : A → Prop) l1 x l2 :
  Forall P (l1 ++ x :: l2) ↔ P x ∧ Forall P (l1 ++ l2).
Proof. rewrite !Forall_app, Forall_cons. tauto. Qed.

Lemma not_in_middle (l1 l2 : list worker) w f :
  f ∉ (l1 ++ w :: l2) ≫= w_src → f ∉ (l1 ++ l2) ≫= w_src.
Proof.
  rewrite !bind_app, bind_cons, !not_elem_of_app. tauto.
Qed.

Lemma NoDup_middle (l1 l2 : list worker) w f :
  NoDup ((l1 ++ w :: l2) ≫= w_src) → f ∈ w_src w → f ∉ (l1 ++ l2) ≫= w_src.
Proof.
  rewrite !bind_app, bind_cons. intros Hnd Hf.
  apply NoDup_app in Hnd as (_ & H1 & Hnd). apply NoDup_app in Hnd as (_ & H2 & _).
  apply not_elem_of_app. split.
  - intros Hin. apply (H1 _ Hin). apply elem_of_app. by left.
  - intros Hin. by apply (H2 _ Hf).
Qed.

Lemma mirror_inv_step s l s' :
  counters_inv files s → mirror_inv c files fs0 s →
  exec c files l s = Some s' → mirror_inv c files fs0 s'.
Proof.
  intros Hc [Hsrc Hws Hem] H.
  pose proof (apart s Hc) as Hnd. pose proof (inv_files _ _ Hc) as Hfiles.
  apply NoDup_app in Hnd as (_ & _ & Hnd).
  apply NoDup_app in Hnd as (Hq & Hqe & Hnd).
  apply NoDup_app in Hnd as (_ & Hew & Hnw).
  exec_inv H.
  all: try match goal with
       | Hw : workers _ !! ?i = Some ?w |- _ =>
           destruct (worker_split _ i w Hw) as (l1 & l2 & Hl & Hins);
           rewrite Hl in Hws, Hnw, Hew, Hqe; apply Forall_middle in Hws as [Hw0 Hws]
       end.
  all: unfold_state; rewrite ?Hins.
  all: try (split; simpl; rewrite <- ?app_assoc; try done;
            apply Forall_middle; split; done).
  - (* the directory pass *)
    pose proof (ensureAllDirectories_toward (fs s)) as Hadd.
    split; simpl.
    + intros p Hp. rewrite (adds_dirs_source _ _ _ Hadd Hp). by apply Hsrc.
    + by apply Forall_replicate.
    + eapply Forall_impl; [exact Hem|]. intros r. apply result_ok_grow.
      intros p x. eapply adds_dirs_grow. exact Hadd.
  - (* a worker takes a file *)
    match goal with |- context [copy_begin c (fs s) ?f] =>
      assert (f ∈ files) as Hf;
      [ eapply elem_of_submseteq; [|exact Hfiles];
        apply elem_of_app; right; apply elem_of_app; left; by left |];
      assert (f ∉ (FilePath <$> results_out s ++ Chan.buf (resultCh s))
                  ++ (l1 ++ WIdle :: l2) ≫= w_src) as Hfresh
        by (apply Hqe; by left);
      apply not_elem_of_app in Hfresh as [Hfe Hfw];
      apply not_in_middle in Hfw;
      destruct (begin_step (fs s) _ l1 l2 f Hsrc Hf Hws Hem Hfw Hfe) as (H1 & H2 & H3)
    end.
    by split.
  - (* a worker copies a chunk *)
    match goal with |- context [copy_chunk c (fs s) ?b ?f ?d ?z ?o ?k] =>
      assert (f ∉ (l1 ++ l2) ≫= w_src) as Hfw
        by (eapply NoDup_middle; [exact Hnw|by left]);
      assert (f ∉ FilePath <$> results_out s ++ Chan.buf (resultCh s)) as Hfe;
      [ intros Hin; apply (Hew _ Hin); rewrite bind_app, bind_cons;
        apply elem_of_app; right; apply elem_of_app; left; by left |];
      destruct (chunk_step (fs s) b _ l1 l2 f d z o k Hsrc ltac:(done) Hw0 Hws Hem Hfw Hfe)
        as (H1 & H2 & H3)
    end.
    by split.
  - (* a worker sends its result *)
    destruct Hw0 as [Hrf Hr]. split; unfold emitted; simpl; [done| |].
    + apply Forall_middle. split.
      * simpl. rewrite app_assoc. apply elem_of_app. right. by left.
      * eapply Forall_impl; [exact Hws|]. intros w. apply worker_ok_emitted.
        intros r0 Hr0. rewrite app_assoc. apply elem_of_app. by left.
    + rewrite app_assoc. apply Forall_app. split; [done|]. by constructor.
  - destruct Hw0 as (Hf & _). split; simpl; [done| |done].
    apply Forall_middle. split; [|done]. simpl. split; [done|]. intros [=].
  - destruct Hw0 as (Hf & _). split; simpl; [done| |done].
    apply Forall_middle. split; [|done]. simpl. split; [done|]. intros [=].
  - split; unfold emitted; simpl; rewrite <- ?app_assoc; done.
Qed.

Lemma mirror_inv_reachable s : reachable c files fs0 s → mirror_inv c files fs0 s.
Proof.
  induction 1 as [|s l s' Hr IH Hstep]; [apply mirror_inv_init|].
  eapply mirror_inv_step; [|exact IH|exact Hstep].
  by eapply counters_inv_reachable.
Qed.


(** *** Nothing is lost without a cancellation *)

Lemma drain_inv_init : drain_inv c files (init fs0).
Proof.
  split; simpl; try done.
  intros _. unfold tosend. simpl. by rewrite !app_nil_r.
Qed.

Lemma copy_begin_not_exit fs f : (copy_begin c fs f).2 ≠ WExit.
Proof. unfold copy_begin. by repeat case_match. Qed.

Lemma copy_chunk_not_exit fs b f dst size off n :
  (copy_chunk c fs b f dst size off n).2 ≠ WExit.
Proof. unfold copy_chunk. by repeat case_match. Qed.

Lemma drain_inv_step s l s' :
  drain_inv c files s → exec c files l s = Some s' → drain_inv c files s'.
Proof.
  intros [Hall Hexit Hclosed Hpool] H.
  exec_inv H.
  all: split; unfold_state; main_pc; try done.
  all: try (intros; rewrite ?length_insert, ?length_replicate; auto; fail).
  all: try (intros; congruence).
  all: try (intros Hcf j Hj;
            match type of Hj with
            | <[ ?i := _ ]> _ !! _ = _ =>
                destruct (decide (i = j)) as [<-|Hne];
                [ rewrite list_lookup_insert_eq in Hj by (by eapply lookup_lt_Some);
                  injection Hj as Hj
                | rewrite list_lookup_insert_ne in Hj by done;
                  first [ destruct (Hexit Hcf j Hj) as [Hb Hcl]
                        | destruct (Hexit eq_refl j Hj) as [Hb Hcl] ] ]
            end).
  all: try (exfalso; congruence).
  all: try (exfalso; by eapply copy_begin_not_exit).
  all: try (exfalso; by eapply copy_chunk_not_exit).
  all: try done.
  all: try (intros Hcl; apply Hclosed; congruence).
  all: try (intros Hcl; specialize (Hclosed Hcl); discriminate).
  all: try (intros Hcf; first [rewrite <- (Hall Hcf) | rewrite <- (Hall eq_refl)];
            solve_Permutation).
  - intros Hcf. specialize (Hall Hcf). apply Permutation_length in Hall.
    rewrite !length_app in Hall.
    destruct (Chan.buf (fileChan s)), (attempts s); simpl in *; try lia.
    by rewrite (nil_length_inv files).
  - intros _ Hne. exfalso. apply Hne. by apply nil_length_inv.
  - intros Hcf. specialize (Hall Hcf). apply Permutation_length in Hall.
    rewrite !length_app in Hall.
    destruct (Chan.buf (fileChan s)), (attempts s); simpl in *; try lia.
    by rewrite app_nil_r.
  - intros _ j Hj. by apply lookup_replicate in Hj as [? _].
  - intros Hcf j Hj. split; [|done]. by eapply Hexit.
  - intros Hcf j Hj. destruct (Hexit Hcf j Hj) as [_ Hcl].
    specialize (Hclosed Hcl). discriminate.
Qed.

Lemma drain_inv_reachable s : reachable c files fs0 s → drain_inv c files s.
Proof. induction 1; eauto using drain_inv_init, drain_inv_step. Qed.



Lemma n_failed_all_ok rs : Forall (λ r, Success r = true) rs → n_failed rs = 0%nat.
Proof.
  induction 1 as [|r rs Hr _ IH]; [done|].
  by rewrite n_failed_cons, Hr, IH.
Qed.

(** C1 (as amended): when neither root lies inside the other, a run that has
    ended without cancellation and without a failed result leaves, for every
    file of the scanned list, the bytes the source file had at the mirrored
    path under the target root, the source file itself untouched, and the
    counters complete. *)
Theorem C1_copy_mirrors_source_when_roots_apart s :
  (1 ≤ workerCount c)%nat →
  reachable c files fs0 s → main s = MDone → canceled s = false →
  Forall (λ r, Success r = true) (emitted s) →
  (∀ r, sourceDir c ++ r ∈ files →
        ∃ content, fs0 !! (sourceDir c ++ r) = Some (File content)
                   ∧ fs s !! (sourceDir c ++ r) = Some (File content)
                   ∧ fs s !! (targetDir c ++ r) = Some (File content))
  ∧ CompletedFiles (progress s) = TotalFiles (progress s)
  ∧ TotalFiles (progress s) = Z.of_nat (length files)
  ∧ FailedFiles (progress s) = 0.
Proof.
  intros Hwc Hr Hm Hcf Hall.
  pose proof (counters_inv_reachable c files fs0 files_fit s Hr) as Hc.
  pose proof (emitted_bound files s Hc) as Hb.
  pose proof Hc as [Hok Hfail Hatt Hfiles Htot Hnn Hstart].
  pose proof (mirror_inv_reachable s Hr) as [Hsrc Hws Hem].
  pose proof (drain_inv_reachable s Hr) as [Hdall Hdexit Hdclosed Hdpool].
  pose proof (shutdown_inv_reachable c files fs0 s Hr) as [Hshut _].
  rewrite Hm in Htot.
  destruct (decide (files = [])) as [Hnil|Hne].
  { rewrite Hnil in *. simpl in *. split_and!.
    - intros r Hin. by apply elem_of_nil in Hin.
    - lia.
    - done.
    - lia. }
  assert (Hex : Forall (λ w, w = WExit) (workers s)).
  { apply Hshut; [done|]. right. by right. }
  assert (Hq : quiescent s).
  { eapply Forall_impl; [exact Hex|]. intros w ->. by right. }
  rewrite (quiescent_src s Hq), app_nil_r in Hatt.
  rewrite (quiescent_counting s Hq) in Hok, Hfail.
  rewrite n_ok_nil in Hok. rewrite n_failed_nil in Hfail.
  assert (Hw0 : workers s !! 0%nat = Some WExit).
  { assert (0 < length (workers s))%nat as Hlen.
    { rewrite Hdpool; [lia| |done]. by rewrite Hm. }
    destruct (lookup_lt_is_Some_2 _ _ Hlen) as [w Hw].
    by rewrite (Forall_lookup_1 _ _ _ _ Hex Hw) in Hw. }
  destruct (Hdexit Hcf _ Hw0) as [Hbuf _].
  specialize (Hdall Hcf). unfold tosend in Hdall. rewrite Hm, Hbuf in Hdall.
  simpl in Hdall.
  pose proof (n_failed_all_ok _ Hall) as Hnf.
  pose proof (n_ok_failed (emitted s)) as Hlen.
  assert (length (emitted s) = length files) as Hcount.
  { rewrite <- Hdall, <- Hatt. by rewrite length_fmap. }
  split_and!; [|lia..].
  intros r Hin.
  assert (sourceDir c ++ r ∈ FilePath <$> emitted s) as Hin'
    by by rewrite Hatt, Hdall.
  apply list_elem_of_fmap in Hin' as (r0 & Hpath & Hr0).
  eapply Forall_forall in Hem; [|exact Hr0].
  eapply Forall_forall in Hall; [|exact Hr0].
  destruct (Hem Hall) as (_ & content & H0 & Hd).
  rewrite <- Hpath, dst_of_under in Hd. rewrite <- Hpath in H0.
  exists content. split_and!; [done| |done].
  rewrite Hsrc; [done|]. by apply prefix_app_r.
Qed.

End Mirror.


(** The worker pool is never empty. *)
Lemma NewCopier_has_worker numCPU src tgt clone :
  (1 ≤ numCPU)%nat → (1 ≤ workerCount (NewCopier numCPU src tgt clone))%nat.
Proof. intros H. unfold NewCopier. simpl. case_decide; lia. Qed.

Lemma SetWorkerCount_has_worker n c :
  (1 ≤ workerCount c)%nat → (1 ≤ workerCount (SetWorkerCount n c))%nat.
Proof. intros H. unfold SetWorkerCount. case_decide; simpl; lia. Qed.

Lemma forallb_Success rs :
  forallb Success rs = true → Forall (λ r, Success r = true) rs.
Proof.
  induction rs as [|r rs IH]; simpl; [constructor|].
  intros [Hr Hrs]%andb_prop. constructor; [done|by apply IH].
Qed.

(** With the target root above the source root the run of the example ends
    with two successful results, yet [/a/x] is empty while its source
    [/a/b/x] holds a byte. *)
Lemma overlap_run :
  from_option
    (λ s, main s = MDone ∧ canceled s = false
          ∧ forallb Success (emitted s) = true
          ∧ fs s !! [""; "a"; "b"; "x"] = Some (File [x59])
          ∧ fs s !! dst_of overlap_copier [""; "a"; "b"; "x"] = Some (File []))
    False (run overlap_copier overlap_files overlap_schedule (init overlap_fs)).
Proof. vm_compute. repeat split. Qed.

Lemma C1_counterexample : ¬ copy_is_identity overlap_copier overlap_files overlap_fs.
Proof.
  intros Hid. pose proof overlap_run as Hs.
  destruct (run overlap_copier overlap_files overlap_schedule (init overlap_fs))
    as [s|] eqn:E; cbn [from_option] in *; [|exact Hs].
  destruct Hs as (Hm & Hc & Hok & Hsrc & Hdst).
  destruct (Hid s) as (Hsame & _).
  - eapply run_reachable; [apply reach_init | exact E].
  - exact Hm.
  - exact Hc.
  - exact (forallb_Success _ Hok).
  - destruct (Hsame [""; "a"; "b"; "x"]) as (content & H1 & H2).
    + apply list_elem_of_here.
    + rewrite Hsrc in H1. rewrite Hdst in H2.
      injection H1 as <-. discriminate H2.
Qed.

Lemma demo_run_clean :
  from_option
    (λ s, main s = MDone ∧ canceled s = false
          ∧ forallb Success (emitted s) = true)
    False (run demo_copier demo_files demo_schedule (init demo_fs)).
Proof. vm_compute. repeat split. Qed.

Lemma demo_source_not_above : ¬ sourceDir demo_copier `prefix_of` targetDir demo_copier.
Proof. intros [k Hk]. discriminate Hk. Qed.

Lemma demo_target_not_above : ¬ targetDir demo_copier `prefix_of` sourceDir demo_copier.
Proof. intros [k Hk]. discriminate Hk. Qed.

Lemma demo_files_distinct : NoDup demo_files.
Proof.
  unfold demo_files. apply NoDup_cons. split; [|apply NoDup_singleton].
  intros Hin. apply list_elem_of_singleton in Hin. discriminate Hin.
Qed.

Lemma demo_files_under f : f ∈ demo_files → sourceDir demo_copier `prefix_of` f.
Proof.
  intros Hf. apply elem_of_cons in Hf as [->|Hf]; [by exists ["x.txt"]|].
  apply elem_of_cons in Hf as [->|Hf]; [by exists ["sub"; "y.txt"]|].
  by apply elem_of_nil in Hf.
Qed.

Lemma C1_copy_mirrors_source_when_roots_apart_witness :
  from_option
    (λ s, ∃ content,
        demo_fs !! [""; "src"; "x.txt"] = Some (File content)
        ∧ fs s !! [""; "dst"; "x.txt"] = Some (File content))
    False (run demo_copier demo_files demo_schedule (init demo_fs)).
Proof.
  pose proof demo_run_clean as Hs.
  destruct (run demo_copier demo_files demo_schedule (init demo_fs))
    as [s|] eqn:E; cbn [from_option] in *; [|exact Hs].
  destruct Hs as (Hm & Hc & Hok).
  destruct (C1_copy_mirrors_source_when_roots_apart demo_copier demo_files demo_fs)
    with (s := s) as (Hsame & _).
  - vm_compute. reflexivity.
  - exact demo_source_not_above.
  - exact demo_target_not_above.
  - exact demo_files_distinct.
  - exact demo_files_under.
  - vm_compute. lia.
  - eapply run_reachable; [apply reach_init | exact E].
  - exact Hm.
  - exact Hc.
  - exact (forallb_Success _ Hok).
  - destruct (Hsame ["x.txt"]) as (content & H0 & _ & H2).
    + apply list_elem_of_here.
    + exists content. exact (conj H0 H2).
Defined.

(** ** Where the copy engine writes *)

Section Grows.
Implicit Types (fs : fsys) (p q d : path).

Lemma grows_refl P fs : grows P fs fs.
Proof. intros p. by left. Qed.

Lemma grows_trans P fs1 fs2 fs3 : grows P fs1 fs2 → grows P fs2 fs3 → grows P fs1 fs3.
Proof.
  intros H12 H23 p.
  destruct (H23 p) as [E23|[HP [[N2 D3]|[[c3 F3] ND2]]]];
    destruct (H12 p) as [E12|[HP' [[N1 D2]|[[c2 F2] ND1]]]].
  - left. congruence.
  - right. split; [done|]. left. split; congruence.
  - right. split; [done|]. right. split; [|done]. exists c2. congruence.
  - right. split; [done|]. left. split; congruence.
  - congruence.
  - congruence.
  - right. split; [done|]. right. split; [by exists c3|].
    intros b. rewrite <- E12. apply ND2.
  - by destruct (ND2 true).
  - right. split; [done|]. right. split; [by exists c3|done].
Qed.

Lemma grows_weaken (P Q : path → Prop) fs fs' :
  (∀ p, P p → Q p) → grows P fs fs' → grows Q fs fs'.
Proof. intros HPQ H p. destruct (H p) as [E|[HP Hc]]; [by left|right; auto]. Qed.

Lemma adds_dirs_grows P fs fs' : adds_dirs P fs fs' → grows P fs fs'.
Proof. intros H p. destruct (H p) as [E|(N & D & HP)]; [by left|right; auto]. Qed.

Lemma insert_file_grows fs p content :
  (∀ b, fs !! p ≠ Some (Folder b)) → grows (λ q, q = p) fs (<[p := File content]> fs).
Proof.
  intros Hnd q. destruct (decide (p = q)) as [->|Hne].
  - right. split; [done|]. right. rewrite lookup_insert_eq. eauto.
  - left. by rewrite lookup_insert_ne.
Qed.

(** What has grown has lost nothing: a file is still a file, a directory is
    the directory it was. *)
Lemma grows_keeps P fs fs' :
  grows P fs fs' →
  (∀ p content, fs !! p = Some (File content) → ∃ content', fs' !! p = Some (File content'))
  ∧ (∀ p b, fs !! p = Some (Folder b) → fs' !! p = Some (Folder b)).
Proof.
  intros H. split.
  - intros p content Hp. destruct (H p) as [E|[_ [[N _]|[[c' F] _]]]].
    + exists content. congruence.
    + congruence.
    + by exists c'.
  - intros p b Hp. destruct (H p) as [E|[_ [[N _]|[_ ND]]]].
    + congruence.
    + congruence.
    + by destruct (ND b).
Qed.

End Grows.

Section Confined.
Variable c : Copier.
Variable files : list path.
Variable fs0 : fsys.
Variable P : path → Prop.

Hypothesis P_destination :
  ∀ f rel q, f ∈ files → Rel (sourceDir c) f = Some rel →
             q `prefix_of` Join (targetDir c) rel → P q.
Hypothesis P_skeleton : ∀ fs, adds_dirs P fs (ensureAllDirectories c fs).

Lemma copy_begin_grows fs f :
  f ∈ files →
  grows P fs (copy_begin c fs f).1
  ∧ ∀ src dst size off, (copy_begin c fs f).2 = WCopy src dst size off → P dst.
Proof.
  intros Hf.
  destruct (copy_begin_cases c fs f)
    as [[[-> | (rel & Hrel & Hmk)] (e & size & ->)]
       | (rel & fs1 & info & Hrel & Hmk & _ & Hcr & ->)].
  - split; [apply grows_refl|done].
  - split; [|done]. apply adds_dirs_grows.
    eapply adds_dirs_weaken; [|by eapply MkdirAll_spec].
    intros q Hq. eapply P_destination; [done..|].
    etrans; [exact Hq|apply parent_prefix].
  - split.
    + eapply grows_trans.
      * apply adds_dirs_grows. eapply adds_dirs_weaken; [|by eapply MkdirAll_spec].
        intros q Hq. eapply P_destination; [done..|].
        etrans; [exact Hq|apply parent_prefix].
      * apply Create_spec in Hcr as [-> Hnd].
        eapply grows_weaken; [|by apply insert_file_grows].
        intros q ->. by eapply P_destination.
    + intros src dst size off [= <- <- <- <-]. by eapply P_destination.
Qed.

Lemma copy_chunk_grows fs b src dst size off n :
  P dst →
  grows P fs (copy_chunk c fs b src dst size off n).1
  ∧ ∀ src' dst' size' off',
      (copy_chunk c fs b src dst size off n).2 = WCopy src' dst' size' off' → P dst'.
Proof.
  intros HP.
  destruct (copy_chunk_cases c fs b src dst size off n)
    as [[-> (r & -> & _)] | (_ & content & old & data & _ & Hd & _ & _ & -> & ->)].
  - split; [apply grows_refl|done].
  - split.
    + eapply grows_weaken; [|apply insert_file_grows]; [by intros q ->|].
      intros b0. congruence.
    + by intros src' dst' size' off' [= <- <- <- <-].
Qed.

Lemma confined_inv_init : confined_inv P files fs0 (init fs0).
Proof.
  split; simpl.
  - apply grows_refl.
  - intros i src dst size off H. by rewrite lookup_nil in H.
  - intros f Hf. unfold tosend in Hf. simpl in Hf. by rewrite app_nil_r in Hf.
Qed.

Lemma dst_insert (ws : list worker) i w :
  (∀ j src dst size off, ws !! j = Some (WCopy src dst size off) → P dst) →
  (∀ src dst size off, w = WCopy src dst size off → P dst) →
  ∀ j src dst size off, <[i := w]> ws !! j = Some (WCopy src dst size off) → P dst.
Proof.
  intros Hws Hw j src dst size off Hj. destruct (decide (i = j)) as [->|Hne].
  - apply list_lookup_insert_Some in Hj as [(_ & -> & _)|[? _]]; [|done].
    by eapply Hw.
  - rewrite list_lookup_insert_ne in Hj by done. by eapply Hws.
Qed.

Lemma confined_inv_step s l s' :
  confined_inv P files fs0 s → exec c files l s = Some s' →
  confined_inv P files fs0 s'.
Proof.
  intros [Hfs Hws Hq] H.
  exec_inv H; split; unfold_state; main_pc.
  all: try done.
  all: try (apply dst_insert; [exact Hws|]; try done).
  all: try (intros f Hf; apply Hq;
            rewrite ?elem_of_app, ?elem_of_cons, ?elem_of_nil in *; tauto).
  all: try match goal with
         | E : Chan.buf (fileChan _) = ?f :: _ |- _ =>
             assert (f ∈ files) as Hin
               by (apply Hq; rewrite ?elem_of_app, ?elem_of_cons; tauto)
         end.
  all: try (eapply grows_trans; [exact Hfs|]).
  all: try by apply copy_begin_grows.
  all: try (apply copy_chunk_grows; by eapply Hws).
  all: try by apply adds_dirs_grows, P_skeleton.
  intros i src dst size off [Hw _]%lookup_replicate. discriminate Hw.
Qed.

Lemma confined_inv_reachable s : reachable c files fs0 s → confined_inv P files fs0 s.
Proof. induction 1; eauto using confined_inv_init, confined_inv_step. Qed.

End Confined.
(** ** The directory pass *)

Section Walk.
Implicit Types (fs : fsys) (p q d : path).

Lemma mkdir_from_succeeds rest : ∀ fs pre,
  (∀ q content, q `prefix_of` pre ++ rest → fs !! q ≠ Some (File content)) →
  ∃ fs', mkdir_from fs pre rest = Some fs'.
Proof.
  induction rest as [|x rest IH]; intros fs pre Hfree; simpl; [eauto|].
  assert (∀ q, q `prefix_of` (pre ++ [x]) ++ rest → q `prefix_of` pre ++ x :: rest) as Hw.
  { intros q. by rewrite <- app_assoc. }
  destruct (fs !! (pre ++ [x])) as [[content|b]|] eqn:E.
  - destruct (Hfree (pre ++ [x]) content); [|done].
    exists rest. by rewrite <- app_assoc.
  - apply IH. intros q content Hq. apply Hfree. auto.
  - apply IH. intros q content Hq.
    destruct (decide (q = pre ++ [x])) as [->|Hne].
    + by rewrite lookup_insert_eq.
    + rewrite lookup_insert_ne by done. apply Hfree. auto.
Qed.

(** [os.MkdirAll] succeeds when the volume is there and no file is in the
    way. *)
Lemma MkdirAll_succeeds fs vol rest :
  (∃ b, fs !! [vol] = Some (Folder b)) →
  (∀ q content, q `prefix_of` vol :: rest → fs !! q ≠ Some (File content)) →
  ∃ fs', MkdirAll fs (vol :: rest) = Some fs'.
Proof.
  intros [b Hb] Hfree. unfold MkdirAll. rewrite Hb.
  by apply (mkdir_from_succeeds rest fs [vol]).
Qed.

Lemma foldl_preserves {A B} (P : A → Prop) (f : A → B → A) (l : list B) :
  (∀ a x, x ∈ l → P a → P (f a x)) → ∀ a, P a → P (foldl f a l).
Proof.
  induction l as [|x l IH]; intros Hf a Ha; simpl; [done|].
  apply IH.
  - intros a' y Hy. apply Hf. by apply list_elem_of_further.
  - apply Hf; [apply list_elem_of_here|done].
Qed.

(** A path of directories is no longer than the tree is large. *)
Lemma walk_reaches_depth fs root r :
  walk_reaches fs root r → (length r < walk_depth fs)%nat.
Proof.
  intros [[b Hd] Hchain]. unfold walk_depth.
  set (l := (λ i, root ++ take i r) <$> seq 0 (length r)).
  assert (NoDup l) as Hnd.
  { apply NoDup_fmap_2_strong; [|apply NoDup_seq].
    intros i j Hi Hj E. apply app_inv_head in E.
    apply elem_of_seq in Hi, Hj.
    assert (length (take i r) = length (take j r)) as Hlen by by rewrite E.
    rewrite !length_take in Hlen. lia. }
  assert (l ⊆+ (map_to_list fs).*1) as Hsub.
  { apply NoDup_submseteq; [done|]. intros q Hq.
    apply list_elem_of_fmap in Hq as (i & -> & Hi). apply elem_of_seq in Hi.
    apply list_elem_of_fmap. exists (root ++ take i r, Folder true). split; [done|].
    apply elem_of_map_to_list. apply Hchain. lia. }
  apply submseteq_length in Hsub.
  rewrite length_fmap, length_map_to_list in Hsub.
  unfold l in Hsub. rewrite length_fmap, length_seq in Hsub. lia.
Qed.

Lemma WalkDir_dir (k : nat) (fn : fsys → path → bool → fsys) fs p :
  WalkDir (S k) fn fs p true
  = match ReadDir (fn fs p true) p with
    | Some es => foldl (λ acc e, WalkDir k fn acc (p ++ [e.1]) e.2) (fn fs p true) es
    | None => fn fs p true
    end.
Proof. done. Qed.

End Walk.
Section Skeleton.
Variable c : Copier.
Variable fs : fsys.
Hypothesis source_not_above : ¬ sourceDir c `prefix_of` targetDir c.
Hypothesis target_not_above : ¬ targetDir c `prefix_of` sourceDir c.
Hypothesis free : way_free c fs.

Lemma on_the_way_free cur q content r :
  on_the_way c fs cur → walk_reaches fs (sourceDir c) r →
  q `prefix_of` targetDir c ++ r → cur !! q ≠ Some (File content).
Proof.
  intros Hcur Hr Hq. destruct (Hcur q) as [E|(_ & E & _)]; [|congruence].
  rewrite E. by eapply (proj2 free).
Qed.

Lemma ensure_fn_creates cur r :
  on_the_way c fs cur → walk_reaches fs (sourceDir c) r →
  ∃ b, ensure_fn c cur (sourceDir c ++ r) true !! (targetDir c ++ r) = Some (Folder b).
Proof.
  intros Hcur Hr. unfold ensure_fn.
  rewrite Rel_under by by apply source_nonempty. rewrite Join_zero. cbv zeta.
  match goal with
  | |- context [MkdirAll cur ?d] =>
      assert (d = targetDir c ++ r) as ->
        by (case_decide as E; [injection E as ->; by rewrite app_nil_r|done])
  end.
  destruct free as [(vol & rest & b & Ht & Hvol) _].
  destruct (MkdirAll_succeeds cur vol (rest ++ r)) as [fs' Hmk].
  - destruct (Hcur [vol]) as [E|(_ & E & _)]; [|eauto]. rewrite E. eauto.
  - intros q content Hq. eapply on_the_way_free; [done..|]. by rewrite Ht.
  - rewrite app_comm_cons, <- Ht in Hmk. rewrite Hmk. simpl.
    by apply MkdirAll_dir in Hmk.
Qed.

(** A directory of the target that is there stays there. *)
Lemma ensure_fn_keeps q cur p isdir :
  sourceDir c `prefix_of` p → made c fs q cur → made c fs q (ensure_fn c cur p isdir).
Proof.
  intros Hp [Hcur [b Hb]]. split.
  - eapply adds_dirs_trans; [exact Hcur|]. by apply ensure_fn_toward.
  - destruct (ensure_fn_adds c cur p isdir q) as [E|(E & _)]; [|congruence].
    exists b. congruence.
Qed.

Lemma walk_keeps q k cur p isdir :
  sourceDir c `prefix_of` p → made c fs q cur → made c fs q (WalkDir k (ensure_fn c) cur p isdir).
Proof.
  intros Hp Hm.
  apply (WalkDir_preserves (made c fs q) (ensure_fn c) (sourceDir c)); [|done..].
  intros cur' p' isdir'. apply ensure_fn_keeps.
Qed.

Lemma walk_on_the_way k cur p isdir :
  sourceDir c `prefix_of` p → on_the_way c fs cur →
  on_the_way c fs (WalkDir k (ensure_fn c) cur p isdir).
Proof.
  intros Hp Hcur.
  apply (WalkDir_preserves (on_the_way c fs) (ensure_fn c) (sourceDir c)); [|done..].
  intros cur' p' isdir' Hp' H. eapply adds_dirs_trans; [exact H|].
  by apply ensure_fn_toward.
Qed.

Lemma walk_reaches_prefix r0 r :
  walk_reaches fs (sourceDir c) (r0 ++ r) → walk_reaches fs (sourceDir c) r0.
Proof.
  intros [[b Hd] Hchain]. split.
  - destruct r as [|x r].
    + rewrite app_nil_r in Hd. eauto.
    + exists true. specialize (Hchain (length r0)).
      rewrite take_app_length in Hchain. apply Hchain.
      rewrite length_app. simpl. lia.
  - intros i Hi. specialize (Hchain i).
    rewrite take_app_le in Hchain by lia. apply Hchain. rewrite length_app. lia.
Qed.

Lemma walk_creates k : ∀ cur r0 r,
  on_the_way c fs cur → walk_reaches fs (sourceDir c) (r0 ++ r) → (length r < k)%nat →
  made c fs (targetDir c ++ r0 ++ r) (WalkDir k (ensure_fn c) cur (sourceDir c ++ r0) true).
Proof.
  induction k as [|k IH]; intros cur r0 r Hcur Hr Hlen; [lia|].
  pose proof (walk_reaches_prefix r0 r Hr) as Hr0.
  assert (sourceDir c `prefix_of` sourceDir c ++ r0) as Hpre by by apply prefix_app_r.
  rewrite WalkDir_dir.
  set (fs1 := ensure_fn c cur (sourceDir c ++ r0) true).
  assert (on_the_way c fs fs1) as H1.
  { eapply adds_dirs_trans; [exact Hcur|]. by apply ensure_fn_toward. }
  destruct r as [|x r].
  - rewrite app_nil_r in *.
    assert (made c fs (targetDir c ++ r0) fs1) as Hm.
    { split; [done|]. by apply ensure_fn_creates. }
    destruct (ReadDir fs1 (sourceDir c ++ r0)) as [es|]; [|done].
    apply foldl_preserves; [|done].
    intros a e _. apply walk_keeps.
    rewrite <- app_assoc. by apply prefix_app_r.
  - assert (fs !! (sourceDir c ++ r0) = Some (Folder true)) as Hd.
    { destruct Hr as [_ Hchain]. specialize (Hchain (length r0)).
      rewrite take_app_length in Hchain. apply Hchain.
      rewrite length_app. simpl. lia. }
    assert (walk_reaches fs (sourceDir c) ((r0 ++ [x]) ++ r)) as Hr'
      by by rewrite <- app_assoc.
    destruct (walk_reaches_prefix _ _ Hr') as [[b Hx] _].
    assert (∀ a, on_the_way c fs a → ∀ q, sourceDir c `prefix_of` q → a !! q = fs !! q) as Hsrc.
    { intros a Ha q Hq. by apply (adds_dirs_source c). }
    unfold ReadDir. rewrite (Hsrc fs1 H1), Hd by done.
    assert ((x, true) ∈ entries_of fs1 (sourceDir c ++ r0)) as Hin.
    { apply elem_of_entries_of. exists (Folder b). split; [|done].
      rewrite (Hsrc fs1 H1).
      - by rewrite <- app_assoc.
      - rewrite <- app_assoc. by apply prefix_app_r. }
    apply list_elem_of_split in Hin as (es1 & es2 & ->).
    rewrite foldl_app. simpl.
    set (a1 := foldl _ fs1 es1).
    assert (on_the_way c fs a1) as Ha1.
    { apply (foldl_preserves (on_the_way c fs)); [|done].
      intros a e _. apply walk_on_the_way.
      rewrite <- app_assoc. by apply prefix_app_r. }
    apply foldl_preserves.
    + intros a e _. apply walk_keeps.
      rewrite <- app_assoc. by apply prefix_app_r.
    + simpl.
      replace (targetDir c ++ r0 ++ x :: r) with (targetDir c ++ (r0 ++ [x]) ++ r)
        by by rewrite <- !app_assoc.
      replace ((sourceDir c ++ r0) ++ [x]) with (sourceDir c ++ (r0 ++ [x]))
        by by rewrite app_assoc.
      apply IH; [done..|]. simpl in Hlen. lia.
Qed.

Lemma walk_reaches_root r :
  walk_reaches fs (sourceDir c) r → ∃ b, fs !! sourceDir c = Some (Folder b).
Proof.
  intros Hr. destruct (walk_reaches_prefix [] r Hr) as [[b Hb] _].
  rewrite app_nil_r in Hb. eauto.
Qed.

Lemma ensureAllDirectories_mirrors r :
  walk_reaches fs (sourceDir c) r →
  ∃ b, ensureAllDirectories c fs !! (targetDir c ++ r) = Some (Folder b).
Proof.
  intros Hr. destruct (walk_reaches_root r Hr) as [b Hb].
  unfold ensureAllDirectories, Stat. rewrite Hb. simpl.
  pose proof (walk_creates (walk_depth fs) fs [] r) as H.
  rewrite !app_nil_r in H. simpl in H. apply H; [apply adds_dirs_refl|done|].
  by eapply walk_reaches_depth.
Qed.

(** X7: when neither root lies inside the other and no file stands in the
    way in the target, [ensureAllDirectories] leaves a directory at the
    mirrored path of every directory that a walk of the source tree gets to
    (directories without files included), and changes nothing in the source
    tree. *)
Theorem X7_ensureAllDirectories_mirrors_every_directory r :
  walk_reaches fs (sourceDir c) r →
  (∃ b, ensureAllDirectories c fs !! (targetDir c ++ r) = Some (Folder b))
  ∧ ∀ p, sourceDir c `prefix_of` p → ensureAllDirectories c fs !! p = fs !! p.
Proof.
  intros Hr. split; [by apply ensureAllDirectories_mirrors|].
  intros p Hp. apply (adds_dirs_source c); [done..| |done].
  by apply ensureAllDirectories_toward.
Qed.

End Skeleton.
(** ** Further properties of a copy run *)

Section Run.
Variable c : Copier.
Variable files : list path.
Variable fs0 : fsys.

(** X1: a copy run never removes or replaces anything, whatever the
    interleaving, the faults and the cancellations: a path that held a file
    still holds a file, and a directory is still the directory it was. *)
Theorem X1_run_never_removes s :
  reachable c files fs0 s →
  (∀ p content, fs0 !! p = Some (File content) →
                ∃ content', fs s !! p = Some (File content'))
  ∧ (∀ p b, fs0 !! p = Some (Folder b) → fs s !! p = Some (Folder b)).
Proof.
  intros Hr. eapply (grows_keeps (λ _, True)).
  eapply (confined_inv_reachable c files fs0 (λ _, True)); [done| |exact Hr].
  apply ensureAllDirectories_adds.
Qed.

Lemma toward_target_destination f rel q :
  sourceDir c ≠ [] → sourceDir c `prefix_of` f →
  Rel (sourceDir c) f = Some rel → q `prefix_of` Join (targetDir c) rel →
  toward_target c q.
Proof.
  intros Hne [r ->] Hrel Hq. rewrite Rel_under in Hrel by done.
  injection Hrel as <-. rewrite Join_zero in Hq. by exists r.
Qed.

(** X2: when neither root lies inside the other and the files of the list lie
    below the source root, a copy run changes nothing outside the target tree
    and the directories that lead to it; in particular the source tree is
    never modified. *)
Theorem X2_run_writes_only_toward_target s :
  ¬ sourceDir c `prefix_of` targetDir c →
  ¬ targetDir c `prefix_of` sourceDir c →
  (∀ f, f ∈ files → sourceDir c `prefix_of` f) →
  reachable c files fs0 s →
  (∀ p, ¬ toward_target c p → fs s !! p = fs0 !! p)
  ∧ (∀ p, sourceDir c `prefix_of` p → fs s !! p = fs0 !! p).
Proof.
  intros Hsa Hta Hunder Hr.
  assert (sourceDir c ≠ []) as Hne.
  { intros E. apply Hsa. rewrite E. apply prefix_nil. }
  assert (grows (toward_target c) fs0 (fs s)) as Hg.
  { eapply (confined_inv_reachable c files fs0 (toward_target c)); [| |exact Hr].
    - intros f rel q Hf. apply toward_target_destination; auto.
    - by apply ensureAllDirectories_toward. }
  assert (∀ p, ¬ toward_target c p → fs s !! p = fs0 !! p) as Hout.
  { intros p Hp. by destruct (Hg p) as [E|[HP _]]. }
  split; [done|]. intros p Hp. apply Hout. intros Ht.
  by eapply toward_target_outside.
Qed.

(** X3: the error stream of the copier never carries anything: no step of
    the engine sends on it, so a failed copy shows only in its result. *)
Theorem X3_copier_error_stream_stays_empty s :
  reachable c files fs0 s → Chan.buf (errCh s) = [].
Proof.
  induction 1 as [|s l s' _ IH H]; [done|].
  exec_inv H; unfold_state; done.
Qed.

End Run.
Section Complete.
Variable c : Copier.
Variable files : list path.
Variable fs0 : fsys.
Hypothesis files_fit : Z.of_nat (length files) < 2 ^ 63.

(** What a finished run without cancellation has done: every worker is gone,
    the queue is empty and every file of the list was attempted. *)
Lemma finished_run s :
  (1 ≤ workerCount c)%nat → files ≠ [] →
  reachable c files fs0 s → main s = MDone → canceled s = false →
  quiescent s ∧ attempts s ≡ₚ files.
Proof.
  intros Hwc Hne Hr Hm Hcf.
  pose proof (drain_inv_reachable c files fs0 s Hr) as [Hdall Hdexit _ Hdpool].
  pose proof (shutdown_inv_reachable c files fs0 s Hr) as [Hshut _].
  assert (Hex : Forall (λ w, w = WExit) (workers s)).
  { apply Hshut; [done|]. right. by right. }
  split.
  { eapply Forall_impl; [exact Hex|]. intros w ->. by right. }
  assert (Hw0 : workers s !! 0%nat = Some WExit).
  { assert (0 < length (workers s))%nat as Hlen.
    { rewrite Hdpool; [lia| |done]. by rewrite Hm. }
    destruct (lookup_lt_is_Some_2 _ _ Hlen) as [w Hw].
    by rewrite (Forall_lookup_1 _ _ _ _ Hex Hw) in Hw. }
  destruct (Hdexit Hcf _ Hw0) as [Hbuf _].
  specialize (Hdall Hcf). unfold tosend in Hdall. rewrite Hm, Hbuf in Hdall.
  done.
Qed.

(** X5: a run that has ended without cancellation has sent exactly one
    result for every file of the list, failed copies included, and its
    counters add up: completed plus failed is the total, the length of the
    list. *)
Theorem X5_every_file_gets_a_result s :
  (1 ≤ workerCount c)%nat →
  reachable c files fs0 s → main s = MDone → canceled s = false →
  FilePath <$> emitted s ≡ₚ files
  ∧ CompletedFiles (progress s) + FailedFiles (progress s) = Z.of_nat (length files).
Proof.
  intros Hwc Hr Hm Hcf.
  destruct (decide (files = [])) as [Hnil|Hne].
  { subst files. destruct (empty_inv_reachable c fs0 s Hr) as [_ He _ _ _ _ _ _ _].
    pose proof (counters_inv_reachable c [] fs0 files_fit s Hr)
      as [Hok Hfail _ _ _ Hnn Hstart].
    pose proof (empty_inv_reachable c fs0 s Hr) as [_ _ _ _ Hw _ _ _ _].
    rewrite He, Hw in *. simpl in *. split; [done|]. unfold n_ok, n_failed in *.
    simpl in *. lia. }
  destruct (finished_run s Hwc Hne Hr Hm Hcf) as [Hq Hall].
  pose proof (counters_inv_reachable c files fs0 files_fit s Hr)
    as [Hok Hfail Hatt _ _ _ _].
  rewrite (quiescent_src s Hq), app_nil_r in Hatt.
  rewrite (quiescent_counting s Hq) in Hok, Hfail.
  rewrite n_ok_nil in Hok. rewrite n_failed_nil in Hfail.
  split; [by rewrite Hatt|].
  pose proof (n_ok_failed (emitted s)) as Hlen.
  assert (length (emitted s) = length files) as Hcount.
  { rewrite <- Hall, <- Hatt. by rewrite length_fmap. }
  lia.
Qed.

(** The queue of a run is as long as the list. *)
Lemma fileChan_cap s :
  reachable c files fs0 s → main s ≠ MInit → files ≠ [] →
  Chan.cap (fileChan s) = length files.
Proof.
  induction 1 as [|s l s' _ IH H]; [done|].
  exec_inv H; unfold_state; main_pc; try done; intros; try (by apply IH);
    try (rewrite <- IH by done; congruence).
  all: match goal with
       | E : length files = 0%nat, Hne : files ≠ [] |- _ =>
           by destruct (Hne (nil_length_inv _ E))
       end.
Qed.

(** X6: the goroutine that queues the files never waits: the queue is made
    as long as the list, so each send finds room at once. *)
Theorem X6_queueing_never_waits s file rest :
  reachable c files fs0 s → panicked s = false → main s = MSend (file :: rest) →
  exec c files LMain s
  = Some (with_main (MSend rest) (with_fileChan (Chan.push file (fileChan s)) s)).
Proof.
  intros Hr Hp Hm.
  pose proof (counters_inv_reachable c files fs0 files_fit s Hr)
    as [_ _ _ Hfiles _ _ _].
  assert (files ≠ []) as Hne.
  { intros E. rewrite E in Hr.
    destruct (empty_inv_reachable c fs0 s Hr) as [_ _ _ _ _ _ _ [Hm'|Hm'] _];
      congruence. }
  pose proof (fileChan_cap s Hr) as Hcap.
  unfold tosend in Hfiles. rewrite Hm in Hfiles.
  apply submseteq_length in Hfiles. rewrite !length_app in Hfiles. simpl in Hfiles.
  unfold exec, step_main. rewrite Hp, Hm.
  unfold Chan.has_room. rewrite bool_decide_eq_true_2; [done|].
  rewrite Hcap; [lia| |done]. by rewrite Hm.
Qed.

End Complete.

(** ** The directory pass comes before the workers *)

Section SkeletonFirst.
Variable c : Copier.
Variable files : list path.
Variable fs0 : fsys.

Lemma copy_begin_grows_any fs f : grows (λ _, True) fs (copy_begin c fs f).1.
Proof.
  eapply (copy_begin_grows c [f] (λ _, True)); [done|]. apply list_elem_of_here.
Qed.

Lemma copy_chunk_grows_any fs b src dst size off n :
  grows (λ _, True) fs (copy_chunk c fs b src dst size off n).1.
Proof. by eapply (copy_chunk_grows c (λ _, True)). Qed.

Lemma skeleton_inv_init : skeleton_inv c files fs0 (init fs0).
Proof. split; simpl; done. Qed.

Lemma skeleton_inv_step s l s' :
  skeleton_inv c files fs0 s → exec c files l s = Some s' →
  skeleton_inv c files fs0 s'.
Proof.
  intros [Hst Hmade] H.
  exec_inv H; split; unfold_state; main_pc.
  all: try done.
  all: try (intros _ Hne; destruct (Hst eq_refl) as [_ ->]; apply grows_refl).
  all: try (intros _ Hne; by destruct Hne; apply nil_length_inv).
  all: try (intros Hm; destruct (Hst Hm) as [Hw _]; rewrite Hw in *;
            match goal with E : [] !! _ = Some _ |- _ => by rewrite lookup_nil in E end).
  all: try (intros Hm Hne; specialize (Hmade ltac:(congruence) Hne)).
  all: try exact Hmade.
  all: try (eapply grows_trans; [exact Hmade|]).
  all: try apply copy_begin_grows_any.
  all: try apply copy_chunk_grows_any.
Qed.

Lemma skeleton_inv_reachable s : reachable c files fs0 s → skeleton_inv c files fs0 s.
Proof. induction 1; eauto using skeleton_inv_init, skeleton_inv_step. Qed.

(** X8: the directory pass is over before any file is copied, when nothing
    is in its way.  Take a source root and a target root of which neither
    lies inside the other, a target whose volume exists and in which no regular
    file stands where the pass has to make a directory (at the start no file
    is at, or above, the mirror position of a source directory that the walk
    gets to), and a non-empty list of files.  Then in every run, from the
    moment the workers exist, every directory that a walk of the source tree
    gets to has its mirrored directory in the target, and keeps it until the
    end of the run.  Without the condition on the target a directory that
    cannot be made is passed over (the error of [os.MkdirAll] is dropped)
    and the copy goes on all the same. *)
Theorem X8_directories_made_before_any_file_is_copied s r :
  ¬ sourceDir c `prefix_of` targetDir c →
  ¬ targetDir c `prefix_of` sourceDir c →
  way_free c fs0 → files ≠ [] →
  reachable c files fs0 s → main s ≠ MInit →
  walk_reaches fs0 (sourceDir c) r →
  ∃ b, fs s !! (targetDir c ++ r) = Some (Folder b).
Proof.
  intros Hsa Hta Hfree Hne Hr Hm Hw.
  destruct (ensureAllDirectories_mirrors c fs0 Hsa Hta Hfree r Hw) as [b Hb].
  exists b. eapply (grows_keeps (λ _, True)); [|exact Hb].
  by apply (skel_made c files fs0 s (skeleton_inv_reachable s Hr)).
Qed.

End SkeletonFirst.


(** *** The statements on the small run *)

Lemma demo_lookup_file q content :
  demo_fs !! q = Some (File content) →
  q = [""; "src"; "x.txt"] ∨ q = [""; "src"; "sub"; "y.txt"].
Proof.
  intros Hq. unfold demo_fs in Hq. apply elem_of_list_to_map_2 in Hq.
  repeat (apply elem_of_cons in Hq as [Hq|Hq];
          [injection Hq as -> ?; first [discriminate | auto]|]).
  by apply elem_of_nil in Hq.
Qed.

Lemma demo_way_free : way_free demo_copier demo_fs.
Proof.
  split.
  - exists "", ["dst"], true. split; reflexivity.
  - intros r _ q content [k Hk] Hq.
    apply demo_lookup_file in Hq as [-> | ->]; discriminate Hk.
Qed.

Lemma demo_walk_reaches : walk_reaches demo_fs [""; "src"] ["sub"; "empty"].
Proof.
  split; [by exists true|].
  intros [|[|i]] Hi; [reflexivity..|simpl in Hi; lia].
Qed.

Lemma demo_files_fit : Z.of_nat (length demo_files) < 2 ^ 63.
Proof. vm_compute. reflexivity. Qed.

Lemma X1_run_never_removes_witness :
  from_option
    (λ s, (∀ p content, demo_fs !! p = Some (File content) →
                        ∃ content', fs s !! p = Some (File content'))
          ∧ (∀ p b, demo_fs !! p = Some (Folder b) → fs s !! p = Some (Folder b)))
    False (run demo_copier demo_files demo_schedule (init demo_fs)).
Proof.
  pose proof demo_run_clean as Hs.
  destruct (run demo_copier demo_files demo_schedule (init demo_fs))
    as [s|] eqn:E; cbn [from_option] in *; [|exact Hs].
  apply (X1_run_never_removes demo_copier demo_files demo_fs).
  eapply run_reachable; [apply reach_init | exact E].
Defined.

Lemma X2_run_writes_only_toward_target_witness :
  from_option
    (λ s, (∀ p, ¬ toward_target demo_copier p → fs s !! p = demo_fs !! p)
          ∧ (∀ p, sourceDir demo_copier `prefix_of` p → fs s !! p = demo_fs !! p))
    False (run demo_copier demo_files demo_schedule (init demo_fs)).
Proof.
  pose proof demo_run_clean as Hs.
  destruct (run demo_copier demo_files demo_schedule (init demo_fs))
    as [s|] eqn:E; cbn [from_option] in *; [|exact Hs].
  apply (X2_run_writes_only_toward_target demo_copier demo_files demo_fs).
  - exact demo_source_not_above.
  - exact demo_target_not_above.
  - exact demo_files_under.
  - eapply run_reachable; [apply reach_init | exact E].
Defined.

Lemma X3_copier_error_stream_stays_empty_witness :
  from_option (λ s, Chan.buf (errCh s) = [])
    False (run demo_copier demo_files demo_schedule (init demo_fs)).
Proof.
  pose proof demo_run_clean as Hs.
  destruct (run demo_copier demo_files demo_schedule (init demo_fs))
    as [s|] eqn:E; cbn [from_option] in *; [|exact Hs].
  apply (X3_copier_error_stream_stays_empty demo_copier demo_files demo_fs).
  eapply run_reachable; [apply reach_init | exact E].
Defined.

Lemma X5_every_file_gets_a_result_witness :
  from_option
    (λ s, FilePath <$> emitted s ≡ₚ demo_files
          ∧ CompletedFiles (progress s) + FailedFiles (progress s)
            = Z.of_nat (length demo_files))
    False (run demo_copier demo_files demo_schedule (init demo_fs)).
Proof.
  pose proof demo_run_clean as Hs.
  destruct (run demo_copier demo_files demo_schedule (init demo_fs))
    as [s|] eqn:E; cbn [from_option] in *; [|exact Hs].
  destruct Hs as (Hm & Hc & _).
  apply (X5_every_file_gets_a_result demo_copier demo_files demo_fs).
  - exact demo_files_fit.
  - vm_compute. lia.
  - eapply run_reachable; [apply reach_init | exact E].
  - exact Hm.
  - exact Hc.
Defined.

Lemma demo_run_queueing :
  from_option (λ s, panicked s = false ∧ main s = MSend demo_files)
    False (run demo_copier demo_files [LMain] (init demo_fs)).
Proof. vm_compute. split; reflexivity. Qed.

Lemma X6_queueing_never_waits_witness :
  from_option
    (λ s, exec demo_copier demo_files LMain s
          = Some (with_main (MSend [ [""; "src"; "sub"; "y.txt"] ])
                    (with_fileChan (Chan.push [""; "src"; "x.txt"] (fileChan s)) s)))
    False (run demo_copier demo_files [LMain] (init demo_fs)).
Proof.
  pose proof demo_run_queueing as Hs.
  destruct (run demo_copier demo_files [LMain] (init demo_fs))
    as [s|] eqn:E; cbn [from_option] in *; [|exact Hs].
  destruct Hs as [Hp Hm].
  apply (X6_queueing_never_waits demo_copier demo_files demo_fs).
  - exact demo_files_fit.
  - eapply run_reachable; [apply reach_init | exact E].
  - exact Hp.
  - exact Hm.
Defined.

Lemma X7_ensureAllDirectories_mirrors_every_directory_witness :
  (∃ b, ensureAllDirectories demo_copier demo_fs !! [""; "dst"; "sub"; "empty"]
        = Some (Folder b))
  ∧ ∀ p, sourceDir demo_copier `prefix_of` p →
         ensureAllDirectories demo_copier demo_fs !! p = demo_fs !! p.
Proof.
  apply (X7_ensureAllDirectories_mirrors_every_directory demo_copier demo_fs
           demo_source_not_above demo_target_not_above demo_way_free
           ["sub"; "empty"]).
  exact demo_walk_reaches.
Defined.

Lemma demo_run_started :
  from_option (λ s, main s ≠ MInit)
    False (run demo_copier demo_files (take 6 demo_schedule) (init demo_fs)).
Proof. vm_compute. discriminate. Qed.

Lemma X8_directories_made_before_any_file_is_copied_witness :
  from_option
    (λ s, ∃ b, fs s !! [""; "dst"; "sub"; "empty"] = Some (Folder b))
    False (run demo_copier demo_files (take 6 demo_schedule) (init demo_fs)).
Proof.
  pose proof demo_run_started as Hs.
  destruct (run demo_copier demo_files (take 6 demo_schedule) (init demo_fs))
    as [s|] eqn:E; cbn [from_option] in *; [|exact Hs].
  apply (X8_directories_made_before_any_file_is_copied demo_copier demo_files demo_fs
           s ["sub"; "empty"]).
  - exact demo_source_not_above.
  - exact demo_target_not_above.
  - exact demo_way_free.
  - discriminate.
  - eapply run_reachable; [apply reach_init | exact E].
  - exact Hs.
  - exact demo_walk_reaches.
Defined.

(** ** The monitor and [Close] *)

Section Late.
Variable c : Copier.
Variable files : list path.
Variable fs0 : fsys.

Lemma monitor_on_step s l s' :
  monitor_on s → exec c files l s = Some s' → monitor_on s'.
Proof.
  intros (Hinit & Hsend & Hwait) H.
  exec_inv H; (split; [|split]); unfold_state; try done.
  all: try (intros; split; [by apply Hinit|by left]).
  all: try (intros ? Hm; destruct (Hsend _ Hm) as [Hd Hmon]; split; [done|];
            first [by left | by right; eexists | done | congruence]).
  all: try (intros Hm; destruct (Hwait Hm) as [Hd Hmon]; split; [done|];
            first [by left | by right; eexists | done | congruence]).
  all: try (intros ? Hm; destruct (Hsend _ Hm) as [Hd Hmon]; congruence).
  all: try (intros Hm; destruct (Hwait Hm) as [Hd Hmon]; congruence).
  all: try (intros; by eapply Hsend).
  all: try (intros Hm; by destruct (Hinit Hm)).
Qed.

Lemma monitor_on_reachable s : reachable c files fs0 s → monitor_on s.
Proof.
  induction 1 as [|s l s' _ IH H]; [by repeat split|]. by eapply monitor_on_step.
Qed.

Lemma exec_clock s d :
  panicked s = false → 0 <= d →
  exec c files (LClock d) s = Some (with_now (now s + d) s).
Proof. intros Hp Hd. unfold exec. rewrite Hp. by rewrite decide_True. Qed.

Lemma exec_tick s :
  panicked s = false → mon s = MonIdle → next_tick s <= now s →
  ∃ s', exec c files LTick s = Some s'
        ∧ panicked s' = false ∧ main s' = main s ∧ ∃ p, mon s' = MonReady p.
Proof.
  intros Hp Hm Hd. unfold exec, step_tick. rewrite Hp, Hm.
  rewrite decide_True by done. eexists. split; [done|]. simpl. eauto.
Qed.

Lemma exec_final s :
  panicked s = false → main s = MFinal →
  ∃ s', exec c files LMain s = Some s'
        ∧ panicked s' = false ∧ main s' = MClosing ∧ mon s' = mon s.
Proof.
  intros Hp Hm. unfold exec, step_main. rewrite Hp, Hm. eexists. by split.
Qed.

Lemma exec_close s :
  panicked s = false → main s = MClosing →
  ∃ s', exec c files LMain s = Some s'
        ∧ panicked s' = false ∧ mon s' = mon s
        ∧ Chan.closed (progressCh s') = true.
Proof.
  intros Hp Hm. unfold exec, step_main. rewrite Hp, Hm. eexists. by split.
Qed.

Lemma exec_late_send s p :
  panicked s = false → mon s = MonReady p → Chan.closed (progressCh s) = true →
  exec c files LMonSend s = Some (with_panicked true s).
Proof.
  intros Hp Hm Hc. unfold exec, step_mon_send. by rewrite Hp, Hm, Hc.
Qed.

(** From the final stage on, with a snapshot in the hand of the monitor. *)
Lemma late_send s p :
  panicked s = false → main s = MFinal → mon s = MonReady p →
  ∃ s', run c files [LMain; LMain; LMonSend] s = Some s'
        ∧ Chan.closed (progressCh s') = true ∧ panicked s' = true.
Proof.
  intros Hp Hm Hmon. cbn [run].
  destruct (exec_final s Hp Hm) as (s1 & -> & Hp1 & Hm1 & Hmon1).
  destruct (exec_close s1 Hp1 Hm1) as (s2 & -> & Hp2 & Hmon2 & Hc2).
  rewrite (exec_late_send s2 p); [by eexists|done|congruence|done].
Qed.

(** X14: a copy run that has got to the point where all its workers have
    returned can still bring the program down: the monitor may take one more
    snapshot, and if [CopyFilesParallel] sends its final snapshot and closes
    the streams before the monitor sends, that send is a send on a closed
    channel, which panics. *)
Theorem X14_copy_monitor_can_send_after_close s s1 :
  reachable c files fs0 s → main s = MWait →
  exec c files LMain s = Some s1 →
  ∃ sched s', run c files sched s = Some s'
              ∧ Chan.closed (progressCh s') = true ∧ panicked s' = true.
Proof.
  intros Hr Hm H1.
  destruct (monitor_on_reachable s Hr) as (_ & _ & Hon).
  destruct (Hon Hm) as [_ Hmon].
  assert (panicked s1 = false ∧ main s1 = MFinal ∧ mon s1 = mon s)
    as (Hp1 & Hm1 & Hmon1).
  { unfold exec in H1. destruct (panicked s) eqn:Hp; [done|].
    unfold step_main in H1. rewrite Hm in H1.
    destruct (forallb is_exit (workers s)); [|done]. by simplify_eq. }
  destruct Hmon as [Hmon | [p Hmon]].
  - set (d := Z.max 0 (next_tick s1 - now s1)).
    destruct (exec_tick (with_now (now s1 + d) s1)) as (s3 & H3 & Hp3 & Hm3 & p & Hmon3).
    { done. } { simpl. congruence. } { simpl. lia. }
    destruct (late_send s3 p Hp3) as (s' & Hrun & Hc & Hp'); [by rewrite Hm3|done|].
    exists (LMain :: LClock d :: LTick :: [LMain; LMain; LMonSend]), s'.
    split; [|done]. cbn [run]. rewrite H1.
    rewrite (exec_clock s1 d Hp1) by lia. by rewrite H3.
  - destruct (late_send s1 p Hp1 Hm1) as (s' & Hrun & Hc & Hp'); [congruence|].
    exists (LMain :: [LMain; LMain; LMonSend]), s'.
    split; [|done]. cbn [run]. by rewrite H1.
Qed.

End Late.

(** ** A copy of a tree onto itself *)

Section SelfCopy.
Variable c : Copier.
Variable files : list path.
Variable fs0 : fsys.
Hypothesis files_fit : Z.of_nat (length files) < 2 ^ 63.
Hypothesis same_root : targetDir c = sourceDir c.
Hypothesis source_given : sourceDir c ≠ [].
Hypothesis files_under_source : ∀ f, f ∈ files → sourceDir c `prefix_of` f.
Hypothesis files_distinct : NoDup files.

Lemma gentle_refl f fs : gentle f fs fs.
Proof. by split. Qed.

Lemma adds_dirs_gentle P f fs fs' : adds_dirs P fs fs' → gentle f fs fs'.
Proof.
  intros H. split.
  - intros p Hp. destruct (H p) as [E|(N & _)]; congruence.
  - intros p content _ Hp. destruct (H p) as [E|(_ & D & _)]; congruence.
Qed.

Lemma emptied_gentle f fs fs' p size :
  gentle f fs fs' → emptied fs0 fs p size → emptied fs0 fs' p size.
Proof. intros [Hk _] [He Hc]. split; [by apply Hk|done]. Qed.

Lemma worker_emptied_gentle f fs fs' w :
  gentle f fs fs' → worker_emptied fs0 fs w → worker_emptied fs0 fs' w.
Proof.
  intros Hg. destruct w; simpl; try done.
  - intros [-> He]. split; [done|]. by eapply emptied_gentle.
  - intros H Hs. eapply emptied_gentle; [done|]. by apply H.
  - intros H Hs. eapply emptied_gentle; [done|]. by apply H.
Qed.

Lemma copy_begin_self fs f :
  sourceDir c `prefix_of` f →
  (∀ content, fs !! f = Some (File content) → fs0 !! f = Some (File content)) →
  gentle (Some f) fs (copy_begin c fs f).1
  ∧ worker_emptied fs0 (copy_begin c fs f).1 (copy_begin c fs f).2.
Proof.
  intros [r ->] Hrest.
  destruct (copy_begin_cases c fs (sourceDir c ++ r))
    as [[[-> | (rel & Hrel & Hmk)] (e & size & ->)]
       | (rel & fs1 & info & Hrel & Hmk & Hstat & Hcr & ->)].
  - split; [apply gentle_refl|done].
  - split; [|done]. eapply adds_dirs_gentle. by eapply MkdirAll_spec.
  - rewrite Rel_under in Hrel by done. injection Hrel as <-.
    rewrite Join_zero, same_root in *.
    apply Create_spec in Hcr as [-> Hnd].
    apply MkdirAll_spec in Hmk.
    pose proof (adds_dirs_gentle _ (Some (sourceDir c ++ r)) _ _ Hmk) as [Hk Hf].
    split.
    + split.
      * intros p Hp. destruct (decide (p = sourceDir c ++ r)) as [->|Hne].
        -- by rewrite lookup_insert_eq.
        -- rewrite lookup_insert_ne by done. by apply Hk.
      * intros p content Hne Hp. rewrite lookup_insert_ne in Hp by congruence.
        destruct (Hmk p) as [E|(_ & D & _)]; congruence.
    + simpl. split; [done|]. split; [by rewrite lookup_insert_eq|].
      unfold Stat in Hstat.
      destruct (fs1 !! (sourceDir c ++ r)) as [[content|b]|] eqn:E; [|by destruct (Hnd b)|done].
      injection Hstat as <-. exists content. split; [|done].
      apply Hrest. destruct (Hmk (sourceDir c ++ r)) as [E'|(_ & D & _)]; congruence.
Qed.

Lemma copy_chunk_self fs b src dst size off n :
  worker_emptied fs0 fs (WCopy src dst size off) →
  (copy_chunk c fs b src dst size off n).1 = fs
  ∧ worker_emptied fs0 fs (copy_chunk c fs b src dst size off n).2.
Proof.
  intros [-> [He Hc]]. unfold copy_chunk. destruct b; [done|].
  rewrite He. rewrite drop_nil, take_nil. done.
Qed.

Lemma selfcopy_inv_init : selfcopy_inv fs0 (init fs0).
Proof. split; simpl; [done|constructor|constructor]. Qed.

Lemma fresh_in_queue (X Q A : list path) f :
  X ++ (f :: Q) ++ A ⊆+ files → f ∈ files ∧ f ∉ A.
Proof.
  intros Hsub.
  assert (NoDup (X ++ (f :: Q) ++ A)) as Hnd.
  { destruct (submseteq_Permutation _ _ Hsub) as [k Hk].
    pose proof files_distinct as Hf. rewrite Hk in Hf.
    by apply NoDup_app in Hf as (Hf & _). }
  split.
  - eapply elem_of_submseteq; [|exact Hsub].
    rewrite !elem_of_app, elem_of_cons. auto.
  - apply NoDup_app in Hnd as (_ & _ & Hnd). simpl in Hnd.
    apply NoDup_cons in Hnd as [Hnot _]. intros Hin. apply Hnot.
    rewrite elem_of_app. by right.
Qed.

Lemma selfcopy_inv_step s l s' :
  counters_inv files s → selfcopy_inv fs0 s → exec c files l s = Some s' →
  selfcopy_inv fs0 s'.
Proof.
  intros Hcount [Hrest Hws Hem] H.
  pose proof (inv_files files s Hcount) as Hfiles.
  exec_inv H.
  all: try match goal with
         | Hi : workers ?st !! _ = Some _ |- _ =>
             pose proof (Forall_lookup_1 _ _ _ _ Hws Hi) as Hw
         end.
  all: try match goal with
         | E : Chan.buf (fileChan _) = ?f :: _ |- _ =>
             rewrite E in Hfiles; destruct (fresh_in_queue _ _ _ _ Hfiles) as [Hin Hnew]
         end.
  all: try match goal with
         | |- context [copy_begin c ?x ?f] =>
             destruct (copy_begin_self x f) as [Hg Hw'];
               [by apply files_under_source|by intros; eapply Hrest|]
         | |- context [copy_chunk c ?x ?b ?src ?dst ?size ?off ?n] =>
             destruct (copy_chunk_self x b src dst size off n Hw) as [Hfs Hw']
         | |- context [ensureAllDirectories c ?x] =>
             pose proof (adds_dirs_gentle _ None _ _
                           (ensureAllDirectories_adds c x)) as Hg
         end.
  all: split; unfold_state; main_pc.
  all: try done.
  all: try match goal with Hfs : _.1 = fs _ |- _ => rewrite Hfs end.
  all: try done.
  all: try (apply Forall_insert; [|done]).
  all: try (eapply Forall_impl; [eassumption|]; intros ?;
            first [by apply worker_emptied_gentle | intros ? ?; eapply emptied_gentle; eauto]).
  all: try done.
  all: try (apply Forall_replicate; done).
  all: try (intros p content Hp Hfs; apply Hrest;
            [ rewrite ?elem_of_app, ?list_elem_of_singleton in Hp; tauto
            | apply (proj2 Hg); [|done];
              rewrite ?elem_of_app, ?list_elem_of_singleton in Hp;
              first [done | intros [= ->]; tauto] ]).
  all: try (eapply Forall_impl; [exact Hws|]; intros w0 Hw0;
            eapply worker_emptied_gentle; [exact Hg|exact Hw0]).
  all: rewrite ?Forall_app, ?Forall_cons, ?Forall_nil in *; simpl in *.
  all: destruct_and?; split_and?; first [done | assumption].
Qed.

Lemma selfcopy_inv_reachable s : reachable c files fs0 s → selfcopy_inv fs0 s.
Proof.
  induction 1 as [|s l s' Hr IH H]; [apply selfcopy_inv_init|].
  eapply selfcopy_inv_step; [|exact IH|exact H].
  by apply (counters_inv_reachable c files fs0).
Qed.

(** X15: when the target root is the source root, every file of the list
    that the run reports as copied has been emptied: the file is created anew,
    and so truncated, before the first byte of it is read, and the result
    still carries the length that the file had. *)
Theorem X15_copy_onto_itself_empties_the_files s r :
  reachable c files fs0 s → r ∈ emitted s → Success r = true →
  fs s !! FilePath r = Some (File [])
  ∧ ∃ content, fs0 !! FilePath r = Some (File content)
               ∧ Size r = Z.of_nat (length content).
Proof.
  intros Hr Hin Hs. destruct (selfcopy_inv_reachable s Hr) as [_ _ Hem].
  eapply Forall_forall in Hem; [|exact Hin]. by apply Hem.
Qed.

End SelfCopy.

Lemma demo_run_workers_done :
  from_option
    (λ s, main s = MWait ∧ is_Some (exec demo_copier demo_files LMain s))
    False
    (run demo_copier demo_files (take 20 demo_schedule) (init demo_fs)).
Proof. vm_compute. split; [done|]. by eexists. Qed.

Lemma X14_copy_monitor_can_send_after_close_witness :
  from_option
    (λ s, ∃ sched s',
        run demo_copier demo_files sched s = Some s'
        ∧ Chan.closed (progressCh s') = true ∧ panicked s' = true)
    False
    (run demo_copier demo_files (take 20 demo_schedule) (init demo_fs)).
Proof.
  pose proof demo_run_workers_done as Hs.
  destruct (run demo_copier demo_files (take 20 demo_schedule) (init demo_fs))
    as [s|] eqn:E; cbn [from_option] in *; [|exact Hs].
  destruct Hs as [Hm [s1 H1]].
  exact (X14_copy_monitor_can_send_after_close demo_copier demo_files demo_fs s s1
           (run_reachable _ _ _ _ _ _ (reach_init _ _ _) E) Hm H1).
Defined.

Lemma self_run :
  from_option
    (λ s, success [""; "src"; "x.txt"] 3 ∈ emitted s)
    False
    (run self_copier demo_files self_schedule (init demo_fs)).
Proof. vm_compute. constructor. Qed.

Lemma self_files_under f : f ∈ demo_files → sourceDir self_copier `prefix_of` f.
Proof. exact (demo_files_under f). Qed.

Lemma X15_copy_onto_itself_empties_the_files_witness :
  from_option
    (λ s, fs s !! [""; "src"; "x.txt"] = Some (File [])
          ∧ ∃ content, demo_fs !! [""; "src"; "x.txt"] = Some (File content)
                       ∧ 3 = Z.of_nat (length content))
    False
    (run self_copier demo_files self_schedule (init demo_fs)).
Proof.
  pose proof self_run as Hs.
  destruct (run self_copier demo_files self_schedule (init demo_fs))
    as [s|] eqn:E; cbn [from_option] in *; [|exact Hs].
  apply (X15_copy_onto_itself_empties_the_files self_copier demo_files demo_fs)
    with (s := s) (r := success [""; "src"; "x.txt"] 3).
  - exact demo_files_fit.
  - reflexivity.
  - discriminate.
  - exact self_files_under.
  - exact demo_files_distinct.
  - eapply run_reachable; [apply reach_init | exact E].
  - exact Hs.
  - reflexivity.
Defined.

(** ** A run that starts after [SetTotal] *)

Section AfterSetTotal.
Variable c : Copier.
Variable files : list path.
Variable fs0 : fsys.
Variable totalFiles totalSize : Z.
Hypothesis files_fit : Z.of_nat (length files) < 2 ^ 63.
Hypothesis files_given : files ≠ [].





End AfterSetTotal.


(** ** What a finished run has copied *)

Section Finished.
Variable c : Copier.
Variable files : list path.
Variable fs0 : fsys.
Hypothesis files_fit : Z.of_nat (length files) < 2 ^ 63.
Hypothesis source_not_above : ¬ sourceDir c `prefix_of` targetDir c.
Hypothesis target_not_above : ¬ targetDir c `prefix_of` sourceDir c.
Hypothesis files_distinct : NoDup files.
Hypothesis files_under_source : ∀ f, f ∈ files → sourceDir c `prefix_of` f.


End Finished.


End CopierProofs.

(** ** Runs of the scanner: invariants *)

Module ScannerProofs.
Import Scanner.

(** Case analysis on a step of the scanner. *)
Ltac scan_step H :=
  unfold exec in H;
  match type of H with
  | (if ?b then _ else _) = _ => destruct b eqn:?; [discriminate|]
  end;
  match type of H with
  | match ?l with _ => _ end = _ => destruct l
  end;
  unfold step_main, step_closer, step_worker, step_tick, step_mon_send,
    step_mon_stop, step_recv_file, step_recv_err, step_recv_progress in H;
  repeat match type of H with
         | context [match ?x with _ => _ end] => destruct x eqn:?
         end;
  simplify_eq;
  repeat match goal with
         | E : Chan.recv _ = Some _ |- _ => apply recv_Some in E as (E & ? & ?)
         | E : Chan.recv _ = None |- _ => apply recv_None in E
         end.

Ltac scan_eqs :=
  repeat match goal with
    | E : Chan.buf ?ch = _ |- context [Chan.buf ?ch] => rewrite E
    | E : Chan.buf ?ch = _, H : context [Chan.buf ?ch] |- _ =>
        tryif constr_eq H E then fail else rewrite E in H
    | E : main _ = _ |- _ => rewrite E in *
    end.

Ltac scan_state :=
  unfold started, finishing, after_final, unstarted, in_hand,
    emitted_files, emitted_errors, snapshots, set_worker, dir_done, count_file,
    Close, Chan.push, Chan.close, Chan.make in *;
  simpl in *; scan_eqs.

(** The pool around the worker that takes the step. *)
Ltac split_workers :=
  match goal with
  | Hw : workers ?s !! ?i = Some ?w |- context [<[?i := ?w']> (workers ?s)] =>
      let l1 := fresh "l1" in
      let l2 := fresh "l2" in
      let E1 := fresh "E" in
      let E2 := fresh "E" in
      destruct (insert_split (workers s) i w w' Hw) as (l1 & l2 & E1 & E2);
      rewrite E2; rewrite E1 in *; clear E2
  end.

Section ScanInvariants.
Variable sc : Scanner.
Variable fs : fsys.
Variable nostat : gset path.
Variable root : path.

Lemma scan_run_reachable sched : ∀ s s',
  reachable sc fs nostat root s → run sc fs nostat root sched s = Some s' → reachable sc fs nostat root s'.
Proof.
  induction sched as [|l sched IH]; intros s s' Hr H; simpl in H.
  - by simplify_eq.
  - destruct (exec sc fs nostat root l s) as [s1|] eqn:E; [|done].
    eapply IH; [|done]. by eapply reach_step.
Qed.

(** *** The directory queue *)

Lemma busy_insert (ws : list worker) i w w' :
  ws !! i = Some w →
  Z.of_nat (length (filter is_busy (<[i := w']> ws)))
  = Z.of_nat (length (filter is_busy ws))
    + (if is_busy w' then 1 else 0) - (if is_busy w then 1 else 0).
Proof.
  intros Hi. destruct (insert_split ws i w w' Hi) as (l1 & l2 & -> & ->).
  rewrite !filter_app, !filter_cons, !length_app.
  destruct (is_busy w), (is_busy w'); simpl; lia.
Qed.

Lemma busy_replicate n : filter is_busy (replicate n SIdle) = [].
Proof. induction n as [|n IH]; [done|]. simpl. by rewrite filter_cons, IH. Qed.

Lemma exit_insert (ws : list worker) i w :
  w ≠ SExit → SExit ∈ <[i := w]> ws → SExit ∈ ws.
Proof.
  intros Hw Hin. apply list_elem_of_lookup in Hin as [j Hj].
  destruct (decide (i = j)) as [->|Hne].
  - apply list_lookup_insert_Some in Hj as [(_ & ? & _)|[? _]]; congruence.
  - rewrite list_lookup_insert_ne in Hj by done. by eapply list_elem_of_lookup_2.
Qed.

Lemma all_workers_exit (ws : list worker) :
  forallb is_exit ws = true → Forall (λ w, w = SExit) ws.
Proof.
  intros H. apply Forall_forall. intros w Hw. rewrite forallb_forall in H.
  apply list_elem_of_In, H in Hw. by destruct w.
Qed.

Lemma all_exit_lookup (ws : list worker) i w :
  Forall (λ w, w = SExit) ws → ws !! i = Some w → w = SExit.
Proof. intros H Hi. by eapply (Forall_lookup_1 _ _ _ _ H Hi). Qed.

Lemma queue_inv_init : queue_inv sc (init sc).
Proof.
  constructor; scan_state; try done.
  intros H. by apply elem_of_nil in H.
Qed.

Lemma busy_lookup (ws : list worker) i w :
  ws !! i = Some w → is_busy w = true →
  1 <= Z.of_nat (length (filter is_busy ws)).
Proof.
  intros Hi Hb. apply list_elem_of_split_length in Hi as (l1 & l2 & -> & _).
  rewrite filter_app, filter_cons, Hb, length_app. simpl. lia.
Qed.

Lemma queue_inv_step s l s' :
  queue_inv sc s → exec sc fs nostat root l s = Some s' → queue_inv sc s'.
Proof.
  intros [Hp Hcl Hex Hfin Hpool Hst] H.
  scan_step H; constructor; scan_state.
  all: try done.
  all: try match goal with
         | Hw : workers ?st !! _ = Some _ |- _ =>
             assert (main st ≠ SMInit) as Hmain
               by (intros Hm; destruct (Hst Hm) as (Hnil & _);
                   rewrite Hnil in Hw; done);
             pose proof (busy_insert _ _ _ SIdle Hw) as HbI;
             pose proof (busy_lookup _ _ _ Hw) as HbL;
             simpl in HbI, HbL
         end.
  all: try (intros Hm; by destruct (Hmain Hm)).
  all: try (rewrite length_insert; done).
  all: try (intros Hf; exfalso; apply Hfin in Hf;
            match goal with
            | Hw : workers _ !! _ = Some _ |- _ =>
                by pose proof (all_exit_lookup _ _ _ Hf Hw)
            end).
  all: try (intros Hin; apply exit_insert in Hin; [|done];
            first [by apply Hex | by rewrite <- Hex by done
                  | match goal with E : Chan.closed _ = Chan.closed _ |- _ =>
                      rewrite E; by apply Hex end]).
  all: try (rewrite ?length_app, ?Nat2Z.inj_add; erewrite busy_insert by eassumption;
            simpl; rewrite ?Nat2Z.inj_add in *; simpl in *; lia).
  all: try (intros Hc;
            try match goal with E : Chan.closed _ = Chan.closed _ |- _ =>
                  rewrite E in Hc end;
            destruct (Hcl Hc) as [Hz Hs]; split; try done;
            rewrite ?Nat2Z.inj_add in *; simpl in *; lia).
  all: try (rewrite ?busy_replicate; simpl; first [done | by rewrite length_replicate]).
  all: try (intros _; first [by apply all_workers_exit | by apply Hpool
                            | apply Hfin; tauto]).
  all: try (intros Hin; by apply elem_of_replicate_inv in Hin).
  all: try (intros [?|[?|?]]; done).
  all: intros _; by apply Hcl.
Qed.

(** *** The streams *)

Lemma stream_inv_init : stream_inv (init sc).
Proof. constructor; scan_state; done. Qed.

Lemma stream_inv_step s l s' :
  queue_inv sc s → stream_inv s → exec sc fs nostat root l s = Some s' → stream_inv s'.
Proof.
  intros [_ _ _ _ _ Hst] [Hc Hu He] H.
  scan_step H; constructor; scan_state.
  all: try done.
  all: try (intros ?; first [by apply Hu | congruence]).
  all: try by apply try_send_sublist.
  all: try split_workers.
  all: rewrite ?bind_app, ?bind_cons, ?fmap_app in *; simpl in *.
  all: rewrite ?app_nil_r in *.
  all: try (rewrite Hc; solve_Permutation).
  all: try (rewrite <- ?app_assoc in *; simpl in *; done).
  destruct Hst as (Hw & _); [done|]. rewrite Hw in Hc.
  by rewrite bind_replicate_nil.
Qed.

Lemma stream_inv_reachable s :
  reachable sc fs nostat root s → queue_inv sc s ∧ stream_inv s.
Proof.
  induction 1 as [|s l s' _ [IHq IHs] H];
    eauto using queue_inv_init, stream_inv_init, queue_inv_step, stream_inv_step.
Qed.

(** *** The files of the tree *)

Section Closed.
Hypothesis closed : tree_closed fs.

Lemma account_inv_init : account_inv fs root (init sc).
Proof. constructor; scan_state; [|done]. by rewrite !app_nil_r. Qed.

Lemma account_inv_step s l s' :
  account_inv fs root s → exec sc fs nostat root l s = Some s' → account_inv fs root s'.
Proof.
  intros [Ht Hst] H.
  scan_step H; constructor; scan_state.
  all: try done.
  all: try match goal with
         | Hw : workers ?st !! _ = Some _ |- _ =>
             assert (main st ≠ SMInit) as Hmain
               by (intros Hm; destruct (Hst Hm) as (Hnil & _);
                   rewrite Hnil in Hw; done)
         end.
  all: try (intros Hm; by destruct (Hmain Hm)).
  all: try split_workers.
  all: rewrite ?bind_app, ?bind_cons, ?fmap_app in *; simpl in *.
  all: rewrite ?app_nil_r in *.
  all: rewrite ?expand_cons in *.
  all: repeat match goal with E : _.2 = _ |- _ => rewrite E in * end.
  all: try match goal with
         | E : ReadDir _ _ = Some _ |- _ =>
             apply (ReadDir_listing _ _ _ closed) in E; rewrite E in Ht
         end.
  all: try (destruct (main s); try done; rewrite Ht; solve_Permutation).
  destruct Hst as (Hw & Hb & Hc & Hs); [done|].
  rewrite Hw, Hb, Hc, Hs in *. rewrite bind_replicate_nil by done.
  simpl. by rewrite !app_nil_r.
Qed.

Lemma account_inv_reachable s : reachable sc fs nostat root s → account_inv fs root s.
Proof. induction 1; eauto using account_inv_init, account_inv_step. Qed.

End Closed.

(** *** Scans that reach the whole tree *)

Section Listable.
Hypothesis listable : listable_below fs root.
Hypothesis can_stat : statable sc fs nostat root.

Lemma scope_ReadDir d : dir_in_scope fs root d → ReadDir fs d = Some (entries_of fs d).
Proof.
  intros [Hpre [b Hb]]. unfold ReadDir. rewrite Hb.
  destruct b; [done|]. by destruct (proj2 listable d Hpre).
Qed.

Lemma scope_entry d (e : DirEntry) :
  root `prefix_of` d → e ∈ entries_of fs d →
  (e.2 = true → dir_in_scope fs root (d ++ [e.1]))
  ∧ (e.2 = false → collectSize sc = true → Lstat fs nostat (d ++ [e.1]) ≠ None).
Proof.
  intros Hpre He. destruct e as [name b].
  apply elem_of_entries_of in He as (n & Hn & ->). simpl. split.
  - intros Hf. split; [by apply prefix_app_r|]. destruct n as [|b]; [done|].
    by exists b.
  - intros Hf Hcs. destruct n as [content|]; [|done].
    unfold Lstat. rewrite decide_False.
    + unfold Stat. by rewrite Hn.
    + apply can_stat; [done|]. apply files_under_spec.
      split; [by apply prefix_app_r|by exists content].
Qed.

Lemma clean_inv_init : clean_inv fs root (init sc).
Proof. constructor; scan_state; try done; constructor. Qed.

Lemma clean_inv_step s l s' :
  clean_inv fs root s → exec sc fs nostat root l s = Some s' → clean_inv fs root s'.
Proof.
  intros [Hq Hw Hs] H.
  scan_step H; constructor; scan_state.
  all: try done.
  all: try (intros ?; first [by apply Hs | congruence]).
  all: try match goal with
         | Hi : workers ?st !! _ = Some _ |- _ =>
             pose proof (Forall_lookup_1 _ _ _ _ Hw Hi) as Hscope; simpl in Hscope
         end.
  all: try split_workers.
  all: rewrite ?Forall_app, ?Forall_cons, ?Forall_nil in *; simpl in *.
  all: destruct_and?; repeat split; try done.
  all: try (intros e He;
            match goal with
            | Hall : ∀ e : DirEntry, e ∈ _ :: _ → _ |- _ =>
                apply Hall; by apply list_elem_of_further
            end).
  all: try match goal with
         | E : ReadDir _ ?d = _, Hd : dir_in_scope _ _ ?d |- _ =>
             rewrite (scope_ReadDir d Hd) in E; simplify_eq
         end.
  all: try done.
  all: try by apply Forall_replicate.
  all: try by destruct Hd.
  all: try match goal with
         | Hall : ∀ e : DirEntry, e ∈ ?d :: _ → _, Hpre : root `prefix_of` ?dir
           |- _ =>
             destruct (scope_entry dir d Hpre (Hall d (list_elem_of_here _ _)))
               as [Hdir Hstat];
             first [ by destruct Hstat
                   | destruct Hdir as [? ?]; [done|]; done ]
         end.
  all: try (unfold dir_in_scope in *; destruct_and?; done).
  apply listable.
Qed.

Lemma clean_inv_reachable s : reachable sc fs nostat root s → clean_inv fs root s.
Proof. induction 1; eauto using clean_inv_init, clean_inv_step. Qed.

End Listable.

(** *** The end of a scan *)

Lemma bind_all_exit {B} (f : worker → list B) (ws : list worker) :
  f SExit = [] → Forall (λ w, w = SExit) ws → ws ≫= f = [].
Proof.
  intros Hf. induction 1 as [|w ws -> _ IH]; [done|].
  by rewrite bind_cons, Hf, IH.
Qed.

(** Once the workers are gone the directory queue is empty. *)
Lemma scan_drained s :
  concurrency sc ≠ 0%nat → queue_inv sc s → finishing s →
  Chan.buf (dirCh s) = [] ∧ Forall (λ w, w = SExit) (workers s).
Proof.
  intros Hconc [Hp Hcl Hex Hfin Hpool Hst] Hf. split; [|by apply Hfin].
  assert (started s) as Hs by (unfold started; destruct Hf as [->|[->| ->]]; done).
  specialize (Hfin Hf). specialize (Hpool Hs).
  destruct (workers s) as [|w ws] eqn:Hws; [simpl in Hpool; congruence|].
  apply Forall_cons in Hfin as [-> _].
  destruct Hcl as [Hz _]; [apply Hex; apply list_elem_of_here|].
  rewrite Hz in Hp. destruct (Chan.buf (dirCh s)); [done|]. simpl in Hp. lia.
Qed.

Lemma files_split (links : gset path) d :
  length (files_under fs d)
  = (length (regular_files fs links d) + length (other_entries fs links d))%nat.
Proof.
  unfold regular_files, other_entries.
  induction (files_under fs d) as [|p l IH]; [done|].
  rewrite !filter_cons. simpl.
  destruct (decide (p ∈ links)) as [Hin|Hout].
  - rewrite decide_False by (intros Hn; by apply Hn). simpl. lia.
  - rewrite decide_True by done. simpl. lia.
Qed.

(** C3, amended: when the root is a directory, every directory below it can
    be listed and, if sizes are collected, [os.Lstat] succeeds on every entry
    that is not a directory, a scan by at least one worker that has completed
    without cancellation has put on the file stream exactly the entries below
    the root that are not directories, each once.  These are the regular
    files and, with them, the symbolic links and special files of the tree:
    there is one record more than there are regular files for each of those,
    and as many records as regular files when the tree holds none. *)
Theorem C3_complete_scan_emits_each_file_of_a_listable_tree (links : gset path) s :
  tree_closed fs → listable_below fs root → statable sc fs nostat root →
  concurrency sc ≠ 0%nat →
  reachable sc fs nostat root s → main s = SMDone → canceled s = false →
  Path <$> emitted_files s ≡ₚ files_under fs root
  ∧ length (emitted_files s)
    = (length (regular_files fs links root) + length (other_entries fs links root))%nat
  ∧ (other_entries fs links root = [] →
     length (emitted_files s) = length (regular_files fs links root)).
Proof.
  intros Hclosed Hlist Hstat Hconc Hr Hm Hc.
  destruct (stream_inv_reachable s Hr) as [Hq [Hcount Hunsent _]].
  destruct (scan_drained s Hconc Hq) as [Hbuf Hexit]; [unfold finishing; auto|].
  destruct (account_inv_reachable Hclosed s Hr) as [Htree _].
  destruct (clean_inv_reachable Hlist Hstat s Hr) as [_ _ Hskip].
  unfold unstarted in Htree.
  rewrite Hm, Hbuf, (Hskip Hc), (bind_all_exit _ _ eq_refl Hexit) in Htree.
  rewrite (Hunsent Hc), (bind_all_exit _ _ eq_refl Hexit) in Hcount.
  simpl in Htree. rewrite !app_nil_r in *.
  assert (Path <$> emitted_files s ≡ₚ files_under fs root) as Hperm
    by by rewrite Htree, Hcount.
  assert (length (emitted_files s) = length (files_under fs root)) as Hlen
    by by rewrite <- Hperm, length_fmap.
  split; [done|]. rewrite (files_split links root) in Hlen. split; [done|].
  intros Hnone. rewrite Hnone in Hlen. simpl in Hlen. lia.
Qed.

(** *** Progress snapshots *)

#[local] Instance le3_refl : Reflexive le3.
Proof. intros p. unfold le3. lia. Qed.

#[local] Instance le3_trans : Transitive le3.
Proof. intros p q r. unfold le3. lia. Qed.

Lemma sorted_sublist (l k : list Progress) :
  l `sublist_of` k → StronglySorted le3 k → StronglySorted le3 l.
Proof.
  induction 1 as [|x l k Hs IH|x l k Hs IH]; intros Hk; [done|..];
    apply StronglySorted_cons in Hk as [Hx Hk].
  - apply StronglySorted_cons. split; [|auto].
    rewrite Forall_forall in *. intros y Hy. apply Hx.
    by apply (sublist_subseteq _ _ Hs).
  - auto.
Qed.

Lemma sorted_last_le (l : list Progress) a a' :
  StronglySorted le3 (l ++ [a]) → le3 a a' → StronglySorted le3 (l ++ [a']).
Proof.
  rewrite !StronglySorted_app. intros (Hall & Hl & _) Hle. split_and!; [|done|].
  - intros x y Hx ->%list_elem_of_singleton. etrans; [|exact Hle].
    apply Hall; [done|]. by apply list_elem_of_singleton.
  - repeat constructor.
Qed.

Lemma sorted_last_twice (l : list Progress) a :
  StronglySorted le3 (l ++ [a]) → StronglySorted le3 (l ++ [a] ++ [a]).
Proof.
  intros H. rewrite app_assoc. apply StronglySorted_app. split_and!; [|done|].
  - intros x y Hx ->%list_elem_of_singleton.
    apply elem_of_app in Hx as [Hx| ->%list_elem_of_singleton]; [|done].
    eapply StronglySorted_app_1_elem_of; [exact H|done|].
    by apply list_elem_of_singleton.
  - repeat constructor.
Qed.

Lemma sorted_monotone (l : list Progress) :
  StronglySorted le3 l → monotone le3 l.
Proof.
  intros Hl i p q Hp Hq.
  rewrite <- (take_drop_middle l i p Hp) in Hl, Hq.
  apply StronglySorted_app in Hl as (_ & _ & Hl).
  apply StronglySorted_cons in Hl as [Hall _].
  rewrite Forall_forall in Hall. apply Hall.
  assert (length (take i l) = i) as Hlen.
  { apply length_take_le. apply lookup_lt_Some in Hp. lia. }
  rewrite lookup_app_r in Hq by lia.
  replace (S i - length (take i l))%nat with 1%nat in Hq by lia.
  simpl in Hq. by eapply list_elem_of_lookup_2.
Qed.

Lemma bytes_of_app (l k : list path) :
  bytes_of fs (l ++ k) = bytes_of fs l + bytes_of fs k.
Proof. induction l as [|p l IH]; simpl; lia. Qed.

Lemma size_at_nonneg p : 0 <= size_at fs p.
Proof.
  unfold size_at, Stat. destruct (fs !! p) as [[c|?]|]; simpl; lia.
Qed.

Lemma bytes_of_nonneg (l : list path) : 0 <= bytes_of fs l.
Proof.
  induction l as [|p l IH]; simpl; [done|]. pose proof (size_at_nonneg p). lia.
Qed.

Lemma bytes_of_perm (l k : list path) : l ≡ₚ k → bytes_of fs l = bytes_of fs k.
Proof. induction 1; simpl; lia. Qed.

Lemma size_at_Stat p info : Stat fs p = Some info → size_at fs p = fi_size info.
Proof. unfold size_at. by intros ->. Qed.

Lemma Lstat_Some p info :
  Lstat fs nostat p = Some info → (p ∉ nostat) ∧ Stat fs p = Some info.
Proof. unfold Lstat. by case_decide. Qed.

(** The counters never exceed what the tree holds. *)
Lemma counted_bound s :
  account_inv fs root s →
  Z.of_nat (length (counted s)) <= Z.of_nat (length (files_under fs root))
  ∧ bytes_of fs (counted s) <= bytes_of fs (files_under fs root).
Proof.
  intros [Ht _].
  assert (∃ k, files_under fs root ≡ₚ counted s ++ k) as [k Hk].
  { eexists. rewrite Ht at 1. rewrite (comm (++) (unstarted _ _ _)).
    rewrite <- app_assoc. done. }
  split.
  - rewrite Hk, length_app. lia.
  - rewrite (bytes_of_perm _ _ Hk), bytes_of_app. pose proof (bytes_of_nonneg k). lia.
Qed.

#[local] Arguments snapshot : simpl never.

Lemma snapshot_le s s' :
  totalFiles s <= totalFiles s' → totalSize s <= totalSize s' → now s <= now s' →
  le3 (snapshot s) (snapshot s').
Proof. unfold le3, snapshot. simpl. lia. Qed.

Lemma sorted_sub_last (X Y : list Progress) a a' :
  StronglySorted le3 (Y ++ [a]) → X `sublist_of` Y → le3 a a' →
  StronglySorted le3 (X ++ [a']).
Proof.
  intros HY Hsub Hle. eapply sorted_last_le; [|exact Hle].
  eapply sorted_sublist; [|exact HY]. by apply sublist_app.
Qed.

Lemma sorted_sub_twice (X Y : list Progress) a :
  StronglySorted le3 (Y ++ [a]) → X `sublist_of` Y →
  StronglySorted le3 ((X ++ [a]) ++ [a]).
Proof.
  intros HY Hsub. rewrite <- app_assoc. apply sorted_last_twice.
  eapply sorted_sublist; [|exact HY]. by apply sublist_app.
Qed.

Lemma try_send_keeps {A} (x : A) (c : Chan.chan A) (out : list A) :
  out ++ Chan.buf (Chan.try_send x c) `sublist_of` (out ++ Chan.buf c) ++ [x].
Proof.
  rewrite try_send_buf. destruct (Chan.has_room c).
  - by rewrite app_assoc.
  - by apply sublist_inserts_r.
Qed.

Lemma progress_inv_init : progress_inv sc fs (init sc).
Proof.
  constructor; scan_state; try done.
  - by destruct (collectSize sc).
  - repeat constructor.
  - intros [|]; done.
Qed.

Section Fits.
Hypothesis fits : fits_int64 fs root.

Lemma progress_inv_step s l s' :
  account_inv fs root s' →
  progress_inv sc fs s → exec sc fs nostat root l s = Some s' → progress_inv sc fs s'.
Proof.
  intros Hacc [Hf Hz Hn Hsort Hstr Haft Hoff] H.
  pose proof (counted_bound s' Hacc) as [Hb1 Hb2].
  destruct fits as [Hfit1 Hfit2].
  pose proof (bytes_of_nonneg (counted s)) as Hnn.
  scan_step H; constructor.
  all: scan_state.
  all: repeat match goal with
         | E : collectSize sc = _ |- _ => rewrite E in *
         | E : mon _ = _ |- _ => rewrite E in *
         end.
  all: rewrite ?length_app, ?bytes_of_app, ?Nat2Z.inj_add in *; simpl in *.
  all: fold (in_hand s) in *.
  all: repeat match goal with
         | E : Lstat fs nostat ?p = Some _ |- _ => apply Lstat_Some in E as [_ E]
         | E : Stat fs ?p = Some _ |- _ =>
             pose proof (size_at_nonneg p);
             apply size_at_Stat in E; rewrite E in *
         end.
  all: rewrite ?add64_small by (unfold in_int64; lia).
  all: try done.
  all: try lia.
  all: try (intros Hm; destruct (Hoff Hm); congruence).
  all: try (intros [|]; done).
  all: try (eapply sorted_sub_last; [exact Hsort|done|];
            apply snapshot_le; simpl; rewrite ?add64_small by (unfold in_int64; lia);
            lia).
  all: try (intros Ha Hs; eapply sorted_sub_last; [exact (Haft Ha Hs)|done|];
            apply snapshot_le; simpl; rewrite ?add64_small by (unfold in_int64; lia);
            lia).
  all: rewrite <- ?(app_assoc (progress_out s) [_] (Chan.buf _)); simpl.
  all: rewrite ?app_nil_r in *.
  (* the start *)
  all: try solve [destruct Hoff as [Ht Hm]; [done|]; rewrite Ht; repeat constructor].
  all: try solve [intros _; destruct Hoff as [Ht Hm]; [done|];
                  unfold in_hand in Hstr; rewrite Hm, app_nil_r in Hstr;
                  apply Hstr; intros [|]; done].
  (* the final snapshot *)
  all: try solve [intros _; apply Hstr; intros [|]; done].
  all: try solve [intros Hnot; destruct Hnot; auto].
  all: try solve [intros _ Hb; destruct (in_hand s) eqn:Hih;
            [|by apply bool_decide_eq_false in Hb; destruct Hb];
            rewrite app_nil_r in *;
            eapply sorted_sub_last;
            [ exact (sorted_sub_twice _ _ _ Hsort (reflexivity _))
            | etrans; [apply try_send_keeps|];
              apply sublist_app; [|done]; apply Hstr; intros [|]; done
            | done ]].
  all: try solve [intros _ Hs; eapply sorted_sub_last;
            [apply Haft; [auto|done] | done | done]].
  (* the monitor *)
  all: try solve [by apply (sorted_sub_twice _ _ _ Hsort)].
  all: try solve [intros Hnot; apply sublist_app; [by apply Hstr|done]].
  all: try solve [intros Ha Hs; by apply (sorted_sub_twice _ _ _ (Haft Ha Hs))].
  all: try solve [intros Hnot; etrans; [apply try_send_keeps|]; by apply Hstr].
  all: try solve [intros Ha Hs; eapply sorted_sub_last;
            [exact (Haft Ha Hs) | apply try_send_keeps | done]].
  all: try solve [intros Ha Hs; eapply sorted_sub_last; [exact (Haft Ha Hs)|done|done]].
  all: try solve [intros Hnot; by apply Hstr].
Qed.

Lemma progress_inv_reachable s :
  tree_closed fs → reachable sc fs nostat root s → progress_inv sc fs s.
Proof.
  intros Hcl. induction 1 as [|s l s' Hr IH H]; [apply progress_inv_init|].
  eapply progress_inv_step; [|exact IH|exact H].
  eapply account_inv_reachable; [done|]. by eapply reach_step.
Qed.

End Fits.


(** *** What each send does *)

Lemma file_send_waits_holds s : panicked s = false → file_send_waits sc fs nostat root s.
Proof.
  intros Hp i d es fi Hw Hc. unfold exec, step_worker. by rewrite Hp, Hw, Hc.
Qed.

Lemma listing_error_does_not_wait_holds s :
  panicked s = false → listing_error_does_not_wait sc fs nostat root s.
Proof.
  intros Hp i d ch Hw Hrecv Hc Hrd. unfold exec, step_worker.
  rewrite Hp, Hw, Hrecv, Hc, Hrd. eexists. split; [done|].
  unfold dir_done, set_worker, emitted_errors. simpl. split_and!.
  - apply list_lookup_insert_eq. by eapply lookup_lt_Some.
  - done.
  - rewrite try_send_buf. destruct (Chan.has_room (errCh s)); [|done].
    by rewrite app_assoc.
Qed.

Lemma snapshot_does_not_wait_holds s : panicked s = false → snapshot_does_not_wait sc fs nostat root s.
Proof.
  intros Hp. split.
  - intros p Hm Hc. unfold exec, step_mon_send. rewrite Hp, Hm, Hc.
    eexists. split; [done|]. unfold snapshots. simpl.
    rewrite try_send_buf. destruct (Chan.has_room (progressCh s)); [|done].
    by rewrite app_assoc.
  - intros Hm. unfold exec, step_main. rewrite Hp, Hm.
    eexists. split; [done|]. unfold snapshots. simpl.
    rewrite try_send_buf. destruct (Chan.has_room (progressCh s)); [|done].
    by rewrite app_assoc.
Qed.

(** C7, amended: only the file stream is written with a send that waits.
    Short of a cancellation every counted file is on the file stream or in
    the hands of a worker that waits for room on it, so no discovered file is
    dropped.  Errors and progress snapshots are offered without waiting: the
    error stream carries a subsequence of the errors raised, a listing
    failure is reported exactly when the error stream has room at that
    moment, and the worker goes on to the next directory either way. *)
Theorem C7_files_wait_for_room_errors_and_snapshots_do_not s :
  reachable sc fs nostat root s → panicked s = false →
  (canceled s = false →
   counted s ≡ₚ (Path <$> emitted_files s) ++ (workers s ≫= w_emitting))
  ∧ file_send_waits sc fs nostat root s
  ∧ emitted_errors s `sublist_of` raised s
  ∧ listing_error_does_not_wait sc fs nostat root s
  ∧ snapshot_does_not_wait sc fs nostat root s.
Proof.
  intros Hr Hp. pose proof Hr as Hinv.
  apply stream_inv_reachable in Hinv as [_ [Hc Hu He]].
  split_and!.
  - intros Hcan. by rewrite Hc, (Hu Hcan), app_nil_r.
  - by apply file_send_waits_holds.
  - done.
  - by apply listing_error_does_not_wait_holds.
  - by apply snapshot_does_not_wait_holds.
Qed.


(** The snapshots that the monitor takes never decrease, stale or not. *)
Lemma ticks_do_not_decrease s :
  tree_closed fs → fits_int64 fs root → reachable sc fs nostat root s →
  monotone le3 (ticks s).
Proof.
  intros Hcl Hfit Hr. pose proof Hr as Hinv.
  apply progress_inv_reachable in Hinv as [_ _ _ Hsort _ _ _]; [|done..].
  apply sorted_monotone. eapply sorted_sublist; [|exact Hsort].
  by apply sublist_inserts_r.
Qed.

End ScanInvariants.
Lemma NewScanner_has_worker env numCPU : concurrency (NewScanner env numCPU) ≠ 0%nat.
Proof. unfold NewScanner. simpl. repeat case_decide; lia. Qed.

Lemma open_tree_closed : tree_closed open_fs.
Proof. apply tree_closedb_sound. by vm_compute. Qed.

Lemma locked_tree_closed : tree_closed locked_fs.
Proof. apply tree_closedb_sound. by vm_compute. Qed.

Lemma open_listable : listable_below open_fs data_root.
Proof. apply listable_belowb_sound. by vm_compute. Qed.

Lemma locked_run :
  from_option
    (λ s, main s = SMDone ∧ canceled s = false
          ∧ length (emitted_files s) = 1%nat)
    False
    (run small_scanner locked_fs ∅ data_root locked_schedule (init small_scanner)).
Proof. vm_compute. repeat split. Qed.

Lemma locked_files : length (regular_files locked_fs ∅ data_root) = 2%nat.
Proof. by vm_compute. Qed.

Lemma C3_counterexample : ¬ every_file_emitted small_scanner locked_fs ∅ ∅ data_root.
Proof.
  intros Hall. pose proof locked_run as Hs.
  destruct (run small_scanner locked_fs ∅ data_root locked_schedule (init small_scanner))
    as [s|] eqn:E; cbn [from_option] in *; [|exact Hs].
  destruct Hs as (Hm & Hc & Hlen).
  specialize (Hall s (scan_run_reachable _ _ _ _ _ _ _ (reach_init _ _ _ _) E) Hm Hc).
  rewrite Hlen, locked_files in Hall. discriminate Hall.
Qed.

(** A symbolic link gets a record like a regular file: with [key] a link the
    complete scan of the small tree emits two records for one regular file. *)
Lemma linked_run :
  from_option
    (λ s, main s = SMDone ∧ canceled s = false
          ∧ length (emitted_files s) = 2%nat)
    False
    (run small_scanner open_fs ∅ data_root open_schedule (init small_scanner)).
Proof. vm_compute. repeat split. Qed.

Lemma linked_files :
  length (regular_files open_fs linked data_root) = 1%nat
  ∧ other_entries open_fs linked data_root = [ [""; "data"; "private"; "key"] ].
Proof. by vm_compute. Qed.

Lemma link_counted_as_file : ¬ every_file_emitted small_scanner open_fs linked ∅ data_root.
Proof.
  intros Hall. pose proof linked_run as Hs.
  destruct (run small_scanner open_fs ∅ data_root open_schedule (init small_scanner))
    as [s|] eqn:E; cbn [from_option] in *; [|exact Hs].
  destruct Hs as (Hm & Hc & Hlen).
  specialize (Hall s (scan_run_reachable _ _ _ _ _ _ _ (reach_init _ _ _ _) E) Hm Hc).
  rewrite Hlen, (proj1 linked_files) in Hall. discriminate Hall.
Qed.

Lemma open_run :
  from_option (λ s, main s = SMDone ∧ canceled s = false) False
    (run small_scanner open_fs ∅ data_root open_schedule (init small_scanner)).
Proof. vm_compute. repeat split. Qed.

(** No entry of the small tree is a link, and [os.Lstat] fails on none. *)
Lemma nothing_unstatable sc fs root : statable sc fs ∅ root.
Proof. intros _ p _ Hp. by apply not_elem_of_empty in Hp. Qed.


Lemma C3_complete_scan_emits_each_file_of_a_listable_tree_witness :
  from_option
    (λ s, Path <$> emitted_files s ≡ₚ files_under open_fs data_root
          ∧ length (emitted_files s)
            = (length (regular_files open_fs ∅ data_root)
               + length (other_entries open_fs ∅ data_root))%nat
          ∧ (other_entries open_fs ∅ data_root = [] →
             length (emitted_files s) = length (regular_files open_fs ∅ data_root)))
    False
    (run small_scanner open_fs ∅ data_root open_schedule (init small_scanner)).
Proof.
  pose proof open_run as Hs.
  destruct (run small_scanner open_fs ∅ data_root open_schedule (init small_scanner))
    as [s|] eqn:E; cbn [from_option] in *; [|exact Hs].
  destruct Hs as (Hm & Hc).
  exact (C3_complete_scan_emits_each_file_of_a_listable_tree
           small_scanner open_fs ∅ data_root ∅ s open_tree_closed open_listable
           (nothing_unstatable _ _ _) (NewScanner_has_worker _ _)
           (scan_run_reachable _ _ _ _ _ _ _ (reach_init _ _ _ _) E) Hm Hc).
Defined.

Lemma crowded_run :
  from_option
    (λ s, existsb (λ e, match e with
                        | ErrReadDir _ => negb (bool_decide (e ∈ emitted_errors s))
                        | ErrLstat _ => false
                        end) (raised s) = true)
    False
    (run default_scanner crowded_fs ∅ data_root crowded_schedule (init default_scanner)).
Proof. by vm_compute. Qed.

Lemma C7_counterexample : ¬ every_failure_reported default_scanner crowded_fs ∅ data_root.
Proof.
  intros Hall. pose proof crowded_run as Hs.
  destruct (run default_scanner crowded_fs ∅ data_root crowded_schedule
              (init default_scanner)) as [s|] eqn:E;
    cbn [from_option] in *; [|exact Hs].
  apply existsb_exists in Hs as (e & Hin & He).
  destruct e as [d|]; [|discriminate He].
  apply negb_true_iff, bool_decide_eq_false in He. apply He.
  apply Hall.
  - exact (scan_run_reachable _ _ _ _ _ _ _ (reach_init _ _ _ _) E).
  - by apply list_elem_of_In.
Qed.

Lemma locked_run_state :
  from_option (λ s, panicked s = false) False
    (run small_scanner locked_fs ∅ data_root locked_schedule (init small_scanner)).
Proof. by vm_compute. Qed.

Lemma C7_files_wait_for_room_errors_and_snapshots_do_not_witness :
  from_option
    (λ s, (canceled s = false →
           counted s ≡ₚ (Path <$> emitted_files s) ++ (workers s ≫= w_emitting))
          ∧ file_send_waits small_scanner locked_fs ∅ data_root s
          ∧ emitted_errors s `sublist_of` raised s
          ∧ listing_error_does_not_wait small_scanner locked_fs ∅ data_root s
          ∧ snapshot_does_not_wait small_scanner locked_fs ∅ data_root s)
    False
    (run small_scanner locked_fs ∅ data_root locked_schedule (init small_scanner)).
Proof.
  pose proof locked_run_state as Hs.
  destruct (run small_scanner locked_fs ∅ data_root locked_schedule (init small_scanner))
    as [s|] eqn:E; cbn [from_option] in *; [|exact Hs].
  exact (C7_files_wait_for_room_errors_and_snapshots_do_not
           small_scanner locked_fs ∅ data_root s
           (scan_run_reachable _ _ _ _ _ _ _ (reach_init _ _ _ _) E) Hs).
Defined.



Lemma open_fits : fits_int64 open_fs data_root.
Proof. by vm_compute. Qed.



(** ** What the streams of a scan carry *)

Section Report.
Variable sc : Scanner.
Variable fs : fsys.
Variable nostat : gset path.
Variable root : path.

Lemma report_inv_init : report_inv sc fs nostat root (init sc).
Proof.
  constructor; scan_state;
    first [done | by constructor | split; [done|lia]].
Qed.

Lemma try_send_room {A} (x : A) (c : Chan.chan A) n :
  Chan.cap c = n ∧ (length (Chan.buf c) ≤ n)%nat →
  Chan.cap (Chan.try_send x c) = n ∧ (length (Chan.buf (Chan.try_send x c)) ≤ n)%nat.
Proof.
  intros [Hc Hl]. unfold Chan.try_send, Chan.has_room. case_bool_decide; [|done].
  simpl. rewrite length_app. simpl. split; [done|lia].
Qed.

Lemma entry_is_file d (e : DirEntry) :
  e ∈ entries_of fs d → e.2 = false →
  ∃ content, fs !! (d ++ [e.1]) = Some (File content).
Proof.
  destruct e as [name b]. simpl. intros (n & Hn & ->)%elem_of_entries_of Hb.
  destruct n as [content|]; [by exists content|done].
Qed.

Lemma held_idle w : w = SIdle ∨ w = SExit → held_ok sc fs nostat root w.
Proof. intros [->| ->]; (split; [done|]; by intros). Qed.

Lemma held_listing d : root `prefix_of` d → held_ok sc fs nostat root (SList d (entries_of fs d)).
Proof. intros Hd. split; [by split|]. by intros. Qed.

Lemma held_next d e es :
  held_ok sc fs nostat root (SList d (e :: es)) → held_ok sc fs nostat root (SList d es).
Proof.
  intros [[Hd Hes] _]. split; [|by intros]. split; [done|].
  intros e' He'. apply Hes. by apply list_elem_of_further.
Qed.

Lemma held_subdir d e es :
  held_ok sc fs nostat root (SList d (e :: es)) → root `prefix_of` d ++ [e.1].
Proof. intros [[Hd _] _]. by apply prefix_app_r. Qed.

Lemma held_sent d es fi :
  held_ok sc fs nostat root (SEmit d es fi) →
  held_ok sc fs nostat root (SList d es) ∧ record_ok sc fs nostat root fi.
Proof.
  intros [Hsc Hfi]. destruct (Hfi _ _ _ eq_refl) as [_ Hok].
  split; [|done]. split; [done|]. by intros.
Qed.

Lemma held_count d (e : DirEntry) es size :
  held_ok sc fs nostat root (SList d (e :: es)) → e.2 = false →
  (if collectSize sc
   then (d ++ [e.1] ∉ nostat) ∧ size = size_at fs (d ++ [e.1])
   else size = 0) →
  held_ok sc fs nostat root (SEmit d es {| Path := d ++ [e.1]; Size := size; Dir := d |}).
Proof.
  intros Hh He Hsize. pose proof (held_next _ _ _ Hh) as [Hsc _].
  destruct Hh as [[Hd Hes] _].
  destruct (entry_is_file d e (Hes e (list_elem_of_here _ _)) He) as [content Hc].
  split; [done|]. intros d0 es0 fi [= <- <- <-]. simpl. split; [done|].
  split; [done|]. split; [|done]. by exists e.1, content.
Qed.

Lemma held_lstat d (e : DirEntry) es :
  held_ok sc fs nostat root (SList d (e :: es)) → e.2 = false →
  collectSize sc = true → Lstat fs nostat (d ++ [e.1]) = None →
  error_ok sc fs nostat root (ErrLstat (d ++ [e.1])).
Proof.
  intros [[Hd Hes] _] He Hcs Hl.
  destruct (entry_is_file d e (Hes e (list_elem_of_here _ _)) He) as [content Hc].
  simpl. split_and!; [done|by apply prefix_app_r|by exists content|].
  unfold Lstat, Stat in Hl. rewrite Hc in Hl. by case_decide.
Qed.

Lemma report_inv_step s l s' :
  report_inv sc fs nostat root s → exec sc fs nostat root l s = Some s' → report_inv sc fs nostat root s'.
Proof.
  intros [Hrec Hw Hq Herr Hroom] H.
  scan_step H; constructor; scan_state.
  all: try done.
  all: try by apply try_send_room.
  all: try match goal with
         | Hi : workers ?st !! _ = Some _ |- _ =>
             pose proof (Forall_lookup_1 _ _ _ _ Hw Hi) as Hheld
         end.
  all: try (apply Forall_insert; [done|]).
  all: try (apply held_idle; by auto).
  all: try by eapply held_next.
  all: try (by eapply held_sent).
  all: try (apply Forall_replicate, held_idle; by left).
  all: try match goal with
         | E : Lstat _ _ _ = None |- _ =>
             pose proof (held_lstat _ _ _ Hheld ltac:(done) ltac:(done) E) as Hlstat
         end.
  all: try match goal with
         | E : ReadDir _ _ = Some _ |- _ => apply ReadDir_Some in E as [? ->]
         end.
  all: try (eapply held_count; [done..|];
            match goal with
            | E : collectSize sc = _ |- _ => rewrite E
            end;
            first [ done
                  | match goal with
                    | E : Lstat _ _ _ = Some _ |- _ =>
                        apply Lstat_Some in E as [? E]; split; [done|];
                        symmetry; by apply size_at_Stat
                    end ]).
  all: rewrite ?Forall_app, ?Forall_cons, ?Forall_nil in *.
  all: destruct_and?; split_and?; try done.
  all: try (apply held_listing; done).
  all: try (by eapply held_subdir).
  all: try (by eapply held_sent).
  all: try done.
  all: simpl in *; try lia.
Qed.
Lemma report_inv_reachable s : reachable sc fs nostat root s → report_inv sc fs nostat root s.
Proof. induction 1; eauto using report_inv_init, report_inv_step. Qed.

(** X9: whatever the schedule, the cancellations and the unreadable
    directories, the file stream of a scan never carries a path twice, and
    every record on it is well formed: its directory lies at or below the
    root; its path is an entry of that directory that is not a directory (a
    regular file, or a symbolic link or special file); when sizes are
    collected [os.Lstat] has succeeded on it and its size is the size
    reported, and otherwise its size is zero. *)
Theorem X9_file_stream_carries_entries_of_the_tree_once s :
  tree_closed fs → reachable sc fs nostat root s →
  NoDup (Path <$> emitted_files s)
  ∧ ∀ fi, fi ∈ emitted_files s →
      root `prefix_of` Dir fi
      ∧ (∃ name content,
            Path fi = Dir fi ++ [name] ∧ fs !! Path fi = Some (File content))
      ∧ (if collectSize sc
         then (Path fi ∉ nostat) ∧ Size fi = size_at fs (Path fi)
         else Size fi = 0).
Proof.
  intros Hclosed Hr. split.
  - destruct (stream_inv_reachable sc fs nostat root s Hr) as [_ [Hcount _ _]].
    destruct (account_inv_reachable sc fs nostat root Hclosed s Hr) as [Htree _].
    pose proof (NoDup_files_under fs root) as Hnd.
    rewrite Htree in Hnd.
    apply NoDup_app in Hnd as (_ & _ & Hnd).
    apply NoDup_app in Hnd as (Hnd & _ & _).
    rewrite Hcount in Hnd. by apply NoDup_app in Hnd as (Hnd & _ & _).
  - intros fi Hfi.
    destruct (report_inv_reachable s Hr) as [Hrec _ _ _ _].
    by eapply Forall_forall in Hrec.
Qed.

(** X11: every error on the error stream of a scan stands for a failure
    that the tree explains: the listing of a directory at or below the root
    that cannot be listed, or, and only when sizes are collected, [os.Lstat]
    on an entry below the root that is not a directory and on which it
    fails.  The stream never holds more errors than its buffer has room
    for. *)
Theorem X11_error_stream_carries_real_failures s :
  reachable sc fs nostat root s →
  (∀ e, e ∈ emitted_errors s →
        match e with
        | ErrReadDir d => root `prefix_of` d ∧ ReadDir fs d = None
        | ErrLstat p =>
            collectSize sc = true ∧ root `prefix_of` p
            ∧ (∃ content, fs !! p = Some (File content)) ∧ p ∈ nostat
        end)
  ∧ (length (Chan.buf (errCh s)) ≤ errBuf sc)%nat.
Proof.
  intros Hr.
  destruct (report_inv_reachable s Hr) as [_ _ _ Herr [_ Hroom]].
  destruct (stream_inv_reachable sc fs nostat root s Hr) as [_ [_ _ Hsub]].
  split; [|done]. intros e He.
  apply (sublist_subseteq _ _ Hsub) in He.
  eapply Forall_forall in Herr; [|exact He]. exact Herr.
Qed.

End Report.

Section Agree.
Variable sc : Scanner.
Variable fs : fsys.
Variable nostat : gset path.
Variable root : path.

Lemma sizes_of_records (l : list FileInfo) :
  Forall (record_ok sc fs nostat root) l →
  sizes_of l = if collectSize sc then bytes_of fs (Path <$> l) else 0.
Proof.
  induction 1 as [|fi l (_ & _ & Hsize) _ IH]; simpl.
  - by destruct (collectSize sc).
  - rewrite IH. destruct (collectSize sc); [by destruct Hsize as [_ ->]|lia].
Qed.

(** X10: the counter of a scan never falls behind the file stream, and when
    the workers of a scan that was not cancelled are gone the counters say
    what the stream carried, directories that could not be read or not: the
    number of files is the number of records, the number of bytes is the sum
    of their sizes. *)
Theorem X10_counters_agree_with_the_file_stream s :
  tree_closed fs → fits_int64 fs root → reachable sc fs nostat root s →
  Z.of_nat (length (emitted_files s)) <= totalFiles s
  ∧ (finishing s → canceled s = false →
     TotalFiles (snapshot s) = Z.of_nat (length (emitted_files s))
     ∧ TotalSize (snapshot s) = sizes_of (emitted_files s)).
Proof.
  intros Hclosed Hfits Hr.
  destruct (stream_inv_reachable sc fs nostat root s Hr) as [Hq [Hcount Hunsent _]].
  destruct (progress_inv_reachable sc fs nostat root Hfits s Hclosed Hr)
    as [Hfiles Hsize _ _ _ _ _].
  destruct (report_inv_reachable sc fs nostat root s Hr) as [Hrec _ _ _ _].
  split.
  - rewrite Hfiles, Hcount, !length_app, length_fmap. lia.
  - intros Hfin Hc. destruct Hq as [_ _ _ Hexit _ _].
    rewrite (Hunsent Hc), (bind_all_exit _ _ eq_refl (Hexit Hfin)), !app_nil_r in Hcount.
    unfold snapshot. simpl. split.
    + by rewrite Hfiles, Hcount, length_fmap.
    + rewrite Hsize, (sizes_of_records _ Hrec).
      destruct (collectSize sc); [|done]. by apply bytes_of_perm.
Qed.

End Agree.

(** ** One worker and a wide directory *)

Section Stuck.
Variable sc : Scanner.
Variable fs : fsys.
Variable nostat : gset path.
Variable root : path.
Variable entries : list DirEntry.
Hypothesis one_worker : concurrency sc = 1%nat.
Hypothesis listing : ReadDir fs root = Some entries.
Hypothesis wide : (dirBuf sc < length (filter is_dir entries))%nat.

Lemma stuck_inv_init : stuck_inv sc root entries (init sc).
Proof. split; [done|]. by left. Qed.

Lemma canceled_before s l s' :
  exec sc fs nostat root l s = Some s' → canceled s' = false → canceled s = false.
Proof. intros H Hc. scan_step H; scan_state; first [done | congruence]. Qed.

(** The worker of the pool is worker 0. *)
Ltac the_worker :=
  repeat match goal with
    | Hw : workers ?s = [_], Hi : workers ?s !! ?i = _ |- _ =>
        rewrite Hw in Hi; destruct i as [|?]; simpl in Hi; simplify_eq
    | Hw : workers ?s = [_], Hx : context [workers ?s] |- _ =>
        tryif constr_eq Hx Hw then fail else rewrite Hw in Hx
    | Hw : workers ?s = [_] |- context [workers ?s] => rewrite Hw
    end.

Ltac stuck_eqs :=
  repeat match goal with
    | E : [_] = _ :: _ |- _ => injection E as <- E
    | E : [] = Chan.buf _ |- _ => symmetry in E
    | E : ReadDir fs root = _ |- _ =>
        tryif constr_eq E listing then fail
        else (rewrite listing in E; first [discriminate E | injection E as <-])
    end.

Ltac stuck_done :=
  first
    [ done
    | congruence
    | right; split; [done|]; split; [congruence|];
      first
        [ left; split; [done|congruence]
        | right; eexists; split;
          [ first [left; reflexivity | right; eexists; reflexivity] |];
          simpl in *; rewrite ?length_app; simpl; split; lia ] ].

Lemma stuck_inv_step s l s' :
  queue_inv sc s → stuck_inv sc root entries s →
  exec sc fs nostat root l s = Some s' → canceled s' = false →
  stuck_inv sc root entries s'.
Proof.
  intros [Hp _ _ _ _ _] [Hopen Hst] H Hc.
  pose proof (canceled_before s l s' H Hc) as Hc0.
  destruct Hst as [Hm | (Hm & Hcap & [[Hw Hb] | (es & Hw & Hlen & Hsum)])].
  - scan_step H; split; scan_state; try done; try (by left).
    all: try (right; rewrite one_worker; split; [done|]; split; [done|]; by left).
    congruence.
  - scan_step H; the_worker; split; scan_state; the_worker; stuck_eqs;
      scan_eqs; try stuck_done.
  - assert (∀ e rest, es = e :: rest →
              length (filter is_dir es)
              = ((if e.2 then 1 else 0) + length (filter is_dir rest))%nat) as Hcons.
    { intros [name b] rest ->. rewrite filter_cons. unfold is_dir at 1.
      simpl. by destruct b. }
    assert (es ≠ []) as Hne.
    { intros ->. simpl in Hsum. lia. }
    destruct Hw as [Hw | [fi Hw]].
    + scan_step H; the_worker; split; scan_state; the_worker; stuck_eqs;
        scan_eqs; try done; try congruence.
      all: try (specialize (Hcons _ _ eq_refl); rewrite Hcons in Hsum; clear Hcons).
      all: repeat match goal with
             | E : _.2 = _ |- _ => rewrite E in Hsum
             | E : Chan.has_room _ = true |- _ =>
                 unfold Chan.has_room in E; apply bool_decide_eq_true in E
             end.
      all: try stuck_done.
    + scan_step H; the_worker; split; scan_state; the_worker; stuck_eqs;
        scan_eqs; try done; try congruence.
      all: try (specialize (Hcons _ _ eq_refl); rewrite Hcons in Hsum; clear Hcons).
      all: repeat match goal with
             | E : _.2 = _ |- _ => rewrite E in Hsum
             | E : Chan.has_room _ = true |- _ =>
                 unfold Chan.has_room in E; apply bool_decide_eq_true in E
             end.
      all: try stuck_done.
Qed.
Lemma stuck_inv_reachable s :
  reachable sc fs nostat root s → canceled s = false → stuck_inv sc root entries s.
Proof.
  induction 1 as [|s l s' Hr IH H]; intros Hc; [apply stuck_inv_init|].
  destruct (stream_inv_reachable sc fs nostat root s Hr) as [Hq _].
  eapply stuck_inv_step; [exact Hq| |exact H|exact Hc].
  apply IH. by eapply canceled_before.
Qed.

(** X12: a scan by a single worker of a root that holds more
    subdirectories than the directory queue has room for never ends unless
    it is cancelled: the worker waits for room in a queue that only it
    empties, so the scan stays before the end of [workers.Wait] and the file
    stream is never closed. *)
Theorem X12_one_worker_and_a_wide_root_never_finish s :
  reachable sc fs nostat root s → canceled s = false →
  (main s = SMInit ∨ main s = SMWait) ∧ Chan.closed (filesCh s) = false.
Proof.
  intros Hr Hc. destruct (stuck_inv_reachable s Hr Hc) as [Hopen Hst].
  split; [|done]. destruct Hst as [Hm | [Hm _]]; auto.
Qed.

End Stuck.

(** ** The monitor and [Close] *)

Section Late.
Variable sc : Scanner.
Variable fs : fsys.
Variable nostat : gset path.
Variable root : path.

Lemma scan_monitor_on_step s l s' :
  monitor_on s → exec sc fs nostat root l s = Some s' → monitor_on s'.
Proof.
  intros [Hinit Hwait] H.
  scan_step H; split; scan_state; try done.
  all: try (intros _; split; [by apply Hinit|by left]).
  all: try (intros Hm; destruct (Hwait Hm) as [Hd Hmon]; split; [done|];
            first [by left | by right; eexists | done | congruence]).
  all: try (intros Hm; destruct (Hwait Hm) as [Hd Hmon]; congruence).
  intros Hm. by destruct (Hinit Hm).
Qed.

Lemma scan_monitor_on_reachable s : reachable sc fs nostat root s → monitor_on s.
Proof.
  induction 1 as [|s l s' _ IH H]; [by split|]. by eapply scan_monitor_on_step.
Qed.

Lemma scan_exec_clock s d :
  panicked s = false → 0 <= d →
  exec sc fs nostat root (LClock d) s = Some (with_now (now s + d) s).
Proof. intros Hp Hd. unfold exec. rewrite Hp. by rewrite decide_True. Qed.

Lemma scan_exec_tick s :
  panicked s = false → mon s = MonIdle → next_tick s <= now s →
  ∃ s', exec sc fs nostat root LTick s = Some s'
        ∧ panicked s' = false ∧ main s' = main s
        ∧ progressCh s' = progressCh s ∧ ∃ p, mon s' = MonReady p.
Proof.
  intros Hp Hm Hd. unfold exec, step_tick. rewrite Hp, Hm.
  rewrite decide_True by done. eexists. split; [done|]. simpl. eauto.
Qed.

Lemma scan_exec_final s :
  panicked s = false → main s = SMFinal →
  ∃ s', exec sc fs nostat root LMain s = Some s'
        ∧ panicked s' = false ∧ main s' = SMClosing ∧ mon s' = mon s.
Proof.
  intros Hp Hm. unfold exec, step_main. rewrite Hp, Hm. eexists. by split.
Qed.

Lemma scan_exec_close s :
  panicked s = false → main s = SMClosing →
  ∃ s', exec sc fs nostat root LMain s = Some s'
        ∧ panicked s' = false ∧ mon s' = mon s
        ∧ Chan.closed (progressCh s') = true.
Proof.
  intros Hp Hm. unfold exec, step_main. rewrite Hp, Hm. eexists. by split.
Qed.

Lemma scan_exec_late_send s p :
  panicked s = false → mon s = MonReady p → Chan.closed (progressCh s) = true →
  exec sc fs nostat root LMonSend s = Some (with_panicked true s).
Proof.
  intros Hp Hm Hc. unfold exec, step_mon_send. by rewrite Hp, Hm, Hc.
Qed.

(** From the final stage on, with a snapshot in the hand of the monitor. *)
Lemma scan_late_send s p :
  panicked s = false → main s = SMFinal → mon s = MonReady p →
  ∃ s', run sc fs nostat root [LMain; LMain; LMonSend] s = Some s'
        ∧ Chan.closed (progressCh s') = true ∧ panicked s' = true.
Proof.
  intros Hp Hm Hmon. cbn [run].
  destruct (scan_exec_final s Hp Hm) as (s1 & -> & Hp1 & Hm1 & Hmon1).
  destruct (scan_exec_close s1 Hp1 Hm1) as (s2 & -> & Hp2 & Hmon2 & Hc2).
  rewrite (scan_exec_late_send s2 p); [by eexists|done|congruence|done].
Qed.

(** X13: a scan that has got to the point where all its workers have
    returned can still bring the program down: the monitor may take one more
    snapshot, and if [ScanDirectory] sends its final snapshot and closes the
    streams before the monitor sends, that send is a send on a closed
    channel, which panics. *)
Theorem X13_scan_monitor_can_send_after_close s s1 :
  reachable sc fs nostat root s → main s = SMWait →
  exec sc fs nostat root LMain s = Some s1 →
  ∃ sched s', run sc fs nostat root sched s = Some s'
              ∧ Chan.closed (progressCh s') = true ∧ panicked s' = true.
Proof.
  intros Hr Hm H1.
  destruct (scan_monitor_on_reachable s Hr) as [_ Hon].
  destruct (Hon Hm) as [_ Hmon].
  assert (panicked s1 = false ∧ main s1 = SMFinal ∧ mon s1 = mon s
          ∧ now s1 = now s ∧ next_tick s1 = next_tick s) as (Hp1 & Hm1 & Hmon1 & _ & _).
  { unfold exec in H1. destruct (panicked s) eqn:Hp; [done|].
    unfold step_main in H1. rewrite Hm in H1.
    destruct (forallb is_exit (workers s)); [|done]. by simplify_eq. }
  destruct Hmon as [Hmon | [p Hmon]].
  - set (d := Z.max 0 (next_tick s1 - now s1)).
    destruct (scan_exec_tick (with_now (now s1 + d) s1)) as (s3 & H3 & Hp3 & Hm3 & _ & p & Hmon3).
    { done. } { simpl. congruence. } { simpl. lia. }
    destruct (scan_late_send s3 p Hp3) as (s' & Hrun & Hc & Hp'); [by rewrite Hm3|done|].
    exists (LMain :: LClock d :: LTick :: [LMain; LMain; LMonSend]), s'.
    split; [|done]. cbn [run]. rewrite H1.
    rewrite (scan_exec_clock s1 d Hp1) by lia. by rewrite H3.
  - destruct (scan_late_send s1 p Hp1 Hm1) as (s' & Hrun & Hc & Hp'); [congruence|].
    exists (LMain :: [LMain; LMain; LMonSend]), s'.
    split; [|done]. cbn [run]. by rewrite H1.
Qed.

End Late.

(** *** The statements on small scans *)

Lemma X9_file_stream_carries_entries_of_the_tree_once_witness :
  from_option
    (λ s, NoDup (Path <$> emitted_files s)
          ∧ ∀ fi, fi ∈ emitted_files s →
              data_root `prefix_of` Dir fi
              ∧ (∃ name content,
                    Path fi = Dir fi ++ [name]
                    ∧ open_fs !! Path fi = Some (File content))
              ∧ (if collectSize small_scanner
                 then (Path fi ∉ (∅ : gset path))
                      ∧ Size fi = size_at open_fs (Path fi)
                 else Size fi = 0))
    False
    (run small_scanner open_fs ∅ data_root open_schedule (init small_scanner)).
Proof.
  pose proof open_run as Hs.
  destruct (run small_scanner open_fs ∅ data_root open_schedule (init small_scanner))
    as [s|] eqn:E; cbn [from_option] in *; [|exact Hs].
  exact (X9_file_stream_carries_entries_of_the_tree_once
           small_scanner open_fs ∅ data_root s open_tree_closed
           (scan_run_reachable _ _ _ _ _ _ _ (reach_init _ _ _ _) E)).
Defined.

Lemma open_run_finishing :
  from_option (λ s, finishing s ∧ canceled s = false) False
    (run small_scanner open_fs ∅ data_root open_schedule (init small_scanner)).
Proof. vm_compute. split; [|done]. right. by right. Qed.

Lemma X10_counters_agree_with_the_file_stream_witness :
  from_option
    (λ s, TotalFiles (snapshot s) = Z.of_nat (length (emitted_files s))
          ∧ TotalSize (snapshot s) = sizes_of (emitted_files s))
    False
    (run small_scanner open_fs ∅ data_root open_schedule (init small_scanner)).
Proof.
  pose proof open_run_finishing as Hs.
  destruct (run small_scanner open_fs ∅ data_root open_schedule (init small_scanner))
    as [s|] eqn:E; cbn [from_option] in *; [|exact Hs].
  destruct Hs as [Hf Hc].
  exact (proj2 (X10_counters_agree_with_the_file_stream
                  small_scanner open_fs ∅ data_root s open_tree_closed open_fits
                  (scan_run_reachable _ _ _ _ _ _ _ (reach_init _ _ _ _) E)) Hf Hc).
Defined.

(** The scan of the locked tree with [readme] out of reach of [os.Lstat]
    ends with both failures on the error stream and nothing on the file
    stream. *)
Lemma guarded_run :
  from_option
    (λ s, main s = SMDone
          ∧ emitted_errors s
            = [ErrLstat [""; "data"; "readme"]; ErrReadDir [""; "data"; "private"]]
          ∧ emitted_files s = [])
    False
    (run small_scanner locked_fs unstatable data_root guarded_schedule
       (init small_scanner)).
Proof. vm_compute. repeat split. Qed.

Lemma X11_error_stream_carries_real_failures_witness :
  from_option
    (λ s, (∀ e, e ∈ emitted_errors s →
                match e with
                | ErrReadDir d => data_root `prefix_of` d ∧ ReadDir locked_fs d = None
                | ErrLstat p =>
                    collectSize small_scanner = true ∧ data_root `prefix_of` p
                    ∧ (∃ content, locked_fs !! p = Some (File content))
                    ∧ p ∈ unstatable
                end)
          ∧ (length (Chan.buf (errCh s)) ≤ errBuf small_scanner)%nat)
    False
    (run small_scanner locked_fs unstatable data_root guarded_schedule
       (init small_scanner)).
Proof.
  pose proof guarded_run as Hs.
  destruct (run small_scanner locked_fs unstatable data_root guarded_schedule
              (init small_scanner))
    as [s|] eqn:E; cbn [from_option] in *; [|exact Hs].
  exact (X11_error_stream_carries_real_failures
           small_scanner locked_fs unstatable data_root s
           (scan_run_reachable _ _ _ _ _ _ _ (reach_init _ _ _ _) E)).
Defined.

Lemma wide_run :
  from_option (λ s, canceled s = false) False
    (run narrow_scanner wide_fs ∅ data_root wide_schedule (init narrow_scanner)).
Proof. by vm_compute. Qed.

Lemma wide_listing :
  ReadDir wide_fs data_root = Some (entries_of wide_fs data_root).
Proof. reflexivity. Qed.

Lemma wide_is_wide :
  (dirBuf narrow_scanner < length (filter is_dir (entries_of wide_fs data_root)))%nat.
Proof. vm_compute. lia. Qed.

Lemma X12_one_worker_and_a_wide_root_never_finish_witness :
  from_option
    (λ s, (main s = SMInit ∨ main s = SMWait) ∧ Chan.closed (filesCh s) = false)
    False
    (run narrow_scanner wide_fs ∅ data_root wide_schedule (init narrow_scanner)).
Proof.
  pose proof wide_run as Hs.
  destruct (run narrow_scanner wide_fs ∅ data_root wide_schedule (init narrow_scanner))
    as [s|] eqn:E; cbn [from_option] in *; [|exact Hs].
  exact (X12_one_worker_and_a_wide_root_never_finish
           narrow_scanner wide_fs ∅ data_root (entries_of wide_fs data_root)
           eq_refl wide_listing wide_is_wide s
           (scan_run_reachable _ _ _ _ _ _ _ (reach_init _ _ _ _) E) Hs).
Defined.

Lemma open_run_workers_done :
  from_option
    (λ s, main s = SMWait
          ∧ is_Some (exec small_scanner open_fs ∅ data_root LMain s))
    False
    (run small_scanner open_fs ∅ data_root (take 12 open_schedule)
       (init small_scanner)).
Proof. vm_compute. split; [done|]. by eexists. Qed.

Lemma X13_scan_monitor_can_send_after_close_witness :
  from_option
    (λ s, ∃ sched s',
        run small_scanner open_fs ∅ data_root sched s = Some s'
        ∧ Chan.closed (progressCh s') = true ∧ panicked s' = true)
    False
    (run small_scanner open_fs ∅ data_root (take 12 open_schedule)
       (init small_scanner)).
Proof.
  pose proof open_run_workers_done as Hs.
  destruct (run small_scanner open_fs ∅ data_root (take 12 open_schedule)
              (init small_scanner))
    as [s|] eqn:E; cbn [from_option] in *; [|exact Hs].
  destruct Hs as [Hm [s1 H1]].
  exact (X13_scan_monitor_can_send_after_close
           small_scanner open_fs ∅ data_root s s1
           (scan_run_reachable _ _ _ _ _ _ _ (reach_init _ _ _ _) E) Hm H1).
Defined.

(** ** What a complete scan has sent *)

Section Complete.
Variable sc : Scanner.
Variable fs : fsys.
Variable nostat : gset path.
Variable root : path.


End Complete.

End ScannerProofs.

(** ** The command line: scan, then copy *)

Module CopyManagerProofs.
Import Copier CopyManager.








End CopyManagerProofs.
